(** * youterm: queue, listening history, quality scoring and discovery scheduler

    A shallow embedding of the core of [stream_cli] (smart_queue.py,
    discovery.py, auto_discovery.py) and the properties stated about it.

    Conventions of the embedding:
    - Python [str] is [string] (a sequence of 8-bit characters); the empty
      string is the only falsy string.
    - Python [float] is an exact rational [Q]; [int] is [Z] (or [nat] for
      indices and lengths that the code never lets go below zero).
    - [dict] with string keys is [gmap string _]; [set] of strings is
      [gset string]; ordered containers ([list], [deque]) are [list].
    - [random] and [time.time()] are inputs: a tape of naturals consumed in
      order, and an explicit clock reading. *)

From Stdlib Require Import ZArith QArith Qminmax Lqa Lia String Ascii List Permutation Bool.
From stdpp Require Import base gmap sets list strings.

#[local] Set Warnings "-clear-no-such-hyp".

Local Open Scope string_scope.
Local Open Scope list_scope.

(** ** Python built-ins on floats *)

(** [min(a, b)]: [b] only when [b < a]. *)
Definition py_min (a b : Q) : Q := if Qlt_le_dec b a then b else a.

(** [max(a, b)]: [b] only when [b > a]. *)
Definition py_max (a b : Q) : Q := if Qlt_le_dec a b then b else a.

(** [max(0.0, min(1.0, x))], the clamp used by every scorer. *)
Definition clamp01 (x : Q) : Q := py_max 0 (py_min 1 x).

Lemma clamp01_bounds x : (0 <= clamp01 x)%Q /\ (clamp01 x <= 1)%Q.
Proof.
  unfold clamp01, py_max, py_min.
  destruct (Qlt_le_dec x 1); destruct (Qlt_le_dec 0 _); split; lra.
Qed.

(** Truthiness of a string: [if s:]. *)
Definition truthy (s : string) : bool := negb (String.eqb s "").

Lemma truthy_true s : truthy s = true <-> s <> "".
Proof.
  unfold truthy. rewrite negb_true_iff. split.
  - intros H ->. discriminate.
  - intros H. destruct (String.eqb_spec s ""); congruence.
Qed.

(** ** discovery.py: MusicMetadata._string_similarity *)

Module Similarity.

(** [s[i:i+2] for i in range(len(s)-1)], in order of [i]. *)
Fixpoint bigram_list (s : string) : list string :=
  match s with
  | String a (String b _ as t) => String a (String b EmptyString) :: bigram_list t
  | _ => []
  end.

Definition get_bigrams (s : string) : gset string := list_to_set (bigram_list s).

Definition _string_similarity (s1 s2 : string) : Q :=
  if negb (truthy s1) || negb (truthy s2) then 0%Q
  else
    let bigrams1 := get_bigrams s1 in
    let bigrams2 := get_bigrams s2 in
    if Nat.eqb (size bigrams1) 0 && Nat.eqb (size bigrams2) 0 then 1%Q
    else if Nat.eqb (size bigrams1) 0 || Nat.eqb (size bigrams2) 0 then 0%Q
    else
      let intersection := size (bigrams1 ∩ bigrams2) in
      let union := size (bigrams1 ∪ bigrams2) in
      if Nat.ltb 0 union
      then (Z.of_nat intersection # Pos.of_nat union)%Q
      else 0%Q.

Example sim_abc_abd : _string_similarity "abc" "abd" = (1 # 3)%Q.
Proof. vm_compute. reflexivity. Qed.

Example sim_single_chars : _string_similarity "a" "b" = 1%Q.
Proof. vm_compute. reflexivity. Qed.

Lemma sim_sym s1 s2 : _string_similarity s1 s2 = _string_similarity s2 s1.
Proof.
  unfold _string_similarity.
  rewrite (orb_comm (negb (truthy s1))).
  rewrite (andb_comm (Nat.eqb (size (get_bigrams s1)) 0)).
  rewrite (orb_comm (Nat.eqb (size (get_bigrams s1)) 0)).
  assert (HI : get_bigrams s1 ∩ get_bigrams s2 = get_bigrams s2 ∩ get_bigrams s1)
    by set_solver.
  assert (HU : get_bigrams s1 ∪ get_bigrams s2 = get_bigrams s2 ∪ get_bigrams s1)
    by set_solver.
  rewrite HI, HU. reflexivity.
Qed.

Lemma Qmake_diag n : n <> 0%nat -> (Z.of_nat n # Pos.of_nat n == 1)%Q.
Proof.
  intros Hn. unfold Qeq. simpl.
  rewrite <- (positive_nat_Z (Pos.of_nat n)), Nat2Pos.id by exact Hn. lia.
Qed.

Lemma sim_refl s : s <> "" -> (_string_similarity s s == 1)%Q.
Proof.
  intros Hs. apply truthy_true in Hs.
  unfold _string_similarity. rewrite Hs. simpl.
  destruct (Nat.eqb_spec (size (get_bigrams s)) 0) as [E | E]; simpl.
  - reflexivity.
  - assert (HU : get_bigrams s ∪ get_bigrams s = get_bigrams s) by set_solver.
    assert (HI : get_bigrams s ∩ get_bigrams s = get_bigrams s) by set_solver.
    rewrite HU, HI.
    destruct (Nat.ltb_spec 0 (size (get_bigrams s))); [| lia].
    apply Qmake_diag. exact E.
Qed.

Lemma sim_empty_l s : _string_similarity "" s = 0%Q.
Proof. reflexivity. Qed.

Lemma sim_empty_r s : _string_similarity s "" = 0%Q.
Proof. rewrite sim_sym. reflexivity. Qed.

(** C5, as stated, fails on two empty strings: the first guard of
    [_string_similarity] returns 0.0 as soon as either argument is empty,
    so the pair of empty strings scores 0.0 and not 1.0. *)
Lemma similarity_empty_empty_not_one : ~ (_string_similarity "" "" == 1)%Q.
Proof. vm_compute. discriminate. Qed.

(** C5 (amended): the similarity is symmetric, a non-empty string has
    similarity 1.0 with itself, and an empty string has similarity 0.0 with
    every string, the empty one included. *)
Theorem string_similarity_laws (a b : string) :
  _string_similarity a b = _string_similarity b a
  /\ (a <> "" -> (_string_similarity a a == 1)%Q)
  /\ _string_similarity "" "" = 0%Q
  /\ _string_similarity "" a = 0%Q
  /\ _string_similarity a "" = 0%Q.
Proof.
  split; [apply sim_sym |].
  split; [apply sim_refl |].
  split; [reflexivity |].
  split; [apply sim_empty_l | apply sim_empty_r].
Qed.

Lemma string_similarity_laws_witness :
  "queen" <> "" /\ (_string_similarity "queen" "queen" == 1)%Q.
Proof.
  split.
  - discriminate.
  - apply (string_similarity_laws "queen" "abba"). discriminate.
Defined.

End Similarity.

(** ** discovery.py: TrackQualityFilter *)

Module Quality.

(** *** Characters and strings, as [str.lower], [in] and [re] see them *)

Definition is_upper (c : ascii) : bool :=
  let n := nat_of_ascii c in Nat.leb 65 n && Nat.leb n 90.

Definition lower_char (c : ascii) : ascii :=
  if is_upper c then ascii_of_nat (nat_of_ascii c + 32) else c.

(** [s.lower()] *)
Fixpoint lower (s : string) : string :=
  match s with
  | EmptyString => EmptyString
  | String c s' => String (lower_char c) (lower s')
  end.

(** [sub in s] *)
Fixpoint contains (sub s : string) : bool :=
  String.prefix sub s ||
  match s with
  | EmptyString => false
  | String _ s' => contains sub s'
  end.

(** [\d], [\w] and [\s] on 8-bit characters. *)
Definition is_digit (c : ascii) : bool :=
  let n := nat_of_ascii c in Nat.leb 48 n && Nat.leb n 57.

Definition is_word (c : ascii) : bool :=
  let n := nat_of_ascii c in
  is_digit c || (Nat.leb 65 n && Nat.leb n 90) || (Nat.leb 97 n && Nat.leb n 122)
  || Nat.eqb n 95.

Definition is_space (c : ascii) : bool :=
  let n := nat_of_ascii c in
  (Nat.leb 9 n && Nat.leb n 13) || (Nat.leb 28 n && Nat.leb n 32).

Definition is_newline (c : ascii) : bool := Nat.eqb (nat_of_ascii c) 10.

(** *** The fragment of regular expressions the pattern tables use *)

(** What follows [.*] inside a lookahead. *)
Inductive ahead_body :=
| ThenDigits                (* .*\d+ *)
| ThenLit (l : string).     (* .*l    *)

Inductive atom :=
| Lit (l : string)          (* literal text *)
| Opt (c : ascii)           (* c?  *)
| WordB                     (* \b  *)
| Spaces                    (* \s+ *)
| Ahead (positive : bool) (body : ahead_body).   (* (?=.*x) and (?!.*x) *)

Definition pattern := list atom.

(** Consume literal [l]; returns the last character read and the rest. *)
Fixpoint eat (l : string) (prev : option ascii) (s : string) : option (option ascii * string) :=
  match l with
  | EmptyString => Some (prev, s)
  | String c l' =>
      match s with
      | String a s' => if Ascii.eqb a c then eat l' (Some a) s' else None
      | EmptyString => None
      end
  end.

Definition word_opt (c : option ascii) : bool :=
  match c with Some a => is_word a | None => false end.

Definition next_char (s : string) : option ascii :=
  match s with String a _ => Some a | EmptyString => None end.

(** [\b]: exactly one side is a word character. *)
Definition at_boundary (prev : option ascii) (s : string) : bool :=
  xorb (word_opt prev) (word_opt (next_char s)).

(** [\s+] followed by continuation [k]: every non-empty run is tried. *)
Fixpoint after_spaces (k : option ascii -> string -> bool) (s : string) : bool :=
  match s with
  | String a s' => if is_space a then k (Some a) s' || after_spaces k s' else false
  | EmptyString => false
  end.

(** [.*] followed by [test]; [.] does not match a newline. *)
Fixpoint dot_star_then (test : string -> bool) (s : string) : bool :=
  test s ||
  match s with
  | String a s' => if is_newline a then false else dot_star_then test s'
  | EmptyString => false
  end.

Definition ahead (body : ahead_body) (s : string) : bool :=
  match body with
  | ThenDigits =>
      dot_star_then (fun r => match r with String a _ => is_digit a | EmptyString => false end) s
  | ThenLit l => dot_star_then (String.prefix l) s
  end.

(** Does the pattern match starting here? [prev] is the character just
    before the current position. *)
Fixpoint match_atoms (p : pattern) (prev : option ascii) (s : string) : bool :=
  match p with
  | [] => true
  | Lit l :: p' =>
      match eat l prev s with
      | Some (prev', s') => match_atoms p' prev' s'
      | None => false
      end
  | Opt c :: p' =>
      match s with
      | String a s' => Ascii.eqb a c && match_atoms p' (Some a) s'
      | EmptyString => false
      end || match_atoms p' prev s
  | WordB :: p' => at_boundary prev s && match_atoms p' prev s
  | Spaces :: p' => after_spaces (match_atoms p') s
  | Ahead positive body :: p' => Bool.eqb (ahead body s) positive && match_atoms p' prev s
  end.

Fixpoint search_from (p : pattern) (prev : option ascii) (s : string) : bool :=
  match_atoms p prev s ||
  match s with
  | String a s' => search_from p (Some a) s'
  | EmptyString => false
  end.

(** [re.search(p, s)] as a truth value. *)
Definition re_search (p : pattern) (s : string) : bool := search_from p None s.

Definition word (w : string) : pattern := [WordB; Lit w; WordB].
Definition word_then_digits (w : string) : pattern := (word w ++ [Ahead true ThenDigits])%list.

Definition LOW_QUALITY_PATTERNS : list pattern :=
  [ [Lit "#short"; Opt "s"; WordB]; word "short"; word "status"; word "meme";
    word "reaction"; word "review"; word "compilation";
    (word "mix" ++ [Ahead false (ThenLit "album")])%list;
    word_then_digits "remix"; word_then_digits "beat";
    word_then_digits "instrumental"; word "karaoke"; word_then_digits "cover";
    word_then_digits "live"; word_then_digits "concert"; word "tutorial";
    [WordB; Lit "how"; Spaces; Lit "to"; WordB];
    [WordB; Lit "lyric"; Opt "s"; Spaces; Lit "video"; WordB];
    [WordB; Lit "fan"; Spaces; Lit "made"; WordB] ].

Definition HIGH_QUALITY_PATTERNS : list pattern :=
  [ word "official"; word "original"; word "album";
    (word "studio" ++ [Ahead true (ThenLit "version")])%list;
    [WordB; Lit "full"; Spaces; Lit "song"; WordB];
    word "complete"; word "deluxe"; word "remastered" ].

Example search_shorts : re_search [Lit "#short"; Opt "s"; WordB] "funny #shorts clip" = true.
Proof. reflexivity. Qed.

Example search_mix_album :
  re_search (word "mix" ++ [Ahead false (ThenLit "album")])%list "summer mix from the album" = false.
Proof. reflexivity. Qed.

Example search_live_digits : re_search (word_then_digits "live") "live at wembley 1986" = true.
Proof. reflexivity. Qed.

Example search_word_inside : re_search (word "short") "shortcut" = false.
Proof. reflexivity. Qed.

Example search_how_to : re_search [WordB; Lit "how"; Spaces; Lit "to"; WordB] "how   to play" = true.
Proof. reflexivity. Qed.

(** *** score_track *)

Local Open Scope Q_scope.

Definition long_form_keywords : list string :=
  ["sahasranamam"; "bhajan"; "devotional"; "mantra"; "chant"; "classical";
   "full version"; "complete"; "interview"; "talk"; "lecture"; "discussion";
   "episode"; "audiobook"; "documentary"; "speech"].

(** [any(keyword in s for keyword in kws)] *)
Definition any_in (kws : list string) (s : string) : bool :=
  existsb (fun k => contains k s) kws.

(** [duration and c]: a zero duration is falsy. *)
Definition dur_and (duration : Z) (c : bool) : bool := negb (Z.eqb duration 0) && c.

Definition is_long_form (title_lower channel_lower : string) (duration : Z) : bool :=
  any_in long_form_keywords title_lower
  || (contains "podcast" channel_lower || contains "interview" channel_lower
      || contains "talk" channel_lower || contains "radio" channel_lower
      || contains "show" channel_lower || contains "cast" channel_lower
      || dur_and duration (Z.gtb duration 900)).

(** Lines 133-148: the duration block. *)
Definition duration_step (long_form : bool) (duration : Z) (score : Q) : Q :=
  if long_form then
    if dur_and duration (Z.geb duration 300) then score + 0.2
    else if dur_and duration (Z.leb 120 duration && Z.ltb duration 300) then score + 0.1
    else if dur_and duration (Z.ltb duration 60) then score - 0.3
    else score
  else
    if dur_and duration (Z.leb 120 duration && Z.leb duration 480) then score + 0.2
    else if dur_and duration (Z.ltb duration 60) then score - 0.3
    else if dur_and duration (Z.gtb duration 600) then score - 0.1
    else score.

(** Lines 151-157: one adjustment per matching pattern, in table order. *)
Definition pattern_step (delta : Q) (pats : list pattern) (title_lower : string) (score : Q) : Q :=
  fold_left (fun sc p => if re_search p title_lower then sc + delta else sc) pats score.

(** Lines 160-163. *)
Definition channel_step (channel_lower : string) (score : Q) : Q :=
  if any_in ["official"; "records"; "music"] channel_lower then score + 0.1
  else if any_in ["compilation"; "mix"; "covers"] channel_lower then score - 0.1
  else score.

(** Lines 166-170. *)
Definition views_step (view_count : Z) (score : Q) : Q :=
  if Z.gtb view_count 0 then
    if Z.gtb view_count 1000000 then score + 0.05
    else if Z.ltb view_count 1000 then score - 0.05
    else score
  else score.

(** Everything after the duration block, applied to an incoming score. *)
Definition after_duration (title_lower channel_lower : string) (view_count : Z) (score : Q) : Q :=
  views_step view_count
    (channel_step channel_lower
       (pattern_step 0.15 HIGH_QUALITY_PATTERNS title_lower
          (pattern_step (- 0.15) LOW_QUALITY_PATTERNS title_lower score))).

(** The score just before the final clamp. *)
Definition raw_score (title channel : string) (duration view_count : Z) : Q :=
  let score := 0.5%Q in
  let title_lower := lower title in
  let channel_lower := lower channel in
  let long_form := is_long_form title_lower channel_lower duration in
  after_duration title_lower channel_lower view_count
    (duration_step long_form duration score).

Definition score_track (title channel : string) (duration view_count : Z) : Q :=
  clamp01 (raw_score title channel duration view_count).

Example score_plain : (score_track "Queen - Bohemian Rhapsody (Official Video)" "Queen Official" 355 2000000 == 1)%Q.
Proof. vm_compute. reflexivity. Qed.

Example score_unknown_duration : (score_track "" "" 0 0 == 0.5)%Q.
Proof. vm_compute. reflexivity. Qed.

Example score_negative_duration : (score_track "" "" (-1) 0 == 0.2)%Q.
Proof. vm_compute. reflexivity. Qed.

(** *** Shifting the score that enters a block *)

Lemma pattern_step_shift delta pats t (s s' d : Q) :
  s == s' + d -> pattern_step delta pats t s == pattern_step delta pats t s' + d.
Proof.
  unfold pattern_step. revert s s'.
  induction pats as [| p pats IH]; intros s s' H; simpl.
  - exact H.
  - apply IH. destruct (re_search p t); lra.
Qed.

Lemma channel_step_shift c (s s' d : Q) :
  s == s' + d -> channel_step c s == channel_step c s' + d.
Proof.
  intros H. unfold channel_step.
  destruct (any_in _ c); [lra |]. destruct (any_in _ c); lra.
Qed.

Lemma views_step_shift v (s s' d : Q) :
  s == s' + d -> views_step v s == views_step v s' + d.
Proof.
  intros H. unfold views_step.
  destruct (Z.gtb v 0); [| lra].
  destruct (Z.gtb v 1000000); [lra |]. destruct (Z.ltb v 1000); lra.
Qed.

Lemma after_duration_shift t c v (s s' d : Q) :
  s == s' + d -> after_duration t c v s == after_duration t c v s' + d.
Proof.
  intros H. unfold after_duration.
  apply views_step_shift, channel_step_shift.
  apply pattern_step_shift, pattern_step_shift. exact H.
Qed.

Lemma clamp01_mono (x y : Q) : x <= y -> clamp01 x <= clamp01 y.
Proof.
  intros H. unfold clamp01, py_max, py_min.
  destruct (Qlt_le_dec x 1), (Qlt_le_dec y 1);
    repeat match goal with |- context [Qlt_le_dec ?a ?b] => destruct (Qlt_le_dec a b) end;
    lra.
Qed.

Lemma clamp01_proper (x y : Q) : x == y -> clamp01 x == clamp01 y.
Proof.
  intros H. apply Qle_antisym; apply clamp01_mono; lra.
Qed.

Lemma is_long_form_nonpositive t c (d : Z) :
  (d <= 0)%Z -> is_long_form t c d = is_long_form t c 0.
Proof.
  intros Hd. unfold is_long_form, dur_and.
  replace (Z.gtb d 900) with false by (symmetry; rewrite Z.gtb_ltb; apply Z.ltb_ge; lia).
  rewrite andb_false_r. reflexivity.
Qed.

Lemma duration_step_zero lf (s : Q) : duration_step lf 0 s = s.
Proof. destruct lf; reflexivity. Qed.

Lemma duration_step_negative lf (d : Z) (s : Q) :
  (d < 0)%Z -> duration_step lf d s = s - 0.3.
Proof.
  intros Hd. unfold duration_step, dur_and.
  replace (Z.eqb d 0) with false by (symmetry; apply Z.eqb_neq; lia).
  replace (Z.geb d 300) with false by (symmetry; rewrite Z.geb_leb; apply Z.leb_gt; lia).
  replace (Z.leb 120 d) with false by (symmetry; apply Z.leb_gt; lia).
  replace (Z.ltb d 60) with true by (symmetry; apply Z.ltb_lt; lia).
  destruct lf; reflexivity.
Qed.

Lemma raw_score_negative title channel (d v : Z) :
  (d < 0)%Z ->
  raw_score title channel d v
  = after_duration (lower title) (lower channel) v (0.5 - 0.3).
Proof.
  intros Hd. unfold raw_score.
  rewrite duration_step_negative by exact Hd. reflexivity.
Qed.

(** C6: [score_track] is a total function of its four arguments and its
    result always lies between 0 and 1, whatever the title, the channel,
    the duration (zero and negative included) and the view count. *)
Theorem score_track_in_unit_interval (title channel : string) (duration view_count : Z) :
  0 <= score_track title channel duration view_count
  /\ score_track title channel duration view_count <= 1.
Proof. unfold score_track. apply clamp01_bounds. Qed.

(** C7, as stated, fails: with an empty title and channel and no view
    count, duration 0 scores 0.5 while duration -1 scores 0.2, because
    [duration and duration < 60] holds for a negative duration. *)
Lemma negative_duration_scores_differently :
  score_track "" "" 0 0 == 0.5
  /\ score_track "" "" (-1) 0 == 0.2
  /\ ~ (score_track "" "" (-1) 0 == score_track "" "" 0 0).
Proof.
  split; [vm_compute; reflexivity |].
  split; [vm_compute; reflexivity |].
  vm_compute. discriminate.
Qed.

(** C7 (amended): a zero duration is treated as unknown and the duration
    block changes nothing; a negative duration is scored as a very short
    clip and takes the 0.3 penalty before the clamp. All negative durations
    give the same score, and it is never above the score for duration 0. *)
Theorem zero_duration_skipped_negative_penalised
    (title channel : string) (view_count d : Z) :
  (d < 0)%Z ->
  score_track title channel 0 view_count
    = clamp01 (after_duration (lower title) (lower channel) view_count 0.5)
  /\ score_track title channel d view_count
      == clamp01 (raw_score title channel 0 view_count - 0.3)
  /\ (forall d', (d' < 0)%Z ->
        score_track title channel d' view_count = score_track title channel d view_count)
  /\ score_track title channel d view_count <= score_track title channel 0 view_count.
Proof.
  intros Hd.
  assert (H0 : raw_score title channel 0 view_count
               = after_duration (lower title) (lower channel) view_count 0.5).
  { unfold raw_score. rewrite duration_step_zero. reflexivity. }
  assert (Hneg : raw_score title channel d view_count
                 == raw_score title channel 0 view_count - 0.3).
  { rewrite raw_score_negative by exact Hd. rewrite H0.
    rewrite (after_duration_shift _ _ _ (0.5 - 0.3) 0.5 (- 0.3)) by lra. lra. }
  split; [unfold score_track; rewrite H0; reflexivity |].
  split; [unfold score_track; apply clamp01_proper; exact Hneg |].
  split.
  - intros d' Hd'. unfold score_track.
    rewrite !raw_score_negative by assumption. reflexivity.
  - unfold score_track. apply clamp01_mono. lra.
Qed.

Lemma zero_duration_skipped_negative_penalised_witness :
  (-5 < 0)%Z
  /\ score_track "Song" "Channel" (-5) 10 <= score_track "Song" "Channel" 0 10.
Proof.
  split.
  - lia.
  - apply (zero_duration_skipped_negative_penalised "Song" "Channel" 10 (-5)). lia.
Defined.

End Quality.

(** ** Tracks *)

(** [MusicMetadata]: the fields the queue, the history and the scheduler read. *)
Record MusicMetadata := mkMetadata {
  md_title : string;
  artist : string;
  normalized_title : string;
  normalized_artist : string
}.

(** A track dictionary. A key that may be missing is an [option]:
    [track.get(k)] is [None] and [track.get(k, d)] is [d] when it is. *)
Record Track := mkTrack {
  id : option string;
  title : string;
  duration : option Z;
  quality_score : option Q;
  metadata : option MusicMetadata
}.

(** [track.get("id")] as a condition: present and not empty. *)
Definition has_id (t : Track) : bool :=
  match id t with Some i => truthy i | None => false end.

(** [metadata.artist] when [metadata and metadata.artist] holds. *)
Definition known_artist (t : Track) : option string :=
  match metadata t with
  | Some m => if truthy (artist m) then Some (artist m) else None
  | None => None
  end.

(** ** smart_queue.py: ListeningHistory *)

Module History.

Record TrackStats := mkTrackStats {
  play_count : Z;
  skip_count : Z;
  last_played : Z;
  total_duration_played : Z;
  ts_title : string;
  ts_artist : string
}.

Record ArtistStats := mkArtistStats {
  a_play_count : Z;
  preference_score : Q
}.

(** [history["tracks"]], [history["artists"]] and the two preferences the
    scoring reads. *)
Record ListeningHistory := mkHistory {
  tracks : gmap string TrackStats;
  artists : gmap string ArtistStats;
  skip_threshold : Q;
  preferred_duration_range : Z * Z
}.

(** The state [_load_history] and [_load_preferences] start from. *)
Definition fresh_history : ListeningHistory :=
  {| tracks := ∅; artists := ∅; skip_threshold := 0.3%Q;
     preferred_duration_range := (120, 360)%Z |}.

Definition set_tracks (h : ListeningHistory) (m : gmap string TrackStats) : ListeningHistory :=
  {| tracks := m; artists := artists h; skip_threshold := skip_threshold h;
     preferred_duration_range := preferred_duration_range h |}.

Definition set_artists (h : ListeningHistory) (m : gmap string ArtistStats) : ListeningHistory :=
  {| tracks := tracks h; artists := m; skip_threshold := skip_threshold h;
     preferred_duration_range := preferred_duration_range h |}.

(** [if duration_played:] *)
Definition played_seconds (duration_played : option Z) : Z :=
  match duration_played with Some d => d | None => 0%Z end.

(** [record_play]; [now] is [int(time.time())]. The closing [self.save()]
    writes the files and leaves the in-memory state as it is. *)
Definition record_play (h : ListeningHistory) (track : Track)
    (duration_played : option Z) (now : Z) : ListeningHistory :=
  match id track with
  | None => h
  | Some track_id =>
      if negb (truthy track_id) then h
      else
        let artist_name :=
          match metadata track with Some m => artist m | None => "" end in
        let track_data :=
          match tracks h !! track_id with
          | Some d => d
          | None => mkTrackStats 0 0 0 0 (title track) artist_name
          end in
        let track_data' :=
          {| play_count := play_count track_data + 1;
             skip_count := skip_count track_data;
             last_played := now;
             total_duration_played :=
               total_duration_played track_data + played_seconds duration_played;
             ts_title := ts_title track_data;
             ts_artist := ts_artist track_data |} in
        let h1 := set_tracks h (<[track_id := track_data']> (tracks h)) in
        if truthy artist_name then
          let entry :=
            match artists h1 !! artist_name with
            | Some e => e
            | None => mkArtistStats 0 0.5%Q
            end in
          let current_score := preference_score entry in
          set_artists h1
            (<[artist_name :=
                 {| a_play_count := a_play_count entry + 1;
                    preference_score := py_min 1 (current_score + 0.01)%Q |}]>
               (artists h1))
        else h1
  end.

(** [time_played / track_duration if track_duration > 0 else 0] *)
Definition skip_ratio (track : Track) (time_played : Z) : Q :=
  let track_duration := match duration track with Some d => d | None => 180%Z end in
  if Z.ltb 0 track_duration
  then (inject_Z time_played / inject_Z track_duration)%Q
  else 0%Q.

Definition Qltb (a b : Q) : bool := if Qlt_le_dec a b then true else false.

(** [record_skip] *)
Definition record_skip (h : ListeningHistory) (track : Track) (time_played : Z)
    : ListeningHistory :=
  match id track with
  | None => h
  | Some track_id =>
      if negb (truthy track_id) then h
      else
        match tracks h !! track_id with
        | None => h
        | Some d =>
            let d' :=
              {| play_count := play_count d;
                 skip_count := skip_count d + 1;
                 last_played := last_played d;
                 total_duration_played := total_duration_played d;
                 ts_title := ts_title d;
                 ts_artist := ts_artist d |} in
            let h1 := set_tracks h (<[track_id := d']> (tracks h)) in
            match known_artist track with
            | None => h1
            | Some artist_name =>
                match artists h1 !! artist_name with
                | Some e =>
                    if Qltb (skip_ratio track time_played) (skip_threshold h1) then
                      let current_score := preference_score e in
                      set_artists h1
                        (<[artist_name :=
                             {| a_play_count := a_play_count e;
                                preference_score := py_max 0 (current_score - 0.02)%Q |}]>
                           (artists h1))
                    else h1
                | None => h1
                end
            end
        end
  end.

(** [get_artist_preference] *)
Definition get_artist_preference (h : ListeningHistory) (artist_name : string) : Q :=
  if negb (truthy artist_name) then 0.5%Q
  else match artists h !! artist_name with
       | Some e => preference_score e
       | None => 0.5%Q
       end.

Definition Qleb (a b : Q) : bool := if Qlt_le_dec b a then false else true.

(** [get_track_score]; [now] is the clock reading [time.time()]. *)
Definition get_track_score (h : ListeningHistory) (now : Q) (track : Track) : Q :=
  let base_score := match quality_score track with Some q => q | None => 0.5%Q end in
  let base_score :=
    match known_artist track with
    | Some a => ((base_score + get_artist_preference h a) / 2)%Q
    | None => base_score
    end in
  let d := inject_Z (match duration track with Some d => d | None => 0%Z end) in
  let min_dur := inject_Z (fst (preferred_duration_range h)) in
  let max_dur := inject_Z (snd (preferred_duration_range h)) in
  let base_score :=
    if Qleb min_dur d && Qleb d max_dur then (base_score + 0.1)%Q
    else if Qltb d (min_dur * 0.5)%Q || Qltb (max_dur * 2)%Q d then (base_score - 0.2)%Q
    else base_score in
  let base_score :=
    match id track with
    | Some track_id =>
        if truthy track_id then
          match tracks h !! track_id with
          | Some st =>
              let hours_since := ((now - inject_Z (last_played st)) / 3600)%Q in
              if Qltb hours_since 2 then (base_score - 0.3)%Q
              else if Qltb hours_since 24 then (base_score - 0.1)%Q
              else base_score
          | None => base_score
          end
        else base_score
    | None => base_score
    end in
  clamp01 base_score.

(** *** Preference after a play and after an early skip *)



(** A skip of a track that the history has not recorded changes nothing. *)
Lemma record_skip_unrecorded (h : ListeningHistory) (t : Track) (track_id : string)
    (time_played : Z) :
  id t = Some track_id -> tracks h !! track_id = None ->
  record_skip h t time_played = h.
Proof.
  intros Hid Hst. unfold record_skip. rewrite Hid, Hst.
  destruct (negb (truthy track_id)); reflexivity.
Qed.

Definition demo_track : Track :=
  {| id := Some "v1"; title := "Song"; duration := Some 200%Z;
     quality_score := Some 0.6%Q;
     metadata := Some (mkMetadata "Song" "Band" "song" "band") |}.

(** A history in which [demo_track] was played once and its artist has
    preference [s]. *)
Definition demo_history (s : Q) : ListeningHistory :=
  {| tracks := {[ "v1" := mkTrackStats 1 0 1000 200 "Song" "Band" ]};
     artists := {[ "Band" := mkArtistStats 1 s ]};
     skip_threshold := 0.3%Q;
     preferred_duration_range := (120, 360)%Z |}.




End History.

(** ** The random source *)

(** Every call into [random] consumes the next number of a tape; an
    exhausted tape yields 0. Quantifying over tapes covers every outcome
    the generator can produce. *)
Definition Tape := list nat.

Definition Rand (A : Type) : Type := Tape -> A * Tape.

Definition ret {A : Type} (a : A) : Rand A := fun tape => (a, tape).

Definition bind {A B : Type} (m : Rand A) (k : A -> Rand B) : Rand B :=
  fun tape => let (a, tape') := m tape in k a tape'.

Notation "'let*' x ':=' m 'in' k" := (bind m (fun x => k))
  (at level 10, x pattern, m at level 100, k at level 200).

Definition next_nat : Rand nat :=
  fun tape => match tape with [] => (0, []) | r :: tape' => (r, tape') end.

(** An integer in [range(n)]. *)
Definition randbelow (n : nat) : Rand nat :=
  let* r := next_nat in ret (r mod n).

(** [random.random()], in steps of one thousandth. *)
Definition random_random : Rand Q :=
  let* r := next_nat in ret (Z.of_nat (r mod 1000) # 1000)%Q.

(** [random.choice(l)] on a non-empty list. *)
Definition random_choice {A : Type} (l : list A) : Rand (option A) :=
  let* i := randbelow (length l) in ret (l !! i).

(** [random.choices(population, weights)[0]]: one member of the
    population; the tape decides which. *)
Definition random_choices {A : Type} (population : list A) (weights : list Q)
    : Rand (option A) :=
  random_choice population.

(** [random.shuffle(l)]: the elements are drawn one at a time. *)
Fixpoint shuffle_draw {A : Type} (n : nat) (l : list A) : Rand (list A) :=
  match n with
  | O => ret l
  | S n' =>
      let* j := randbelow (length l) in
      match l !! j with
      | Some x => let* rest := shuffle_draw n' (delete j l) in ret (x :: rest)
      | None => ret l
      end
  end.

Definition random_shuffle {A : Type} (l : list A) : Rand (list A) :=
  shuffle_draw (length l) l.

(** What a call hands back to its caller: a value, or an exception. *)
Inductive Outcome (A : Type) : Type :=
| Returned (value : A)
| Raised (exception : string).
Arguments Returned {A} value.
Arguments Raised {A} exception.

(** ** smart_queue.py: SmartQueue *)

Module Queue.

Import History.

Record SmartQueue := mkQueue {
  history : ListeningHistory;
  current_index : nat;
  played_tracks : gset string;
  shuffle_mode : string;
  priority_queue : list Track;
  main_queue : list Track;
  (** [None] until [_get_next_smart] first assigns the attribute. *)
  last_played_track : option Track
}.

(** [SmartQueue.__init__] *)
Definition new_queue (h : ListeningHistory) : SmartQueue :=
  {| history := h; current_index := 0; played_tracks := ∅; shuffle_mode := "smart";
     priority_queue := []; main_queue := []; last_played_track := None |}.

Definition set_current_index (q : SmartQueue) (i : nat) : SmartQueue :=
  mkQueue (history q) i (played_tracks q) (shuffle_mode q) (priority_queue q)
          (main_queue q) (last_played_track q).

Definition set_played_tracks (q : SmartQueue) (s : gset string) : SmartQueue :=
  mkQueue (history q) (current_index q) s (shuffle_mode q) (priority_queue q)
          (main_queue q) (last_played_track q).

Definition set_mode (q : SmartQueue) (m : string) : SmartQueue :=
  mkQueue (history q) (current_index q) (played_tracks q) m (priority_queue q)
          (main_queue q) (last_played_track q).

Definition set_priority_queue (q : SmartQueue) (l : list Track) : SmartQueue :=
  mkQueue (history q) (current_index q) (played_tracks q) (shuffle_mode q) l
          (main_queue q) (last_played_track q).

Definition set_main_queue (q : SmartQueue) (l : list Track) : SmartQueue :=
  mkQueue (history q) (current_index q) (played_tracks q) (shuffle_mode q)
          (priority_queue q) l (last_played_track q).

Definition set_last_played_track (q : SmartQueue) (t : option Track) : SmartQueue :=
  mkQueue (history q) (current_index q) (played_tracks q) (shuffle_mode q)
          (priority_queue q) (main_queue q) t.

(** [_mark_as_played] *)
Definition _mark_as_played (q : SmartQueue) (track : Track) : SmartQueue :=
  match id track with
  | Some i => if truthy i then set_played_tracks q ({[ i ]} ∪ played_tracks q) else q
  | None => q
  end.

(** [t.get("id") not in self.played_tracks]; a missing identifier is never
    in the set. *)
Definition not_played (played : gset string) (t : Track) : bool :=
  match id t with
  | Some i => bool_decide (i ∉ played)
  | None => true
  end.

(** [[t for t in self.main_queue if t.get("id") not in self.played_tracks]] *)
Definition available (q : SmartQueue) : list Track :=
  List.filter (not_played (played_tracks q)) (main_queue q).

(** [_get_next_sequential] *)
Definition _get_next_sequential (q : SmartQueue) : option Track * SmartQueue :=
  match main_queue q !! current_index q with
  | Some track =>
      (Some track, _mark_as_played (set_current_index q (current_index q + 1)) track)
  | None => (None, q)
  end.

(** [_get_next_random] *)
Definition _get_next_random (q : SmartQueue) : Rand (option Track * SmartQueue) :=
  match available q with
  | [] => ret (None, q)
  | _ :: _ =>
      let* choice := random_choice (available q) in
      match choice with
      | Some track => ret (Some track, _mark_as_played q track)
      | None => ret (None, q)
      end
  end.

(** The same-artist test of [_get_next_smart]. *)
Definition same_artist_as_last (q : SmartQueue) (track : Track) : bool :=
  match last_played_track q with
  | Some last =>
      match known_artist last, known_artist track with
      | Some a, Some b => String.eqb a b
      | _, _ => false
      end
  | None => false
  end.

(** One entry of [scored_tracks]. *)
Definition score_for (q : SmartQueue) (now : Q) (track : Track) : Track * Q :=
  let score := get_track_score (history q) now track in
  (track, if same_artist_as_last q track then (score - 0.2)%Q else score).

(** [l.sort(key=..., reverse=True)]: descending and stable. *)
Fixpoint insert_desc {A : Type} (key : A -> Q) (x : A) (l : list A) : list A :=
  match l with
  | [] => [x]
  | y :: l' => if Qltb (key x) (key y) then y :: insert_desc key x l' else x :: l
  end.

Definition sort_desc {A : Type} (key : A -> Q) (l : list A) : list A :=
  foldr (insert_desc key) [] l.

(** [sum(weights)] *)
Definition Qsum (l : list Q) : Q := fold_left Qplus l 0%Q.

(** [_get_next_smart]; [now] is the clock reading used by the scoring, one
    reading for the whole ranking. *)
Definition _get_next_smart (q : SmartQueue) (now : Q) : Rand (option Track * SmartQueue) :=
  match available q with
  | [] => ret (None, q)
  | _ :: _ =>
      let scored_tracks := sort_desc snd (map (score_for q now) (available q)) in
      let top_count := Nat.max 1 (length scored_tracks / 3) in
      let top_tracks := take top_count scored_tracks in
      let weights := map snd top_tracks in
      let* pick :=
        if Qltb 0 (Qsum weights)
        then random_choices (map fst top_tracks) weights
        else ret (head (map fst top_tracks)) in
      match pick with
      | Some track =>
          ret (Some track, set_last_played_track (_mark_as_played q track) (Some track))
      | None => ret (None, q)
      end
  end.

(** [_get_next_mood_based] *)
Definition _get_next_mood_based (q : SmartQueue) (now : Q) : Rand (option Track * SmartQueue) :=
  match available q with
  | [] => ret (None, q)
  | _ :: _ => _get_next_smart q now
  end.

(** [get_next_track] *)
Definition get_next_track (q : SmartQueue) (now : Q) : Rand (option Track * SmartQueue) :=
  match priority_queue q with
  | track :: rest => ret (Some track, _mark_as_played (set_priority_queue q rest) track)
  | [] =>
      if String.eqb (shuffle_mode q) "sequential" then ret (_get_next_sequential q)
      else if String.eqb (shuffle_mode q) "random" then _get_next_random q
      else if String.eqb (shuffle_mode q) "smart" then _get_next_smart q now
      else if String.eqb (shuffle_mode q) "mood" then _get_next_mood_based q now
      else ret (None, q)
  end.

(** [track.get("id") == track_id] *)
Definition id_is (track_id : string) (t : Track) : bool :=
  match id t with Some i => String.eqb i track_id | None => false end.

(** The first index whose track has the identifier, as the [enumerate]
    loops find it. *)
Fixpoint find_index (track_id : string) (l : list Track) : option nat :=
  match l with
  | [] => None
  | t :: l' => if id_is track_id t then Some 0 else S <$> find_index track_id l'
  end.

(** [remove_track] *)
Definition remove_track (q : SmartQueue) (track_id : string) : bool * SmartQueue :=
  match find_index track_id (priority_queue q) with
  | Some i => (true, set_priority_queue q (delete i (priority_queue q)))
  | None =>
      match find_index track_id (main_queue q) with
      | Some i =>
          let q1 := set_main_queue q (delete i (main_queue q)) in
          (true,
           if Nat.ltb i (current_index q1)
           then set_current_index q1 (current_index q1 - 1)
           else q1)
      | None => (false, q)
      end
  end.

(** [l.insert(i, x)] for [0 <= i <= len(l)] *)
Definition insert_at {A : Type} (i : nat) (x : A) (l : list A) : list A :=
  take i l ++ x :: drop i l.

(** [move_track] *)
Definition move_track (q : SmartQueue) (track_id : string) (new_position : Z)
    : bool * SmartQueue :=
  match find_index track_id (main_queue q) with
  | None => (false, q)
  | Some old_index =>
      match main_queue q !! old_index with
      | None => (false, q)
      | Some track =>
          let q1 := set_main_queue q (delete old_index (main_queue q)) in
          let q2 :=
            if Nat.ltb old_index (current_index q1)
            then set_current_index q1 (current_index q1 - 1)
            else q1 in
          let new_position :=
            Z.to_nat (Z.max 0 (Z.min new_position (Z.of_nat (length (main_queue q2))))) in
          let q3 := set_main_queue q2 (insert_at new_position track (main_queue q2)) in
          (true,
           if Nat.leb new_position (current_index q3)
           then set_current_index q3 (current_index q3 + 1)
           else q3)
      end
  end.

(** [clear_played_history] *)
Definition clear_played_history (q : SmartQueue) : SmartQueue :=
  set_current_index (set_played_tracks q ∅) 0.

(** *** The reshuffle pass *)

(** [artist_groups] and [artist_queues]: a dictionary whose order of
    insertion matters, so a list of entries. *)
Definition Groups := list (string * list Track).

(** [artist_groups[a].append(t)] on a [defaultdict(list)] *)
Fixpoint group_append (a : string) (t : Track) (g : Groups) : Groups :=
  match g with
  | [] => [(a, [t])]
  | (b, ts) :: g' =>
      if String.eqb a b then (b, ts ++ [t]) :: g' else (b, ts) :: group_append a t g'
  end.

(** The grouping loop over [main_queue]. *)
Fixpoint group_by_artist (l : list Track) (g : Groups) (no_artist : list Track)
    : Groups * list Track :=
  match l with
  | [] => (g, no_artist)
  | t :: l' =>
      match known_artist t with
      | Some a => group_by_artist l' (group_append a t g) no_artist
      | None => group_by_artist l' g (no_artist ++ [t])
      end
  end.

(** Shuffle each artist's tracks. *)
Fixpoint shuffle_groups (g : Groups) : Rand Groups :=
  match g with
  | [] => ret []
  | (a, ts) :: g' =>
      let* ts' := random_shuffle ts in
      let* rest := shuffle_groups g' in
      ret ((a, ts') :: rest)
  end.

(** [[a for a, q in artist_queues.items() if q]] *)
Definition artists_with_tracks (g : Groups) : list string :=
  map fst (List.filter (fun e => match snd e with [] => false | _ => true end) g).

(** [artist_queues[a].popleft()], followed by the deletion of the entry
    when its queue has become empty. *)
Fixpoint pop_from (a : string) (g : Groups) : option (Track * Groups) :=
  match g with
  | [] => None
  | (b, ts) :: g' =>
      if String.eqb a b then
        match ts with
        | [] => None
        | t :: [] => Some (t, g')
        | t :: ts' => Some (t, (b, ts') :: g')
        end
      else
        match pop_from a g' with
        | Some (t, g'') => Some (t, (b, ts) :: g'')
        | None => None
        end
  end.

(** [no_artist.pop()]: the last element. *)
Definition pop_last {A : Type} (l : list A) : option (A * list A) :=
  match last l with
  | Some x => Some (x, take (length l - 1) l)
  | None => None
  end.

(** The first half of one pass of the interleaving loop. *)
Definition take_from_artist (artist_queues : Groups) (shuffled : list Track)
    : Rand (Groups * list Track) :=
  match artist_queues with
  | [] => ret (artist_queues, shuffled)
  | _ :: _ =>
      match artists_with_tracks artist_queues with
      | [] => ret (artist_queues, shuffled)
      | _ :: _ =>
          let* chosen := random_choice (artists_with_tracks artist_queues) in
          match chosen with
          | Some chosen_artist =>
              match pop_from chosen_artist artist_queues with
              | Some (track, rest) => ret (rest, shuffled ++ [track])
              | None => ret (artist_queues, shuffled)
              end
          | None => ret (artist_queues, shuffled)
          end
      end
  end.

(** The second half: [if no_artist and (not artist_queues or
    random.random() < 0.2)]; the generator is consulted only when both
    lists are non-empty. *)
Definition take_artistless (artist_queues : Groups) (no_artist shuffled : list Track)
    : Rand (list Track * list Track) :=
  match pop_last no_artist with
  | None => ret (no_artist, shuffled)
  | Some (track, rest) =>
      match artist_queues with
      | [] => ret (rest, shuffled ++ [track])
      | _ :: _ =>
          let* r := random_random in
          if Qltb r 0.2 then ret (rest, shuffled ++ [track])
          else ret (no_artist, shuffled)
      end
  end.

(** [while artist_queues or no_artist:], at most [fuel] passes; [None]
    when the loop has not finished by then. *)
Fixpoint interleave (fuel : nat) (artist_queues : Groups) (no_artist shuffled : list Track)
    : Rand (option (list Track)) :=
  match artist_queues, no_artist with
  | [], [] => ret (Some shuffled)
  | _, _ =>
      match fuel with
      | O => ret None
      | S fuel' =>
          let* (artist_queues', shuffled') := take_from_artist artist_queues shuffled in
          let* (no_artist', shuffled'') :=
            take_artistless artist_queues' no_artist shuffled' in
          interleave fuel' artist_queues' no_artist' shuffled''
      end
  end.

(** The body of [_smart_shuffle] after the length test: grouping, the
    shuffle of each group and the interleaving loop, which is given one
    pass per track. *)
Definition shuffle_loop (q : SmartQueue) : Rand (option (list Track)) :=
  let '(artist_groups, no_artist) := group_by_artist (main_queue q) [] [] in
  let* artist_queues := shuffle_groups artist_groups in
  interleave (length (main_queue q)) artist_queues no_artist [].

(** [_smart_shuffle]. The loop always finishes within its passes
    ([shuffle_loop_finishes] below); the [None] branch is there for
    totality only. *)
Definition _smart_shuffle (q : SmartQueue) : Rand SmartQueue :=
  if Nat.ltb (length (main_queue q)) 3 then ret q
  else
    let* result := shuffle_loop q in
    match result with
    | Some shuffled => ret (set_main_queue q shuffled)
    | None => ret q
    end.

(** [_reorganize_queue] *)
Definition _reorganize_queue (q : SmartQueue) : Rand SmartQueue :=
  if String.eqb (shuffle_mode q) "smart" then _smart_shuffle q else ret q.

(** [add_tracks] *)
Definition add_tracks (q : SmartQueue) (new_tracks : list Track) (priority : bool)
    : Rand SmartQueue :=
  _reorganize_queue
    (if priority
     then set_priority_queue q (priority_queue q ++ new_tracks)
     else set_main_queue q (main_queue q ++ new_tracks)).

(** [mode in ["smart", "random", "sequential", "mood"]] *)
Definition valid_mode (mode : string) : bool :=
  String.eqb mode "smart" || String.eqb mode "random"
  || String.eqb mode "sequential" || String.eqb mode "mood".

(** [set_shuffle_mode]: the method has no [return] and no [raise]. *)
Definition set_shuffle_mode (q : SmartQueue) (mode : string) : Rand (Outcome unit * SmartQueue) :=
  if valid_mode mode then
    let q1 := set_mode q mode in
    if String.eqb mode "smart" || String.eqb mode "random" then
      let* q2 := _reorganize_queue q1 in ret (Returned tt, q2)
    else ret (Returned tt, q1)
  else ret (Returned tt, q).

(** [get_queue_info()['total_tracks']] *)
Definition total_tracks (q : SmartQueue) : nat :=
  length (main_queue q) + length (priority_queue q).

(** *** Removal and repositioning *)

Lemma find_index_Some (track_id : string) (l : list Track) (i : nat) :
  find_index track_id l = Some i ->
  exists t, l !! i = Some t /\ id_is track_id t = true.
Proof.
  revert i. induction l as [| t l IH]; intros i H; simpl in H.
  - discriminate.
  - destruct (id_is track_id t) eqn:E.
    + injection H as <-. exists t. split; [reflexivity | exact E].
    + destruct (find_index track_id l) as [j |]; simpl in H; [| discriminate].
      injection H as <-. apply (IH j). reflexivity.
Qed.

Lemma insert_at_lookup_lt {A : Type} (i j : nat) (x : A) (l : list A) :
  j < i -> i <= length l -> insert_at i x l !! j = l !! j.
Proof.
  intros Hj Hi. unfold insert_at.
  rewrite lookup_app_l by (rewrite length_take; lia).
  apply lookup_take_lt. exact Hj.
Qed.

Lemma insert_at_lookup_ge {A : Type} (i j : nat) (x : A) (l : list A) :
  i <= j -> i <= length l -> insert_at i x l !! S j = l !! j.
Proof.
  intros Hj Hi. unfold insert_at.
  rewrite lookup_app_r by (rewrite length_take; lia).
  rewrite length_take, Nat.min_l by exact Hi.
  replace (S j - i) with (S (j - i)) by lia. simpl.
  rewrite lookup_drop. f_equal. lia.
Qed.

Lemma insert_at_lookup_eq {A : Type} (i : nat) (x : A) (l : list A) :
  i <= length l -> insert_at i x l !! i = Some x.
Proof.
  intros Hi. unfold insert_at.
  rewrite lookup_app_r by (rewrite length_take; lia).
  rewrite length_take, Nat.min_l by exact Hi.
  rewrite Nat.sub_diag. reflexivity.
Qed.

(** Deleting index [i] and stepping the cursor back when [i] is before it. *)
Lemma cursor_after_delete {A : Type} (l : list A) (i c : nat) :
  delete i l !! (if Nat.ltb i c then c - 1 else c)
  = if Nat.eqb i c then l !! S c else l !! c.
Proof.
  destruct (Nat.ltb_spec i c) as [Hlt | Hge].
  - replace (Nat.eqb i c) with false by (symmetry; apply Nat.eqb_neq; lia).
    rewrite list_lookup_delete_ge by lia. f_equal. lia.
  - destruct (Nat.eqb_spec i c) as [-> | Hne].
    + apply list_lookup_delete_ge. lia.
    + apply list_lookup_delete_lt. lia.
Qed.

(** Inserting at [p] and stepping the cursor forward when [p] is at or
    before it. *)
Lemma cursor_after_insert {A : Type} (l : list A) (x : A) (p c : nat) :
  p <= length l ->
  insert_at p x l !! (if Nat.leb p c then c + 1 else c) = l !! c.
Proof.
  intros Hp. destruct (Nat.leb_spec p c) as [Hle | Hgt].
  - replace (c + 1) with (S c) by lia. apply insert_at_lookup_ge; assumption.
  - apply insert_at_lookup_lt; assumption.
Qed.

Lemma remove_track_main (q : SmartQueue) (track_id : string) (i : nat) :
  find_index track_id (priority_queue q) = None ->
  find_index track_id (main_queue q) = Some i ->
  remove_track q track_id
  = (true,
     let q1 := set_main_queue q (delete i (main_queue q)) in
     if Nat.ltb i (current_index q)
     then set_current_index q1 (current_index q - 1) else q1).
Proof. intros Hp Hm. unfold remove_track. rewrite Hp, Hm. reflexivity. Qed.

Lemma move_track_cursor (q : SmartQueue) (track_id : string) (i : nat) (new_position : Z) :
  find_index track_id (main_queue q) = Some i ->
  let q' := snd (move_track q track_id new_position) in
  main_queue q' !! current_index q'
  = if Nat.eqb i (current_index q)
    then main_queue q !! S (current_index q)
    else main_queue q !! current_index q.
Proof.
  intros Hi. destruct (find_index_Some _ _ _ Hi) as [t [Ht _]].
  unfold move_track. rewrite Hi, Ht.
  rewrite <- cursor_after_delete.
  unfold set_main_queue, set_current_index. simpl.
  destruct (Nat.ltb i (current_index q)); simpl;
    match goal with
    | |- context [Nat.leb ?p ?c] =>
        assert (Hp : p <= length (delete i (main_queue q))) by lia;
        pose proof (cursor_after_insert (delete i (main_queue q)) t p c Hp) as H;
        destruct (Nat.leb p c); simpl; exact H
    end.
Qed.

(** *** The reshuffle pass keeps every track *)

(** All tracks held by the artist queues. *)
Definition flatten (g : Groups) : list Track := concat (map snd g).

Definition all_nonempty (g : Groups) : Prop := Forall (fun e => snd e <> []) g.

Lemma shuffle_draw_perm {A : Type} (n : nat) (l l' : list A) (tape tape' : Tape) :
  shuffle_draw n l tape = (l', tape') -> l' ≡ₚ l.
Proof.
  revert l l' tape tape'.
  induction n as [| n IH]; intros l l' tape tape' H; simpl in H.
  - injection H as <- _. reflexivity.
  - unfold bind in H. destruct (randbelow (length l) tape) as [j t1].
    destruct (l !! j) as [x |] eqn:E.
    + destruct (shuffle_draw n (delete j l) t1) as [rest t2] eqn:E2.
      injection H as <- _. apply IH in E2. rewrite E2.
      symmetry. apply delete_Permutation. exact E.
    + injection H as <- _. reflexivity.
Qed.

Lemma random_shuffle_perm {A : Type} (l l' : list A) (tape tape' : Tape) :
  random_shuffle l tape = (l', tape') -> l' ≡ₚ l.
Proof. apply shuffle_draw_perm. Qed.

Lemma group_append_flatten (a : string) (t : Track) (g : Groups) :
  flatten (group_append a t g) ≡ₚ t :: flatten g.
Proof.
  induction g as [| [b ts] g IH]; simpl.
  - reflexivity.
  - destruct (String.eqb a b); unfold flatten in *; simpl.
    + rewrite <- app_assoc. simpl. symmetry. apply Permutation_middle.
    + rewrite IH. symmetry. apply Permutation_middle.
Qed.

Lemma group_append_nonempty (a : string) (t : Track) (g : Groups) :
  all_nonempty g -> all_nonempty (group_append a t g).
Proof.
  unfold all_nonempty. induction g as [| [b ts] g IH]; intros H; simpl.
  - constructor; [discriminate | constructor].
  - inversion H as [| ? ? Hb Hg]; subst.
    destruct (String.eqb a b).
    + constructor; [| exact Hg]. simpl. destruct ts; discriminate.
    + constructor; [exact Hb | apply IH; exact Hg].
Qed.

Lemma group_by_artist_spec (l : list Track) (g g' : Groups) (na na' : list Track) :
  group_by_artist l g na = (g', na') -> all_nonempty g ->
  all_nonempty g' /\ flatten g' ++ na' ≡ₚ l ++ flatten g ++ na.
Proof.
  revert g na. induction l as [| t l IH]; intros g na H Hg; simpl in H.
  - injection H as <- <-. split; [exact Hg | reflexivity].
  - destruct (known_artist t) as [a |].
    + apply IH in H; [| apply group_append_nonempty; exact Hg].
      destruct H as [H1 H2]. split; [exact H1 |].
      rewrite H2, group_append_flatten. simpl. solve_Permutation.
    + apply IH in H; [| exact Hg].
      destruct H as [H1 H2]. split; [exact H1 |].
      rewrite H2. simpl. solve_Permutation.
Qed.

Lemma shuffle_groups_spec (g g' : Groups) (tape tape' : Tape) :
  shuffle_groups g tape = (g', tape') -> all_nonempty g ->
  all_nonempty g' /\ flatten g' ≡ₚ flatten g.
Proof.
  revert g' tape tape'. induction g as [| [a ts] g IH]; intros g' tape tape' H Hg; simpl in H.
  - injection H as <- _. split; [constructor | reflexivity].
  - unfold bind in H.
    destruct (random_shuffle ts tape) as [ts' t1] eqn:E1.
    destruct (shuffle_groups g t1) as [rest t2] eqn:E2.
    injection H as <- _.
    inversion Hg as [| ? ? Ha Hrest]; subst.
    apply random_shuffle_perm in E1.
    destruct (IH _ _ _ E2 Hrest) as [H1 H2].
    split.
    + constructor; [| exact H1]. simpl in *. intros ->.
      apply Permutation_nil_l in E1. congruence.
    + unfold flatten in *. simpl. rewrite E1, H2. reflexivity.
Qed.

Lemma pop_from_spec (a : string) (g g' : Groups) (t : Track) :
  pop_from a g = Some (t, g') -> all_nonempty g ->
  all_nonempty g' /\ flatten g ≡ₚ t :: flatten g'.
Proof.
  revert g'. induction g as [| [b ts] g IH]; intros g' H Hg; simpl in H.
  - discriminate.
  - inversion Hg as [| ? ? Hb Hrest]; subst.
    destruct (String.eqb a b).
    + destruct ts as [| t0 [| t1 ts]]; [discriminate | |].
      * injection H as <- <-. split; [exact Hrest | reflexivity].
      * injection H as <- <-. split; [| reflexivity].
        constructor; [discriminate | exact Hrest].
    + destruct (pop_from a g) as [[t0 g0] |] eqn:E; [| discriminate].
      injection H as <- <-.
      destruct (IH _ eq_refl Hrest) as [H1 H2].
      split; [constructor; assumption |].
      unfold flatten in *. simpl. rewrite H2. symmetry. apply Permutation_middle.
Qed.

Lemma pop_from_Some (a : string) (g : Groups) :
  all_nonempty g -> a ∈ map fst g -> exists t g', pop_from a g = Some (t, g').
Proof.
  induction g as [| [b ts] g IH]; intros Hg Ha; simpl in *.
  - inversion Ha.
  - inversion Hg as [| ? ? Hb Hrest]; subst. simpl in Hb.
    destruct (String.eqb_spec a b) as [-> | Hne].
    + destruct ts as [| t0 [| t1 ts]]; [congruence | eauto | eauto].
    + apply elem_of_cons in Ha. destruct Ha as [-> | Ha]; [congruence |].
      destruct (IH Hrest Ha) as [t [g' E]]. rewrite E. eauto.
Qed.

Lemma artists_with_tracks_keys (g : Groups) (a : string) :
  a ∈ artists_with_tracks g -> a ∈ map fst g.
Proof.
  unfold artists_with_tracks. rewrite !list_elem_of_In, !in_map_iff.
  intros [e [He Hin]]. exists e. split; [exact He |].
  apply filter_In in Hin. tauto.
Qed.

Lemma randbelow_lt (n : nat) (tape : Tape) : 0 < n -> fst (randbelow n tape) < n.
Proof.
  intros Hn. unfold randbelow, bind, next_nat, ret.
  destruct tape; simpl; apply Nat.mod_upper_bound; lia.
Qed.

Lemma random_choice_elem {A : Type} (l : list A) (x : A) (tape : Tape) :
  fst (random_choice l tape) = Some x -> x ∈ l.
Proof.
  unfold random_choice, bind. destruct (randbelow (length l) tape) as [i t1]. simpl.
  apply list_elem_of_lookup_2.
Qed.

Lemma random_choice_Some {A : Type} (l : list A) (tape : Tape) :
  l <> [] -> exists x, fst (random_choice l tape) = Some x.
Proof.
  intros Hl. unfold random_choice, bind.
  pose proof (randbelow_lt (length l) tape) as Hlt.
  destruct (randbelow (length l) tape) as [i t1]. simpl in *.
  apply lookup_lt_is_Some_2. apply Hlt. destruct l; simpl; [congruence | lia].
Qed.

Lemma pop_last_spec {A : Type} (l l' : list A) (x : A) :
  pop_last l = Some (x, l') -> l = l' ++ [x].
Proof.
  unfold pop_last. destruct (last l) as [y |] eqn:E; [| discriminate].
  intros H. injection H as <- <-.
  apply last_Some in E. destruct E as [l0 ->].
  rewrite length_app. simpl. replace (length l0 + 1 - 1) with (length l0) by lia.
  rewrite take_app_length. reflexivity.
Qed.

Lemma pop_last_Some {A : Type} (l : list A) :
  l <> [] -> exists x l', pop_last l = Some (x, l').
Proof.
  intros Hl. unfold pop_last. destruct (last l) as [y |] eqn:E; [eauto |].
  apply last_None in E. congruence.
Qed.

Lemma nonempty_has_artist (g : Groups) :
  all_nonempty g -> g <> [] -> artists_with_tracks g <> [].
Proof.
  intros Hg Hne. destruct g as [| [a ts] g]; [congruence |].
  inversion Hg as [| ? ? Ha _]; subst. simpl in Ha.
  unfold artists_with_tracks. simpl. destruct ts; [congruence | discriminate].
Qed.

(** The first half of a pass moves exactly one track when an artist queue
    remains, and nothing otherwise. *)
Lemma take_from_artist_spec (g g' : Groups) (sh sh' : list Track) (tape tape' : Tape) :
  take_from_artist g sh tape = (g', sh', tape') -> all_nonempty g ->
  all_nonempty g'
  /\ sh' ++ flatten g' ≡ₚ sh ++ flatten g
  /\ (g = [] -> g' = [])
  /\ (g <> [] -> S (length (flatten g')) = length (flatten g)).
Proof.
  intros H Hg. unfold take_from_artist in H.
  destruct g as [| e g0] eqn:Eg.
  - injection H as <- <- _.
    split; [exact Hg |]. split; [reflexivity |]. split; [reflexivity | congruence].
  - rewrite <- Eg in *.
    assert (Hne : g <> []) by (rewrite Eg; discriminate).
    pose proof (nonempty_has_artist g Hg Hne) as Hw.
    destruct (artists_with_tracks g) as [| a0 w0] eqn:Ew; [congruence |].
    rewrite <- Ew in *. unfold bind in H.
    destruct (random_choice_Some (artists_with_tracks g) tape Hw) as [a Ha].
    pose proof (random_choice_elem _ _ _ Ha) as Hin.
    destruct (random_choice (artists_with_tracks g) tape) as [c t1]. simpl in Ha. subst c.
    destruct (pop_from_Some a g Hg (artists_with_tracks_keys _ _ Hin)) as [t [g1 Ep]].
    rewrite Ep in H. injection H as <- <- _.
    destruct (pop_from_spec _ _ _ _ Ep Hg) as [H1 H2].
    split; [exact H1 |]. split; [rewrite H2; solve_Permutation |].
    split; [congruence |]. intros _. rewrite H2. reflexivity.
Qed.

(** The second half moves at most one artist-less track, and exactly one
    when no artist queue remains. *)
Lemma take_artistless_spec (g : Groups) (na na' sh sh' : list Track) (tape tape' : Tape) :
  take_artistless g na sh tape = (na', sh', tape') ->
  sh' ++ na' ≡ₚ sh ++ na
  /\ length na' <= length na
  /\ (g = [] -> na <> [] -> S (length na') = length na).
Proof.
  intros H. unfold take_artistless in H.
  destruct (pop_last na) as [[x rest] |] eqn:Ep.
  - apply pop_last_spec in Ep. subst na.
    destruct g as [| e g0].
    + injection H as <- <- _. rewrite length_app. simpl.
      split; [solve_Permutation |]. split; [lia |]. intros _ _. lia.
    + unfold bind in H. destruct (random_random tape) as [r t1].
      destruct (Qltb r 0.2).
      * injection H as <- <- _. rewrite length_app. simpl.
        split; [solve_Permutation |]. split; [lia | congruence].
      * injection H as <- <- _.
        split; [reflexivity |]. split; [lia | congruence].
  - injection H as <- <- _. split; [reflexivity |]. split; [lia |].
    intros _ Hne. destruct (pop_last_Some na Hne) as [x [l' E]]. congruence.
Qed.

(** The interleaving loop finishes when it has at least one pass per
    remaining track, and hands back every track exactly once. *)
Lemma interleave_finishes (fuel : nat) (g : Groups) (na sh : list Track) (tape : Tape) :
  all_nonempty g -> length (flatten g) + length na <= fuel ->
  exists l tape', interleave fuel g na sh tape = (Some l, tape')
                  /\ l ≡ₚ sh ++ flatten g ++ na.
Proof.
  revert g na sh tape.
  induction fuel as [| fuel IH]; intros g na sh tape Hg Hfuel.
  - assert (g = []).
    { destruct g as [| [a ts] g]; [reflexivity |].
      inversion Hg as [| ? ? Ha _]; subst. simpl in Ha.
      destruct ts; [congruence |]. unfold flatten in Hfuel. simpl in Hfuel. lia. }
    assert (na = []) by (destruct na; [reflexivity | simpl in Hfuel; lia]).
    subst. exists sh, tape. split; [reflexivity |].
    unfold flatten. simpl. rewrite app_nil_r. reflexivity.
  - assert (Hstep :
      interleave (S fuel) g na sh tape
      = match g, na with
        | [], [] => (Some sh, tape)
        | _, _ =>
            (let* (g', sh') := take_from_artist g sh in
             let* (na', sh'') := take_artistless g' na sh' in
             interleave fuel g' na' sh'') tape
        end).
    { destruct g, na; reflexivity. }
    rewrite Hstep. clear Hstep.
    destruct (decide (g = [] /\ na = [])) as [[-> ->] | Hnot].
    { exists sh, tape. split; [reflexivity |].
      unfold flatten. simpl. rewrite app_nil_r. reflexivity. }
    assert (Hgo :
      (match g, na with
       | [], [] => (Some sh, tape)
       | _, _ =>
           (let* (g', sh') := take_from_artist g sh in
            let* (na', sh'') := take_artistless g' na sh' in
            interleave fuel g' na' sh'') tape
       end)
      = (let* (g', sh') := take_from_artist g sh in
         let* (na', sh'') := take_artistless g' na sh' in
         interleave fuel g' na' sh'') tape).
    { destruct g, na; try reflexivity. tauto. }
    rewrite Hgo. clear Hgo. unfold bind.
    destruct (take_from_artist g sh tape) as [[g1 sh1] t1] eqn:E1.
    destruct (take_artistless g1 na sh1 t1) as [[na2 sh2] t2] eqn:E2.
    destruct (take_from_artist_spec _ _ _ _ _ _ E1 Hg) as [Hg1 [P1 [Z1 D1]]].
    destruct (take_artistless_spec _ _ _ _ _ _ _ E2) as [P2 [L2 D2]].
    assert (Hfuel' : length (flatten g1) + length na2 <= fuel).
    { destruct g as [| e g0].
      - specialize (Z1 eq_refl). subst g1.
        assert (na <> []) by (intros ->; tauto).
        specialize (D2 eq_refl H). unfold flatten in *. simpl in *. lia.
      - assert (Hne : e :: g0 <> []) by discriminate.
        specialize (D1 Hne). lia. }
    destruct (IH g1 na2 sh2 t2 Hg1 Hfuel') as [l [tape' [El Pl]]].
    exists l, tape'. split; [exact El |].
    rewrite Pl.
    transitivity ((sh2 ++ na2) ++ flatten g1); [solve_Permutation |].
    rewrite P2.
    transitivity ((sh1 ++ flatten g1) ++ na); [solve_Permutation |].
    rewrite P1. solve_Permutation.
Qed.

Lemma shuffle_loop_finishes (q : SmartQueue) (tape : Tape) :
  exists shuffled tape',
    shuffle_loop q tape = (Some shuffled, tape') /\ shuffled ≡ₚ main_queue q.
Proof.
  unfold shuffle_loop.
  destruct (group_by_artist (main_queue q) [] []) as [g na] eqn:Eg.
  destruct (group_by_artist_spec _ _ _ _ _ Eg) as [Hg Pg]; [constructor |].
  unfold bind. destruct (shuffle_groups g tape) as [g' t1] eqn:Es.
  destruct (shuffle_groups_spec _ _ _ _ Es Hg) as [Hg' Pg'].
  assert (Hlen : length (flatten g') + length na <= length (main_queue q)).
  { rewrite <- length_app, Pg', Pg. unfold flatten. simpl. rewrite app_nil_r. lia. }
  destruct (interleave_finishes _ g' na [] t1 Hg' Hlen) as [l [tape' [El Pl]]].
  exists l, tape'. split; [exact El |].
  rewrite Pl. simpl. rewrite Pg', Pg. unfold flatten. simpl. rewrite app_nil_r. reflexivity.
Qed.

Lemma smart_shuffle_spec (q : SmartQueue) (tape : Tape) :
  exists l tape',
    _smart_shuffle q tape = (set_main_queue q l, tape') /\ l ≡ₚ main_queue q.
Proof.
  unfold _smart_shuffle.
  destruct (Nat.ltb (length (main_queue q)) 3).
  - exists (main_queue q), tape. split; [destruct q; reflexivity | reflexivity].
  - destruct (shuffle_loop_finishes q tape) as [l [tape' [El Pl]]].
    exists l, tape'. unfold bind. rewrite El. split; [reflexivity | exact Pl].
Qed.

(** *** Pulling the next track *)

Lemma mark_as_played_fields (q : SmartQueue) (t : Track) :
  history (_mark_as_played q t) = history q
  /\ current_index (_mark_as_played q t) = current_index q
  /\ shuffle_mode (_mark_as_played q t) = shuffle_mode q
  /\ priority_queue (_mark_as_played q t) = priority_queue q
  /\ main_queue (_mark_as_played q t) = main_queue q
  /\ last_played_track (_mark_as_played q t) = last_played_track q.
Proof.
  unfold _mark_as_played. destruct (id t) as [i |]; [destruct (truthy i) |];
    repeat split; reflexivity.
Qed.

Lemma mark_as_played_set (q : SmartQueue) (t : Track) :
  played_tracks (_mark_as_played q t)
  = match id t with
    | Some i => if truthy i then {[ i ]} ∪ played_tracks q else played_tracks q
    | None => played_tracks q
    end.
Proof.
  unfold _mark_as_played. destruct (id t) as [i |]; [destruct (truthy i) |]; reflexivity.
Qed.

Lemma mark_as_played_grows (q : SmartQueue) (t : Track) :
  played_tracks q ⊆ played_tracks (_mark_as_played q t)
  /\ (forall i, id t = Some i -> i <> "" -> i ∈ played_tracks (_mark_as_played q t)).
Proof.
  rewrite mark_as_played_set. split.
  - destruct (id t) as [i |]; [destruct (truthy i) |]; set_solver.
  - intros i -> Hi. apply truthy_true in Hi. rewrite Hi. set_solver.
Qed.

Lemma insert_desc_perm {A : Type} (key : A -> Q) (x : A) (l : list A) :
  insert_desc key x l ≡ₚ x :: l.
Proof.
  induction l as [| y l IH]; simpl; [reflexivity |].
  destruct (Qltb (key x) (key y)); [| reflexivity].
  rewrite IH. apply perm_swap.
Qed.

Lemma sort_desc_perm {A : Type} (key : A -> Q) (l : list A) : sort_desc key l ≡ₚ l.
Proof.
  induction l as [| x l IH]; simpl; [reflexivity |].
  rewrite insert_desc_perm, IH. reflexivity.
Qed.

(** The tracks [_get_next_smart] draws from: the top third of the ranking. *)
Definition top_tracks (q : SmartQueue) (now : Q) : list (Track * Q) :=
  let scored_tracks := sort_desc snd (map (score_for q now) (available q)) in
  take (Nat.max 1 (length scored_tracks / 3)) scored_tracks.

Lemma top_tracks_available (q : SmartQueue) (now : Q) (t : Track) :
  t ∈ map fst (top_tracks q now) -> t ∈ available q.
Proof.
  unfold top_tracks. rewrite !list_elem_of_In, in_map_iff.
  intros [e [<- He]]. apply list_elem_of_In in He.
  apply subseteq_take in He. rewrite sort_desc_perm in He.
  apply list_elem_of_In, in_map_iff in He. destruct He as [t [<- Ht]]. exact Ht.
Qed.

Lemma top_tracks_nonempty (q : SmartQueue) (now : Q) :
  available q <> [] -> map fst (top_tracks q now) <> [].
Proof.
  intros Ha. unfold top_tracks.
  set (scored := sort_desc snd (map (score_for q now) (available q))).
  assert (Hlen : length scored = length (available q)).
  { unfold scored. rewrite sort_desc_perm, length_map. reflexivity. }
  destruct scored as [| e scored'].
  - destruct (available q); [congruence | discriminate].
  - destruct (Nat.max 1 (length (e :: scored') / 3)) eqn:E; [lia | discriminate].
Qed.


Lemma next_random_spec (q : SmartQueue) (tape : Tape) :
  match fst (_get_next_random q tape) with
  | (Some t, q') => t ∈ available q /\ q' = _mark_as_played q t
  | (None, q') => available q = [] /\ q' = q
  end.
Proof.
  unfold _get_next_random.
  destruct (available q) as [| a l] eqn:E; [split; reflexivity |].
  rewrite <- E. assert (Hne : available q <> []) by (rewrite E; discriminate).
  unfold bind.
  destruct (random_choice_Some (available q) tape Hne) as [t Ht].
  pose proof (random_choice_elem _ _ _ Ht) as Hin.
  destruct (random_choice (available q) tape) as [c t1]. simpl in Ht. subst c.
  simpl. split; [exact Hin | reflexivity].
Qed.

Lemma next_smart_spec (q : SmartQueue) (now : Q) (tape : Tape) :
  match fst (_get_next_smart q now tape) with
  | (Some t, q') =>
      t ∈ available q
      /\ q' = set_last_played_track (_mark_as_played q t) (Some t)
  | (None, q') => available q = [] /\ q' = q
  end.
Proof.
  unfold _get_next_smart.
  destruct (available q) as [| a l] eqn:E; [split; reflexivity |].
  rewrite <- E. assert (Hne : available q <> []) by (rewrite E; discriminate).
  fold (top_tracks q now).
  pose proof (top_tracks_nonempty q now Hne) as Htop.
  unfold bind.
  destruct (Qltb 0 (Qsum (map snd (top_tracks q now)))).
  - unfold random_choices.
    destruct (random_choice_Some (map fst (top_tracks q now)) tape Htop) as [t Ht].
    pose proof (random_choice_elem _ _ _ Ht) as Hin.
    destruct (random_choice (map fst (top_tracks q now)) tape) as [c t1].
    simpl in Ht. subst c. simpl.
    split; [apply (top_tracks_available q now); exact Hin | reflexivity].
  - unfold ret. destruct (map fst (top_tracks q now)) as [| t rest] eqn:Em; [congruence |].
    simpl. split; [| reflexivity].
    apply (top_tracks_available q now). rewrite Em. apply list_elem_of_here.
Qed.

Lemma next_mood_is_smart (q : SmartQueue) (now : Q) (tape : Tape) :
  _get_next_mood_based q now tape = _get_next_smart q now tape.
Proof.
  unfold _get_next_mood_based, _get_next_smart.
  destruct (available q); reflexivity.
Qed.







(** *** The claims about the queue *)

Definition sample_track (i a : string) : Track :=
  {| id := Some i; title := i; duration := Some 200%Z; quality_score := Some 0.6%Q;
     metadata := Some (mkMetadata i a i a) |}.

(** A track whose identifier is the empty string. *)
Definition anonymous_track : Track :=
  {| id := Some ""; title := "untitled"; duration := Some 200%Z;
     quality_score := Some 0.6%Q; metadata := None |}.

Definition sample_queue (mode : string) (priority main : list Track) (cursor : nat)
    : SmartQueue :=
  {| history := fresh_history; current_index := cursor; played_tracks := ∅;
     shuffle_mode := mode; priority_queue := priority; main_queue := main;
     last_played_track := None |}.




(** The cursor on the track that is moved or removed: in [a; b; c] with the
    cursor on [b], moving [b] to index 0 gives [b; a; c] with the cursor at
    index 2, on [c]. Removing the track at the cursor leaves the cursor on
    its successor too, as it must. *)
Lemma move_of_cursor_track_leaves_it :
  let q := sample_queue "sequential" []
             [sample_track "a" "A"; sample_track "b" "B"; sample_track "c" "C"] 1 in
  let moved := snd (move_track q "b" 0) in
  let removed := snd (remove_track q "b") in
  main_queue q !! current_index q = Some (sample_track "b" "B")
  /\ main_queue moved = [sample_track "b" "B"; sample_track "a" "A"; sample_track "c" "C"]
  /\ main_queue moved !! current_index moved = Some (sample_track "c" "C")
  /\ main_queue moved !! current_index moved <> main_queue q !! current_index q
  /\ main_queue removed !! current_index removed = Some (sample_track "c" "C").
Proof. vm_compute. repeat split; try reflexivity. discriminate. Qed.

(** C4: [move_track] adjusts the cursor twice, to keep it on its track,
    but neither test covers [old_index == current_index]. So whenever the
    track that is moved is the one at the cursor, whatever the target
    index, the call returns [True], the track sits at the clamped target
    index afterwards, and the cursor is never at that index: it denotes the
    track that followed the moved one (nothing when that was the last). In
    a main tier that holds no track twice the cursor therefore no longer
    denotes the track it denoted before the move, against C4. *)
Theorem move_of_cursor_track_shifts_cursor
    (q : SmartQueue) (track_id : string) (new_position : Z) :
  find_index track_id (main_queue q) = Some (current_index q) ->
  let q' := snd (move_track q track_id new_position) in
  let p := Z.to_nat (Z.max 0 (Z.min new_position
                                (Z.of_nat (length (main_queue q)) - 1))) in
  fst (move_track q track_id new_position) = true
  /\ is_Some (main_queue q !! current_index q)
  /\ main_queue q' !! p = main_queue q !! current_index q
  /\ current_index q' <> p
  /\ main_queue q' !! current_index q' = main_queue q !! S (current_index q)
  /\ (NoDup (main_queue q) ->
      main_queue q' !! current_index q' <> main_queue q !! current_index q).
Proof.
  intros Hi.
  pose proof (move_track_cursor q track_id (current_index q) new_position Hi) as Hc.
  cbv zeta in *. rewrite Nat.eqb_refl in Hc.
  destruct (find_index_Some _ _ _ Hi) as [t [Ht _]].
  assert (Hlen : current_index q < length (main_queue q))
    by (apply lookup_lt_is_Some; exists t; exact Ht).
  assert (Hdel : Z.of_nat (length (delete (current_index q) (main_queue q)))
                 = (Z.of_nat (length (main_queue q)) - 1)%Z).
  { rewrite length_delete by (exists t; exact Ht). lia. }
  split; [| split; [exists t; exact Ht | split; [| split; [| split; [exact Hc |]]]]].
  - unfold move_track. rewrite Hi, Ht. reflexivity.
  - unfold move_track. rewrite Hi, Ht. simpl. rewrite Nat.ltb_irrefl. simpl.
    rewrite Hdel.
    match goal with |- context [Nat.leb ?n ?c] => destruct (Nat.leb n c) end; simpl;
      apply insert_at_lookup_eq; rewrite length_delete by (exists t; exact Ht); lia.
  - unfold move_track. rewrite Hi, Ht. simpl. rewrite Nat.ltb_irrefl. simpl.
    rewrite Hdel.
    match goal with |- context [Nat.leb ?n ?c] => destruct (Nat.leb_spec n c) end;
      simpl; lia.
  - intros Hnd. rewrite Hc, Ht. intros Hs.
    pose proof (NoDup_lookup _ _ _ _ Hnd Hs Ht). lia.
Qed.

Lemma move_of_cursor_track_shifts_cursor_witness :
  let q := sample_queue "sequential" []
             [sample_track "a" "A"; sample_track "b" "B"; sample_track "c" "C"] 1 in
  let q' := snd (move_track q "b" 0) in
  main_queue q !! current_index q = Some (sample_track "b" "B")
  /\ main_queue q' !! 0 = Some (sample_track "b" "B")
  /\ main_queue q' !! current_index q' = Some (sample_track "c" "C")
  /\ main_queue q' !! current_index q' <> main_queue q !! current_index q.
Proof.
  cbv zeta.
  pose proof (move_of_cursor_track_shifts_cursor
                (sample_queue "sequential" []
                   [sample_track "a" "A"; sample_track "b" "B"; sample_track "c" "C"] 1)
                "b" 0 eq_refl) as H.
  cbv zeta in H. destruct H as [_ [_ [Hp [_ [Hs Hn]]]]].
  split; [reflexivity |]. split; [exact Hp |]. split; [exact Hs |].
  apply Hn. repeat (apply NoDup_cons; split); try apply NoDup_nil_2;
    rewrite ?elem_of_cons, elem_of_nil; intros H; vm_compute in H;
    repeat match goal with
           | H : _ \/ _ |- _ => destruct H
           | H : False |- _ => destruct H
           | H : _ = _ |- _ => discriminate H
           end.
Defined.

(** Away from that case both calls keep the cursor on its track. Let [i] be
    the first index of the identifier in the main tier and [c] the cursor.
    [remove_track] (when the priority tier does not hold the identifier)
    deletes index [i] and decrements the cursor exactly when [i < c];
    afterwards the cursor denotes the track it denoted before when
    [i <> c], and the track that followed the removed one when [i = c].
    [move_track] of a track other than the one at the cursor ([i <> c]), to
    any target index, leaves the cursor on the track it denoted before. *)
Lemma cursor_after_remove_and_move
    (q : SmartQueue) (track_id : string) (i : nat) (new_position : Z) :
  find_index track_id (main_queue q) = Some i ->
  let c := current_index q in
  (find_index track_id (priority_queue q) = None ->
   let q' := snd (remove_track q track_id) in
   fst (remove_track q track_id) = true
   /\ priority_queue q' = priority_queue q
   /\ main_queue q' = delete i (main_queue q)
   /\ current_index q' = (if Nat.ltb i c then c - 1 else c)
   /\ (i <> c -> main_queue q' !! current_index q' = main_queue q !! c)
   /\ (i = c -> main_queue q' !! current_index q' = main_queue q !! S c))
  /\ (i <> c ->
      let q' := snd (move_track q track_id new_position) in
      fst (move_track q track_id new_position) = true
      /\ main_queue q' !! current_index q' = main_queue q !! c).
Proof.
  intros Hi c. subst c. split.
  - intros Hp. rewrite (remove_track_main q track_id i Hp Hi).
    pose proof (cursor_after_delete (main_queue q) i (current_index q)) as Hd.
    destruct (Nat.ltb i (current_index q)); simpl;
      (split; [reflexivity |]); (split; [reflexivity |]);
      (split; [reflexivity |]); (split; [reflexivity |]); split; intros Hic;
      rewrite Hd.
    + apply Nat.eqb_neq in Hic. rewrite Hic. reflexivity.
    + rewrite Hic, Nat.eqb_refl. reflexivity.
    + apply Nat.eqb_neq in Hic. rewrite Hic. reflexivity.
    + rewrite Hic, Nat.eqb_refl. reflexivity.
  - intros Hic. split.
    + destruct (find_index_Some _ _ _ Hi) as [t [Ht _]].
      unfold move_track. rewrite Hi, Ht.
      repeat match goal with |- context [if ?b then _ else _] => destruct b end;
        reflexivity.
    + pose proof (move_track_cursor q track_id i new_position Hi) as Hm.
      cbv zeta in Hm. rewrite Hm.
      apply Nat.eqb_neq in Hic. rewrite Hic. reflexivity.
Qed.

Lemma cursor_after_remove_and_move_witness :
  let q := sample_queue "sequential" []
             [sample_track "a" "A"; sample_track "b" "B"; sample_track "c" "C"] 2 in
  let q' := snd (move_track q "a" 5) in
  main_queue q' !! current_index q' = Some (sample_track "c" "C").
Proof.
  apply (cursor_after_remove_and_move
           (sample_queue "sequential" []
              [sample_track "a" "A"; sample_track "b" "B"; sample_track "c" "C"] 2)
           "a" 0 5).
  - reflexivity.
  - discriminate.
Defined.

(** C10: the reshuffle pass finishes and leaves in the main tier a
    permutation of what it held (every track once for each time it was
    there), and it changes neither the priority tier, nor the played set,
    nor the cursor; so inserting tracks into the main tier in smart mode
    leaves a permutation of the old main tier followed by the new tracks. *)
Theorem smart_reshuffle_is_permutation
    (q : SmartQueue) (new_tracks : list Track) (tape : Tape) :
  (exists shuffled tape', shuffle_loop q tape = (Some shuffled, tape'))
  /\ (let q' := fst (_smart_shuffle q tape) in
      main_queue q' ≡ₚ main_queue q
      /\ priority_queue q' = priority_queue q
      /\ played_tracks q' = played_tracks q
      /\ current_index q' = current_index q)
  /\ (shuffle_mode q = "smart" ->
      let q' := fst (add_tracks q new_tracks false tape) in
      main_queue q' ≡ₚ main_queue q ++ new_tracks
      /\ priority_queue q' = priority_queue q
      /\ played_tracks q' = played_tracks q
      /\ current_index q' = current_index q).
Proof.
  split.
  { destruct (shuffle_loop_finishes q tape) as [l [tape' [E _]]]. eauto. }
  split.
  - destruct (smart_shuffle_spec q tape) as [l [tape' [E P]]].
    rewrite E. simpl. repeat split; [exact P | reflexivity ..].
  - intros Hmode. unfold add_tracks, _reorganize_queue. simpl. rewrite Hmode. simpl.
    destruct (smart_shuffle_spec (set_main_queue q (main_queue q ++ new_tracks)) tape)
      as [l [tape' [E P]]].
    rewrite E. simpl. repeat split; [exact P | reflexivity ..].
Qed.

Lemma smart_reshuffle_is_permutation_witness :
  let q := sample_queue "smart" []
             [sample_track "a" "A"; sample_track "b" "A"; sample_track "c" "C"] 0 in
  main_queue (fst (add_tracks q [anonymous_track] false [2; 0; 7; 1]))
  ≡ₚ [sample_track "a" "A"; sample_track "b" "A"; sample_track "c" "C"; anonymous_track].
Proof.
  apply (smart_reshuffle_is_permutation
           (sample_queue "smart" []
              [sample_track "a" "A"; sample_track "b" "A"; sample_track "c" "C"] 0)
           [anonymous_track] [2; 0; 7; 1]).
  reflexivity.
Defined.

End Queue.

(** ** auto_discovery.py: BackgroundDiscovery *)

Module Scheduler.

Import History.
Import Queue.

(** *** Insertion-ordered dictionaries *)

Fixpoint dict_get {V : Type} (k : string) (d : list (string * V)) : option V :=
  match d with
  | [] => None
  | (k', v) :: d' => if String.eqb k k' then Some v else dict_get k d'
  end.

(** [d[k] = v]: in place when the key exists, at the end otherwise. *)
Fixpoint dict_set {V : Type} (k : string) (v : V) (d : list (string * V)) : list (string * V) :=
  match d with
  | [] => [(k, v)]
  | (k', v') :: d' =>
      if String.eqb k k' then (k', v) :: d' else (k', v') :: dict_set k v d'
  end.

(** *** State *)

Record BackgroundDiscovery := mkDiscovery {
  target_queue_size : Z;
  discovery_batch_size : Z;
  (** [queue.Queue(maxsize=3)]: the pending trigger reasons, oldest first. *)
  discovery_queue : list string;
  is_running : bool;
  (** [deque(maxlen=5)] *)
  seed_tracks : list Track;
  discovered_artists : gset string;
  last_discovery_time : Q;
  min_discovery_interval : Q;
  artist_exploration_depth : list (string * Z)
}.

(** [BackgroundDiscovery.__init__] with its default arguments. *)
Definition new_discovery : BackgroundDiscovery :=
  {| target_queue_size := 30; discovery_batch_size := 5; discovery_queue := [];
     is_running := false; seed_tracks := []; discovered_artists := ∅;
     last_discovery_time := 0; min_discovery_interval := 10;
     artist_exploration_depth := [] |}.

(** The two module-level instances, [smart_queue] and [auto_discovery]:
    the scheduler reads and fills the one shared queue. *)
Record World := mkWorld {
  queue : SmartQueue;
  discovery : BackgroundDiscovery
}.

Definition set_discovery_queue (bd : BackgroundDiscovery) (c : list string) : BackgroundDiscovery :=
  mkDiscovery (target_queue_size bd) (discovery_batch_size bd) c (is_running bd)
    (seed_tracks bd) (discovered_artists bd) (last_discovery_time bd)
    (min_discovery_interval bd) (artist_exploration_depth bd).

Definition set_last_discovery_time (bd : BackgroundDiscovery) (t : Q) : BackgroundDiscovery :=
  mkDiscovery (target_queue_size bd) (discovery_batch_size bd) (discovery_queue bd)
    (is_running bd) (seed_tracks bd) (discovered_artists bd) t
    (min_discovery_interval bd) (artist_exploration_depth bd).

Definition set_is_running (bd : BackgroundDiscovery) (b : bool) : BackgroundDiscovery :=
  mkDiscovery (target_queue_size bd) (discovery_batch_size bd) (discovery_queue bd)
    b (seed_tracks bd) (discovered_artists bd) (last_discovery_time bd)
    (min_discovery_interval bd) (artist_exploration_depth bd).

Definition set_context (bd : BackgroundDiscovery) (seeds : list Track)
    (artists_seen : gset string) (depth : list (string * Z)) : BackgroundDiscovery :=
  mkDiscovery (target_queue_size bd) (discovery_batch_size bd) (discovery_queue bd)
    (is_running bd) seeds artists_seen (last_discovery_time bd)
    (min_discovery_interval bd) depth.

Definition set_rate (bd : BackgroundDiscovery) (target batch : Z) (interval : Q)
    : BackgroundDiscovery :=
  mkDiscovery target batch (discovery_queue bd) (is_running bd) (seed_tracks bd)
    (discovered_artists bd) (last_discovery_time bd) interval
    (artist_exploration_depth bd).

(** *** Triggers *)

(** [_trigger_discovery]; [now] is [time.time()]. A [put] on a full
    channel gives up after its 0.1 s and the [queue.Full] is swallowed. *)
Definition _trigger_discovery (bd : BackgroundDiscovery) (reason : string) (now : Q)
    : BackgroundDiscovery :=
  if Qltb (now - last_discovery_time bd) (min_discovery_interval bd) then bd
  else
    let bd1 := set_last_discovery_time bd now in
    if Nat.ltb (length (discovery_queue bd1)) 3
    then set_discovery_queue bd1 (discovery_queue bd1 ++ [reason])
    else bd1.

(** [deque.append] under [maxlen=5]: the oldest entry leaves when full. *)
Definition seed_append (seeds : list Track) (track : Track) : list Track :=
  let l := seeds ++ [track] in
  if Nat.ltb 5 (length l) then drop 1 l else l.

(** [add_seed_track] *)
Definition add_seed_track (w : World) (track : Track) (now : Q) : World :=
  let bd := discovery w in
  let seeds := seed_append (seed_tracks bd) track in
  match known_artist track with
  | Some a =>
      let depth :=
        match dict_get a (artist_exploration_depth bd) with
        | Some _ => artist_exploration_depth bd
        | None => dict_set a 0%Z (artist_exploration_depth bd)
        end in
      let bd1 := set_context bd seeds ({[ a ]} ∪ discovered_artists bd) depth in
      if Nat.ltb (total_tracks (queue w)) 5
      then mkWorld (queue w) (_trigger_discovery bd1 "low_queue" now)
      else mkWorld (queue w) bd1
  | None =>
      mkWorld (queue w)
        (set_context bd seeds (discovered_artists bd) (artist_exploration_depth bd))
  end.

(** [reset_context] *)
Definition reset_context (bd : BackgroundDiscovery) : BackgroundDiscovery :=
  set_discovery_queue (set_context bd [] ∅ []) [].

(** [_check_queue_health] *)
Definition _check_queue_health (w : World) (now : Q) : World :=
  let bd := discovery w in
  let bd1 :=
    if Nat.ltb (total_tracks (queue w)) 3
    then _trigger_discovery bd "periodic_check" now
    else bd in
  let depth := artist_exploration_depth bd1 in
  mkWorld (queue w)
    (if Nat.ltb 50 (length depth)
     then set_context bd1 (seed_tracks bd1) (discovered_artists bd1)
            (take 20 (sort_desc (fun e => inject_Z (snd e)) depth))
     else bd1).

(** [rate == ...] for one of the three levels. *)
Definition known_rate (rate : string) : bool :=
  String.eqb rate "conservative" || String.eqb rate "moderate"
  || String.eqb rate "aggressive".

(** [adjust_discovery_rate]: the outcome, the line it prints, and the new
    state. The method has no [return] and no [raise]. *)
Definition adjust_discovery_rate (bd : BackgroundDiscovery) (rate : string)
    : Outcome unit * string * BackgroundDiscovery :=
  let bd' :=
    if String.eqb rate "conservative" then set_rate bd 15 3 15
    else if String.eqb rate "moderate" then set_rate bd 30 5 10
    else if String.eqb rate "aggressive" then set_rate bd 50 8 5
    else bd in
  (Returned tt, String.append "Discovery rate set to " rate, bd').

(** *** A discovery round *)

(** [_choose_discovery_strategy] *)
Definition _choose_discovery_strategy (bd : BackgroundDiscovery) : string :=
  match last (seed_tracks bd) with
  | None => "mixed"
  | Some recent_track =>
      let unexplored :=
        match known_artist recent_track with
        | Some a =>
            Z.ltb (match dict_get a (artist_exploration_depth bd) with
                   | Some d => d
                   | None => 0%Z
                   end) 3
        | None => false
        end in
      if unexplored then "artist"
      else if Nat.ltb (size (discovered_artists bd)) 10 then "related"
      else "genre"
  end.

(** One genre per track that has metadata, from its normalised title. *)
Definition genre_of (m : MusicMetadata) : string :=
  let t := Quality.lower (normalized_title m) in
  let any := fun ws => existsb (fun w => Quality.contains w t) ws in
  if any ["rock"; "metal"; "punk"] then "rock"
  else if any ["jazz"; "blues"; "swing"] then "jazz"
  else if any ["electronic"; "edm"; "techno"; "house"] then "electronic"
  else if any ["folk"; "acoustic"; "country"] then "folk"
  else if any ["classical"; "orchestra"; "symphony"] then "classical"
  else if any ["hip hop"; "rap"; "beats"] then "hip hop"
  else if any ["indie"; "alternative"] then "indie"
  else "alternative".

(** [genre_counts[genre] += 1] over a [defaultdict(int)] *)
Definition count_genre (counts : list (string * Z)) (genre : string) : list (string * Z) :=
  dict_set genre (match dict_get genre counts with Some n => n + 1 | None => 1 end)%Z counts.

(** [_infer_genres_from_tracks] *)
Definition _infer_genres_from_tracks (l : list Track) : list string :=
  let genres :=
    flat_map (fun t => match metadata t with Some m => [genre_of m] | None => [] end) l in
  let genre_counts := fold_left count_genre genres [] in
  take 3 (map fst (sort_desc (fun e => inject_Z (snd e)) genre_counts)).

(** [list(self.seed_tracks)[-3:]] *)
Definition last_three {A : Type} (l : list A) : list A := drop (length l - 3) l.

(** [_generate_discovery_queries]: the queries and the exploration depths
    after the call. *)
Definition _generate_discovery_queries (bd : BackgroundDiscovery) (strategy : string)
    : Rand (list string * BackgroundDiscovery) :=
  match seed_tracks bd with
  | [] => ret (["popular music"; "indie songs"; "alternative rock"], bd)
  | _ :: _ =>
      let recent_tracks := last_three (seed_tracks bd) in
      let '(queries, depth) :=
        if String.eqb strategy "artist" then
          fold_left
            (fun acc t =>
               match known_artist t with
               | Some a =>
                   (fst acc ++ [a],
                    dict_set a
                      (match dict_get a (snd acc) with Some d => d | None => 0 end + 1)%Z
                      (snd acc))
               | None => acc
               end)
            recent_tracks ([], artist_exploration_depth bd)
        else if String.eqb strategy "related" then
          (flat_map
             (fun t => match known_artist t with
                       | Some a => [String.append "artists like " a]
                       | None => []
                       end)
             recent_tracks,
           artist_exploration_depth bd)
        else if String.eqb strategy "genre" then
          (flat_map
             (fun g => [String.append g " music";
                        String.append "best " (String.append g " songs");
                        String.append g " playlist"])
             (_infer_genres_from_tracks recent_tracks),
           artist_exploration_depth bd)
        else ([], artist_exploration_depth bd) in
      let* shuffled := random_shuffle queries in
      ret (take 5 shuffled,
           set_context bd (seed_tracks bd) (discovered_artists bd) depth)
  end.

Section Provider.

(** The search provider of discovery.py, as the scheduler calls it:
    [music_discovery.search_with_strategy(query, strategy, limit)] and
    [music_discovery.enhance_track_info(track)], the latter giving the
    enhanced track when it carries an audio URL. *)
Variable search_with_strategy : string -> string -> nat -> list Track.
Variable enhance_track_info : Track -> option Track.

(** [_discover_batch] *)
Definition _discover_batch (query strategy : string) : list Track :=
  search_with_strategy query strategy 3.

(** The filtering loop of [_filter_discovered_tracks]. *)
Fixpoint filter_loop (l : list Track) (existing_ids : gset (option string))
    : list Track :=
  match l with
  | [] => []
  | track :: l' =>
      let track_id := id track in
      let quality := match quality_score track with Some s => s | None => 0%Q end in
      if bool_decide (track_id ∈ existing_ids) || Qltb quality 0.4 then
        filter_loop l' existing_ids
      else
        match enhance_track_info track with
        | Some enhanced =>
            {| id := id enhanced; title := title enhanced;
               duration := Some (match duration enhanced with Some d => d | None => 0%Z end);
               quality_score :=
                 Some (match quality_score enhanced with Some s => s | None => 0.5%Q end);
               metadata := metadata enhanced |}
            :: filter_loop l' ({[ track_id ]} ∪ existing_ids)
        | None => filter_loop l' existing_ids
        end
  end.

(** The identifiers of the tracks that have one. *)
Definition ids_of (l : list Track) : gset (option string) :=
  list_to_set (map id (List.filter has_id l)).

(** [_filter_discovered_tracks] *)
Definition _filter_discovered_tracks (w : World) (l : list Track) : list Track :=
  filter_loop l
    (ids_of (main_queue (queue w) ++ priority_queue (queue w))
     ∪ ids_of (seed_tracks (discovery w))).

(** The tail shared by both kinds of round: filter, then add to the queue. *)
Definition accept_tracks (w : World) (new_tracks : list Track) : Rand World :=
  match new_tracks with
  | [] => ret w
  | _ :: _ =>
      match _filter_discovered_tracks w new_tracks with
      | [] => ret w
      | filtered =>
          let* q' := add_tracks (queue w) filtered false in
          ret (mkWorld q' (discovery w))
      end
  end.

(** [_discover_without_context] *)
Definition _discover_without_context (w : World) : Rand World :=
  let general_queries :=
    ["popular songs 2024"; "indie rock"; "alternative music"; "chill music";
     "acoustic songs"] in
  accept_tracks w (flat_map (fun query => search_with_strategy query "mixed" 3) general_queries).

(** [_perform_discovery] *)
Definition _perform_discovery (w : World) (reason : string) : Rand World :=
  match seed_tracks (discovery w) with
  | [] => _discover_without_context w
  | _ :: _ =>
      let strategy := _choose_discovery_strategy (discovery w) in
      let* (queries, bd') := _generate_discovery_queries (discovery w) strategy in
      let w1 := mkWorld (queue w) bd' in
      let new_tracks :=
        match queries with
        | [] => []
        | query :: _ =>
            take (Z.to_nat (discovery_batch_size bd')) (_discover_batch query strategy)
        end in
      accept_tracks w1 new_tracks
  end.

(** One pass of the [while self.is_running:] loop of [_discovery_worker],
    with nobody else touching the channel meanwhile: a pending reason
    starts a round; on an empty channel [get] times out and the handler
    sleeps. *)
Definition worker_pass (w : World) : Rand World :=
  match discovery_queue (discovery w) with
  | reason :: rest =>
      let w1 := mkWorld (queue w) (set_discovery_queue (discovery w) rest) in
      if negb (is_running (discovery w1)) then ret w1
      else _perform_discovery w1 reason
  | [] => ret w
  end.

(** [_discovery_worker], for at most [n] passes. *)
Fixpoint _discovery_worker (n : nat) (w : World) : Rand World :=
  match n with
  | O => ret w
  | S n' =>
      if is_running (discovery w) then
        let* w' := worker_pass w in _discovery_worker n' w'
      else ret w
  end.

End Provider.

(** The state right after [start()]: an empty queue, no seed, an empty
    channel, the worker running. *)
Definition started_world : World :=
  mkWorld (new_queue fresh_history) (set_is_running new_discovery true).

(** *** Triggers: rate limit and channel capacity *)

Lemma Qltb_true (a b : Q) : Qltb a b = true <-> (a < b)%Q.
Proof. unfold Qltb. destruct (Qlt_le_dec a b); split; intros; try lra; congruence. Qed.

Lemma Qltb_false (a b : Q) : Qltb a b = false <-> (b <= a)%Q.
Proof. unfold Qltb. destruct (Qlt_le_dec a b); split; intros; try lra; congruence. Qed.

Lemma trigger_rate_limited (bd : BackgroundDiscovery) (reason : string) (now : Q) :
  (now - last_discovery_time bd < min_discovery_interval bd)%Q ->
  _trigger_discovery bd reason now = bd.
Proof.
  intros H. unfold _trigger_discovery.
  apply Qltb_true in H. rewrite H. reflexivity.
Qed.

Lemma trigger_on_full_channel (bd : BackgroundDiscovery) (reason : string) (now : Q) :
  3 <= length (discovery_queue bd) ->
  discovery_queue (_trigger_discovery bd reason now) = discovery_queue bd.
Proof.
  intros H. unfold _trigger_discovery.
  destruct (Qltb _ _); [reflexivity |]. simpl.
  destruct (Nat.ltb_spec (length (discovery_queue bd)) 3); [lia | reflexivity].
Qed.

Lemma trigger_accepted (bd : BackgroundDiscovery) (reason : string) (now : Q) :
  (min_discovery_interval bd <= now - last_discovery_time bd)%Q ->
  length (discovery_queue bd) < 3 ->
  _trigger_discovery bd reason now
  = set_discovery_queue (set_last_discovery_time bd now) (discovery_queue bd ++ [reason]).
Proof.
  intros H Hlen. unfold _trigger_discovery.
  apply Qltb_false in H. rewrite H. simpl.
  destruct (Nat.ltb_spec (length (discovery_queue bd)) 3); [reflexivity | lia].
Qed.

(** What one trigger does to the channel, the time stamp and the interval. *)
Lemma trigger_step (bd : BackgroundDiscovery) (reason : string) (now : Q) :
  let bd' := _trigger_discovery bd reason now in
  min_discovery_interval bd' = min_discovery_interval bd
  /\ ((discovery_queue bd' = discovery_queue bd
       /\ last_discovery_time bd' = last_discovery_time bd)
      \/ (last_discovery_time bd' = now
          /\ (min_discovery_interval bd <= now - last_discovery_time bd)%Q
          /\ length (discovery_queue bd') <= S (length (discovery_queue bd)))).
Proof.
  unfold _trigger_discovery.
  destruct (Qltb _ _) eqn:E; simpl.
  - split; [reflexivity |]. left. split; reflexivity.
  - apply Qltb_false in E.
    destruct (Nat.ltb (length (discovery_queue bd)) 3); simpl;
      (split; [reflexivity |]); right; (split; [reflexivity |]); (split; [exact E |]).
    + rewrite length_app. simpl. lia.
    + lia.
Qed.

(** The same for one reported seed track. *)
Lemma seed_step (w : World) (track : Track) (now : Q) :
  let bd := discovery w in
  let bd' := discovery (add_seed_track w track now) in
  queue (add_seed_track w track now) = queue w
  /\ min_discovery_interval bd' = min_discovery_interval bd
  /\ ((discovery_queue bd' = discovery_queue bd
       /\ last_discovery_time bd' = last_discovery_time bd)
      \/ (last_discovery_time bd' = now
          /\ (min_discovery_interval bd <= now - last_discovery_time bd)%Q
          /\ length (discovery_queue bd') <= S (length (discovery_queue bd)))).
Proof.
  unfold add_seed_track.
  destruct (known_artist track) as [a |]; simpl.
  - destruct (Nat.ltb (total_tracks (queue w)) 5); simpl.
    + split; [reflexivity |].
      match goal with |- context [_trigger_discovery ?b ?r ?n] =>
        pose proof (trigger_step b r n) as H end.
      simpl in H. exact H.
    + split; [reflexivity |]. split; [reflexivity |]. left. split; reflexivity.
  - split; [reflexivity |]. split; [reflexivity |]. left. split; reflexivity.
Qed.

Definition low_world (interval : Q) : World :=
  mkWorld (sample_queue "smart" [] [sample_track "a" "A"] 0)
    (set_rate (set_last_discovery_time new_discovery 100) 30 5 interval).

(** C3: a trigger leaves the whole scheduler state, the channel with it, as
    it was when less than [min_discovery_interval] has passed since
    [last_discovery_time], the time of the last trigger that got past the
    rate limit; it leaves the channel as it was when the channel already
    holds 3 reasons; otherwise it appends its reason and records the time.
    So two seed tracks reported less than the minimum interval apart add at
    most one reason to the channel. *)
Theorem trigger_is_rate_limited
    (w : World) (bd : BackgroundDiscovery) (reason : string) (now t1 t2 : Q)
    (track1 track2 : Track) :
  ((now - last_discovery_time bd < min_discovery_interval bd)%Q ->
   _trigger_discovery bd reason now = bd)
  /\ (3 <= length (discovery_queue bd) ->
      discovery_queue (_trigger_discovery bd reason now) = discovery_queue bd)
  /\ ((min_discovery_interval bd <= now - last_discovery_time bd)%Q ->
      length (discovery_queue bd) < 3 ->
      discovery_queue (_trigger_discovery bd reason now) = discovery_queue bd ++ [reason]
      /\ last_discovery_time (_trigger_discovery bd reason now) = now)
  /\ ((t2 - t1 < min_discovery_interval (discovery w))%Q ->
      let w2 := add_seed_track (add_seed_track w track1 t1) track2 t2 in
      length (discovery_queue (discovery w2))
      <= S (length (discovery_queue (discovery w)))).
Proof.
  split; [apply trigger_rate_limited |].
  split; [apply trigger_on_full_channel |].
  split.
  { intros H Hlen. rewrite trigger_accepted by assumption. split; reflexivity. }
  intros Hgap. cbv zeta.
  destruct (seed_step w track1 t1) as [_ [Hmin1 H1]].
  destruct (seed_step (add_seed_track w track1 t1) track2 t2) as [_ [_ H2]].
  cbv zeta in *.
  destruct H1 as [[Hc1 Hl1] | [Hl1 [_ Hlen1]]];
    destruct H2 as [[Hc2 _] | [_ [Hpass2 Hlen2]]].
  - rewrite Hc2, Hc1. lia.
  - rewrite Hc1 in Hlen2. exact Hlen2.
  - rewrite Hc2. exact Hlen1.
  - rewrite Hmin1, Hl1 in Hpass2. lra.
Qed.

Lemma trigger_is_rate_limited_witness :
  let w2 := add_seed_track
              (add_seed_track (low_world 10) (sample_track "b" "B") 200)
              (sample_track "c" "C") 201 in
  length (discovery_queue (discovery w2)) <= 1.
Proof.
  apply (trigger_is_rate_limited (low_world 10) new_discovery "low_queue" 200 200 201
           (sample_track "b" "B") (sample_track "c" "C")).
  reflexivity.
Defined.

Example two_seeds_one_trigger :
  discovery_queue
    (discovery
       (add_seed_track
          (add_seed_track (low_world 10) (sample_track "b" "B") 200)
          (sample_track "c" "C") 201))
  = ["low_queue"].
Proof. reflexivity. Qed.

(** *** Unknown mode, unknown rate *)

(** C9, as stated, fails: an unknown shuffle mode and an unknown rate level
    are not signalled. Both calls return normally, as they do for a valid
    argument, and [adjust_discovery_rate] prints the same confirmation with
    the unknown level in it. *)
Lemma unknown_mode_and_rate_return_normally :
  fst (fst (set_shuffle_mode (new_queue fresh_history) "loud" [])) = Returned tt
  /\ fst (fst (set_shuffle_mode (new_queue fresh_history) "mood" [])) = Returned tt
  /\ (forall e, fst (fst (set_shuffle_mode (new_queue fresh_history) "loud" [])) <> Raised e)
  /\ fst (adjust_discovery_rate new_discovery "turbo")
     = (Returned tt, "Discovery rate set to turbo")
  /\ fst (adjust_discovery_rate new_discovery "moderate")
     = (Returned tt, "Discovery rate set to moderate")
  /\ (forall e, fst (fst (adjust_discovery_rate new_discovery "turbo")) <> Raised e).
Proof. repeat split; try reflexivity; discriminate. Qed.

(** C9 (amended): [set_shuffle_mode] with a string that is none of the four
    modes, and [adjust_discovery_rate] with a string that is none of the
    three levels, are ignored without any signal: the call returns normally,
    the queue (its mode included) and the scheduler state (target size,
    batch size and minimum interval included) are unchanged, no random
    number is drawn, and [adjust_discovery_rate] still prints its
    confirmation line. *)
Theorem unknown_mode_or_rate_is_ignored
    (q : SmartQueue) (bd : BackgroundDiscovery) (mode rate : string) (tape : Tape) :
  (valid_mode mode = false ->
   set_shuffle_mode q mode tape = (Returned tt, q, tape))
  /\ (known_rate rate = false ->
      adjust_discovery_rate bd rate
      = (Returned tt, String.append "Discovery rate set to " rate, bd)).
Proof.
  split.
  - intros H. unfold set_shuffle_mode. rewrite H. reflexivity.
  - intros H. unfold adjust_discovery_rate. unfold known_rate in H.
    destruct (String.eqb rate "conservative"); [discriminate |].
    destruct (String.eqb rate "moderate"); [discriminate |].
    destruct (String.eqb rate "aggressive"); [discriminate |].
    reflexivity.
Qed.

Lemma unknown_mode_or_rate_is_ignored_witness :
  set_shuffle_mode (sample_queue "random" [] [sample_track "a" "A"] 0) "loud" [4; 2]
  = (Returned tt, sample_queue "random" [] [sample_track "a" "A"] 0, [4; 2]).
Proof.
  apply (unknown_mode_or_rate_is_ignored
           (sample_queue "random" [] [sample_track "a" "A"] 0) new_discovery
           "loud" "turbo" [4; 2]).
  reflexivity.
Defined.

(** *** The worker and the health check *)

Section Worker.

Variable search_with_strategy : string -> string -> nat -> list Track.
Variable enhance_track_info : Track -> option Track.

(** With nothing in the channel a pass of the worker changes nothing, so
    neither does any number of passes. *)
Lemma worker_idle_on_empty_channel (n : nat) (w : World) (tape : Tape) :
  discovery_queue (discovery w) = [] ->
  _discovery_worker search_with_strategy enhance_track_info n w tape = (w, tape).
Proof.
  intros H. induction n as [| n IH]; simpl; [reflexivity |].
  destruct (is_running (discovery w)); [| reflexivity].
  unfold bind, worker_pass. rewrite H. simpl. exact IH.
Qed.

(** C2 at its own scenario: from the state right after [start()] (no seed,
    an empty queue, an empty channel) and with no seed ever reported, the
    worker never puts a reason into the channel and never adds a track,
    however many passes it makes: its loop does not call
    [_check_queue_health]. Called on that state at any clock reading of 10
    or more, [_check_queue_health] would enqueue the trigger. *)
Theorem worker_never_checks_queue_health (n : nat) (tape : Tape) (now : Q) :
  let w := fst (_discovery_worker search_with_strategy enhance_track_info n
                  started_world tape) in
  total_tracks (queue started_world) = 0
  /\ w = started_world
  /\ discovery_queue (discovery w) = []
  /\ main_queue (queue w) = []
  /\ ((10 <= now)%Q ->
      discovery_queue (discovery (_check_queue_health started_world now))
      = ["periodic_check"]).
Proof.
  cbv zeta. rewrite worker_idle_on_empty_channel by reflexivity. simpl.
  repeat split.
  intros Hnow. unfold _check_queue_health. simpl.
  rewrite trigger_accepted; [reflexivity | simpl; lra | simpl; lia].
Qed.

End Worker.

Lemma worker_never_checks_queue_health_witness :
  (10 <= 1000)%Q
  /\ discovery_queue (discovery (_check_queue_health started_world 1000))
     = ["periodic_check"]
  /\ main_queue
       (queue (fst (_discovery_worker (fun _ _ _ => []) (fun _ => None) 50
                      started_world [])))
     = [].
Proof.
  pose proof (worker_never_checks_queue_health (fun _ _ _ => []) (fun _ => None)
                50 [] 1000) as H.
  cbv zeta in H. destruct H as [_ [_ [_ [Hmain Hcheck]]]].
  assert (Hnow : (10 <= 1000)%Q) by (unfold Qle; simpl; lia).
  split; [exact Hnow |]. split; [apply Hcheck; exact Hnow | exact Hmain].
Defined.

End Scheduler.

(** ** discovery.py: track similarity and duplicate removal *)

Module Dedup.

Import History.
Import Similarity.

(** [MusicMetadata.similarity_score]; [other] is [None] for a falsy
    argument. *)
Definition similarity_score (self : MusicMetadata) (other : option MusicMetadata) : Q :=
  match other with
  | None => 0%Q
  | Some o =>
      let title_sim := _string_similarity (normalized_title self) (normalized_title o) in
      let artist_sim := _string_similarity (normalized_artist self) (normalized_artist o) in
      if Qltb 0.8 artist_sim && Qltb 0.8 title_sim then 0%Q
      else (title_sim * 0.3 + artist_sim * 0.7)%Q
  end.

(** [f"{metadata.normalized_artist}:{metadata.normalized_title}"] *)
Definition signature (m : MusicMetadata) : string :=
  String.append (normalized_artist m) (String ":" (normalized_title m)).

(** [a, b = sig.split(":", 1)]; [None] when there is no colon and the
    unpacking raises. *)
Fixpoint split_colon (s : string) : option (string * string) :=
  match s with
  | EmptyString => None
  | String c s' =>
      if Ascii.eqb c ":" then Some (EmptyString, s')
      else match split_colon s' with
           | Some (a, b) => Some (String c a, b)
           | None => None
           end
  end.

(** The test of one candidate against one seen signature. *)
Definition near (m : MusicMetadata) (existing_artist existing_title : string) : bool :=
  let similarity := _string_similarity (normalized_title m) existing_title in
  let artist_similarity := _string_similarity (normalized_artist m) existing_artist in
  Qltb 0.8 similarity && Qltb 0.8 artist_similarity.

(** The loop over [seen_signatures] with its [break]. *)
Fixpoint is_duplicate (m : MusicMetadata) (seen : list string) : option bool :=
  match seen with
  | [] => Some false
  | existing_sig :: rest =>
      match split_colon existing_sig with
      | None => None
      | Some (existing_artist, existing_title) =>
          if near m existing_artist existing_title then Some true
          else is_duplicate m rest
      end
  end.

(** The loop over [tracks]; [seen_signatures] is a set, walked in the order
    of its elements. *)
Fixpoint dedup_loop (l : list Track) (seen_signatures : gset string)
    : option (list Track) :=
  match l with
  | [] => Some []
  | track :: l' =>
      match metadata track with
      | None => dedup_loop l' seen_signatures
      | Some m =>
          match is_duplicate m (elements seen_signatures) with
          | None => None
          | Some true => dedup_loop l' seen_signatures
          | Some false =>
              match dedup_loop l' ({[ signature m ]} ∪ seen_signatures) with
              | Some unique_tracks => Some (track :: unique_tracks)
              | None => None
              end
          end
      end
  end.

(** [_remove_duplicates]; [None] stands for an exception. *)
Definition _remove_duplicates (l : list Track) : option (list Track) :=
  dedup_loop l ∅.

Example dedup_same_song :
  _remove_duplicates
    [ mkTrack (Some "v1") "t" None None (Some (mkMetadata "Song" "Band" "bohemian rhapsody" "queen"));
      mkTrack (Some "v2") "t" None None (Some (mkMetadata "Song" "Band" "bohemian rhapsody" "queen"));
      mkTrack (Some "v3") "t" None None (Some (mkMetadata "Song" "Band" "under pressure" "queen")) ]
  = Some
    [ mkTrack (Some "v1") "t" None None (Some (mkMetadata "Song" "Band" "bohemian rhapsody" "queen"));
      mkTrack (Some "v3") "t" None None (Some (mkMetadata "Song" "Band" "under pressure" "queen")) ].
Proof. vm_compute. reflexivity. Qed.

(** *** Range and edge cases of the string similarity *)

Lemma bigrams_short (s : string) :
  String.length s <= 1 -> size (get_bigrams s) = 0.
Proof.
  intros H. destruct s as [| a [| b s]]; simpl in H; try lia; reflexivity.
Qed.

Lemma bigrams_long (a b : ascii) (s : string) :
  size (get_bigrams (String a (String b s))) <> 0.
Proof.
  unfold get_bigrams. simpl. intros H.
  apply size_empty_inv in H.
  assert (Hin : String a (String b EmptyString)
                ∈ ({[ String a (String b EmptyString) ]}
                   ∪ list_to_set (bigram_list (String b s)) : gset string))
    by set_solver.
  rewrite H in Hin. set_solver.
Qed.

Lemma string_similarity_bounds (s1 s2 : string) :
  (0 <= _string_similarity s1 s2)%Q /\ (_string_similarity s1 s2 <= 1)%Q.
Proof.
  unfold _string_similarity.
  destruct (negb (truthy s1) || negb (truthy s2)); [split; lra |].
  destruct (_ && _); [split; lra |].
  destruct (_ || _); [split; lra |].
  destruct (Nat.ltb_spec 0 (size (get_bigrams s1 ∪ get_bigrams s2))) as [Hu | _];
    [| split; lra].
  assert (Hle : size (get_bigrams s1 ∩ get_bigrams s2)
                <= size (get_bigrams s1 ∪ get_bigrams s2))
    by (apply subseteq_size; set_solver).
  unfold Qle. simpl.
  rewrite <- (positive_nat_Z (Pos.of_nat _)), Nat2Pos.id by lia.
  split; lia.
Qed.

(** X1: the string similarity always lies between 0 and 1; two strings of
    one character each have similarity 1.0 whatever the characters are, and
    a string of one character has similarity 0.0 with any string of two or
    more. *)
Theorem string_similarity_range_and_short_strings (s1 s2 : string) (a b c d : ascii) :
  (0 <= _string_similarity s1 s2)%Q /\ (_string_similarity s1 s2 <= 1)%Q
  /\ _string_similarity (String a EmptyString) (String b EmptyString) = 1%Q
  /\ _string_similarity (String a EmptyString) (String c (String d s2)) = 0%Q.
Proof.
  split; [apply string_similarity_bounds |].
  split; [apply string_similarity_bounds |].
  split; [reflexivity |].
  unfold _string_similarity. simpl.
  destruct (Nat.eqb_spec (size (get_bigrams (String c (String d s2)))) 0) as [E | _].
  - exfalso. exact (bigrams_long _ _ _ E).
  - reflexivity.
Qed.

(** *** similarity_score *)

Lemma Qltb_08_zero : Qltb 0.8 0 = false.
Proof. reflexivity. Qed.

(** X2: [similarity_score] lies between 0 and 1, is symmetric, is 0.0
    against a missing record, and a record whose normalised title and
    artist are both non-empty scores 0.0 against itself (it is taken for a
    duplicate). *)
Theorem similarity_score_laws (m o : MusicMetadata) :
  (0 <= similarity_score m (Some o))%Q /\ (similarity_score m (Some o) <= 1)%Q
  /\ similarity_score m (Some o) = similarity_score o (Some m)
  /\ similarity_score m None = 0%Q
  /\ (normalized_title m <> "" -> normalized_artist m <> "" ->
      similarity_score m (Some m) = 0%Q).
Proof.
  assert (Hr : (0 <= similarity_score m (Some o) <= 1)%Q).
  { unfold similarity_score.
    pose proof (string_similarity_bounds (normalized_title m) (normalized_title o)) as [? ?].
    pose proof (string_similarity_bounds (normalized_artist m) (normalized_artist o)) as [? ?].
    destruct (_ && _); split; lra. }
  split; [apply Hr |]. split; [apply Hr |].
  split.
  { unfold similarity_score.
    rewrite (sim_sym (normalized_title m)), (sim_sym (normalized_artist m)). reflexivity. }
  split; [reflexivity |].
  intros Ht Ha. unfold similarity_score.
  pose proof (sim_refl _ Ht) as Et. pose proof (sim_refl _ Ha) as Ea.
  assert (H1 : Qltb 0.8 (_string_similarity (normalized_artist m) (normalized_artist m)) = true).
  { unfold Qltb. destruct (Qlt_le_dec _ _); [reflexivity | lra]. }
  assert (H2 : Qltb 0.8 (_string_similarity (normalized_title m) (normalized_title m)) = true).
  { unfold Qltb. destruct (Qlt_le_dec _ _); [reflexivity | lra]. }
  rewrite H1, H2. reflexivity.
Qed.

Lemma similarity_score_laws_witness :
  similarity_score (mkMetadata "Song" "Band" "song" "band")
    (Some (mkMetadata "Song" "Band" "song" "band")) = 0%Q.
Proof.
  apply (similarity_score_laws (mkMetadata "Song" "Band" "song" "band")
           (mkMetadata "Other" "Else" "other" "else")); discriminate.
Defined.

(** *** Duplicate removal *)

Lemma split_colon_signature (a t : string) :
  exists a' t', split_colon (String.append a (String ":" t)) = Some (a', t').
Proof.
  induction a as [| c a IH]; simpl.
  - eauto.
  - destruct (Ascii.eqb c ":"); [eauto |].
    destruct IH as [a' [t' ->]]. eauto.
Qed.

(** Every element of the set is a signature that unpacks. *)
Definition all_split (seen : gset string) : Prop :=
  forall s, s ∈ seen -> exists a t, split_colon s = Some (a, t).

Lemma all_split_add (m : MusicMetadata) (seen : gset string) :
  all_split seen -> all_split ({[ signature m ]} ∪ seen).
Proof.
  intros H s Hs. apply elem_of_union in Hs. destruct Hs as [Hs | Hs].
  - apply elem_of_singleton in Hs. subst s. apply split_colon_signature.
  - apply H. exact Hs.
Qed.

Lemma is_duplicate_total (m : MusicMetadata) (l : list string) :
  (forall s, s ∈ l -> exists a t, split_colon s = Some (a, t)) ->
  exists b, is_duplicate m l = Some b.
Proof.
  induction l as [| s l IH]; intros H; simpl; [eauto |].
  destruct (H s) as [a [t ->]]; [apply list_elem_of_here |].
  destruct (near m a t); [eauto |].
  apply IH. intros s' Hs'. apply H. apply list_elem_of_further. exact Hs'.
Qed.

Lemma is_duplicate_false (m : MusicMetadata) (l : list string) :
  is_duplicate m l = Some false ->
  forall s a t, s ∈ l -> split_colon s = Some (a, t) -> near m a t = false.
Proof.
  induction l as [| s0 l IH]; intros H s a t Hs Hsplit.
  - inversion Hs.
  - simpl in H. destruct (split_colon s0) as [[a0 t0] |] eqn:E0; [| discriminate].
    destruct (near m a0 t0) eqn:En; [discriminate |].
    apply elem_of_cons in Hs. destruct Hs as [-> | Hs].
    + rewrite E0 in Hsplit. injection Hsplit as <- <-. exact En.
    + eapply IH; eassumption.
Qed.

Lemma is_duplicate_unknown_artist (m : MusicMetadata) (l : list string) :
  normalized_artist m = "" ->
  (forall s, s ∈ l -> exists a t, split_colon s = Some (a, t)) ->
  is_duplicate m l = Some false.
Proof.
  intros Ha. induction l as [| s l IH]; intros H; simpl; [reflexivity |].
  destruct (H s) as [a [t ->]]; [apply list_elem_of_here |].
  unfold near. rewrite Ha, sim_empty_l, Qltb_08_zero, andb_false_r.
  apply IH. intros s' Hs'. apply H. apply list_elem_of_further. exact Hs'.
Qed.

(** A later track is kept only if it is not near the signature of an
    earlier kept one. *)
Definition not_near_earlier (earlier later : Track) : Prop :=
  forall m m' a t,
    metadata earlier = Some m -> metadata later = Some m' ->
    split_colon (signature m) = Some (a, t) -> near m' a t = false.

Lemma dedup_loop_spec (l : list Track) (seen : gset string) :
  all_split seen ->
  exists u,
    dedup_loop l seen = Some u
    /\ sublist u l
    /\ Forall (fun t => metadata t <> None) u
    /\ (forall t m s a b, t ∈ u -> metadata t = Some m -> s ∈ seen ->
         split_colon s = Some (a, b) -> near m a b = false)
    /\ ForallOrdPairs not_near_earlier u
    /\ dedup_loop u seen = Some u.
Proof.
  revert seen. induction l as [| track l IH]; intros seen Hseen; simpl.
  - exists []. split; [reflexivity |]. split; [constructor |]. split; [constructor |].
    split; [intros ? ? ? ? ? Hin; inversion Hin |]. split; [constructor | reflexivity].
  - destruct (metadata track) as [m |] eqn:Em.
    + destruct (is_duplicate_total m (elements seen)) as [b Eb].
      { intros s Hs. apply Hseen. apply elem_of_elements. exact Hs. }
      rewrite Eb. destruct b.
      * destruct (IH seen Hseen) as [u [E [Hsub [Hm [Hn [Hp Hi]]]]]].
        exists u. split; [exact E |]. split; [apply sublist_cons; exact Hsub |].
        split; [exact Hm |]. split; [exact Hn |]. split; [exact Hp | exact Hi].
      * destruct (IH _ (all_split_add m seen Hseen)) as [u [E [Hsub [Hm [Hn [Hp Hi]]]]]].
        rewrite E. exists (track :: u).
        split; [reflexivity |]. split; [apply sublist_skip; exact Hsub |].
        split; [constructor; [congruence | exact Hm] |].
        split.
        { intros t m0 s a b Hin Hmt Hs Hsplit.
          apply elem_of_cons in Hin. destruct Hin as [-> | Hin].
          - rewrite Em in Hmt. injection Hmt as <-.
            eapply is_duplicate_false; [exact Eb | | exact Hsplit].
            apply elem_of_elements. exact Hs.
          - eapply Hn; [exact Hin | exact Hmt | | exact Hsplit].
            apply elem_of_union_r. exact Hs. }
        split.
        { constructor; [| exact Hp].
          apply Forall_forall. intros t Hin m0 m' a b Hm0 Hm' Hsplit.
          rewrite Em in Hm0. injection Hm0 as <-.
          eapply Hn; [exact Hin | exact Hm' | | exact Hsplit].
          apply elem_of_union_l, elem_of_singleton. reflexivity. }
        simpl. rewrite Em, Eb, Hi. reflexivity.
    + destruct (IH seen Hseen) as [u [E [Hsub [Hm [Hn [Hp Hi]]]]]].
      exists u. split; [exact E |]. split; [apply sublist_cons; exact Hsub |].
      split; [exact Hm |]. split; [exact Hn |]. split; [exact Hp | exact Hi].
Qed.

Lemma all_split_empty : all_split ∅.
Proof. intros s Hs. set_solver. Qed.

(** X3: [_remove_duplicates] never fails on unpacking a signature. What it
    returns is a sub-sequence of its input in the input's order, holds only
    tracks with metadata, holds no track that is near (title and artist
    similarity both above 0.8) the signature of a track kept before it, and
    is left as it is by a second pass. *)
Theorem remove_duplicates_sound (l : list Track) :
  exists u,
    _remove_duplicates l = Some u
    /\ sublist u l
    /\ Forall (fun t => metadata t <> None) u
    /\ ForallOrdPairs not_near_earlier u
    /\ _remove_duplicates u = Some u.
Proof.
  destruct (dedup_loop_spec l ∅ all_split_empty) as [u [E [Hsub [Hm [_ [Hp Hi]]]]]].
  exists u. unfold _remove_duplicates. tauto.
Qed.

Lemma dedup_loop_unknown_artists (l : list Track) (seen : gset string) :
  all_split seen ->
  (forall t m, t ∈ l -> metadata t = Some m -> normalized_artist m = "") ->
  dedup_loop l seen
  = Some (List.filter (fun t => match metadata t with Some _ => true | None => false end) l).
Proof.
  revert seen. induction l as [| track l IH]; intros seen Hseen H; simpl; [reflexivity |].
  assert (Hrest : forall t m, t ∈ l -> metadata t = Some m -> normalized_artist m = "").
  { intros t m Hin. apply H. apply list_elem_of_further. exact Hin. }
  destruct (metadata track) as [m |] eqn:Em.
  - rewrite is_duplicate_unknown_artist.
    + rewrite (IH _ (all_split_add m seen Hseen) Hrest). reflexivity.
    + apply (H track m); [apply list_elem_of_here | exact Em].
    + intros s Hs. apply Hseen. apply elem_of_elements. exact Hs.
  - apply IH; assumption.
Qed.

(** X4: tracks whose normalised artist is empty are never taken for
    duplicates, not even of each other: on a list in which every track with
    metadata has an empty normalised artist, [_remove_duplicates] only
    drops the tracks without metadata. *)
Theorem unknown_artists_are_never_duplicates (l : list Track) :
  (forall t m, t ∈ l -> metadata t = Some m -> normalized_artist m = "") ->
  _remove_duplicates l
  = Some (List.filter (fun t => match metadata t with Some _ => true | None => false end) l).
Proof. intros H. apply dedup_loop_unknown_artists; [apply all_split_empty | exact H]. Qed.

Definition untitled (i : string) : Track :=
  mkTrack (Some i) "same title" None None (Some (mkMetadata "same title" "" "same title" "")).

Lemma unknown_artists_are_never_duplicates_witness :
  _remove_duplicates [untitled "v1"; untitled "v2"] = Some [untitled "v1"; untitled "v2"].
Proof.
  apply (unknown_artists_are_never_duplicates [untitled "v1"; untitled "v2"]).
  intros t m Hin Hm.
  apply elem_of_cons in Hin. destruct Hin as [-> | Hin].
  - injection Hm as <-. reflexivity.
  - apply elem_of_cons in Hin. destruct Hin as [-> | Hin].
    + injection Hm as <-. reflexivity.
    + inversion Hin.
Defined.

End Dedup.

(** ** smart_queue.py: more on ListeningHistory *)

Module HistoryFacts.

Import History.

(** Every recorded artist has a preference between 0 and 1. *)
Definition scores_in_unit (h : ListeningHistory) : Prop :=
  forall a e, artists h !! a = Some e ->
    (0 <= preference_score e)%Q /\ (preference_score e <= 1)%Q.

Lemma scores_in_unit_insert (h h' : ListeningHistory) (a : string) (e : ArtistStats) :
  scores_in_unit h ->
  artists h' = <[a := e]> (artists h) ->
  (0 <= preference_score e)%Q /\ (preference_score e <= 1)%Q ->
  scores_in_unit h'.
Proof.
  intros Hh Eh He b e' Hb. rewrite Eh in Hb.
  destruct (decide (a = b)) as [-> | Hne].
  - rewrite lookup_insert_eq in Hb. injection Hb as <-. exact He.
  - rewrite lookup_insert_ne in Hb by exact Hne. apply (Hh b). exact Hb.
Qed.

Lemma record_play_in_unit (h : ListeningHistory) (t : Track) (dp : option Z) (now : Z) :
  scores_in_unit h -> scores_in_unit (record_play h t dp now).
Proof.
  intros Hh. unfold record_play.
  destruct (id t) as [i |]; [| exact Hh].
  destruct (negb (truthy i)); [exact Hh |].
  destruct (truthy _).
  - eapply scores_in_unit_insert; [exact Hh | reflexivity |]. simpl.
    destruct (artists h !! _) as [e |] eqn:E.
    + destruct (Hh _ _ E) as [H0 H1]. unfold py_min.
      destruct (Qlt_le_dec _ _); split; lra.
    + simpl. unfold py_min. destruct (Qlt_le_dec _ _); split; lra.
  - intros a e Ha. apply (Hh a). exact Ha.
Qed.

Lemma record_skip_in_unit (h : ListeningHistory) (t : Track) (tp : Z) :
  scores_in_unit h -> scores_in_unit (record_skip h t tp).
Proof.
  intros Hh. unfold record_skip.
  destruct (id t) as [i |]; [| exact Hh].
  destruct (negb (truthy i)); [exact Hh |].
  destruct (tracks h !! i) as [d |]; [| exact Hh].
  destruct (known_artist t) as [a |]; [| intros b e Hb; apply (Hh b); exact Hb].
  simpl. destruct (artists h !! a) as [e |] eqn:E;
    [| intros b e' Hb; apply (Hh b); exact Hb].
  destruct (Qltb _ _); [| intros b e' Hb; apply (Hh b); exact Hb].
  eapply scores_in_unit_insert; [exact Hh | reflexivity |]. simpl.
  destruct (Hh _ _ E) as [H0 H1]. unfold py_max.
  destruct (Qlt_le_dec _ _); split; lra.
Qed.

Lemma fresh_history_in_unit : scores_in_unit fresh_history.
Proof. intros a e H. simpl in H. rewrite lookup_empty in H. discriminate. Qed.

(** X5: the preference scores stay between 0 and 1: the starting history
    has the property, and [record_play] and [record_skip] keep it, for
    every track, every played time and every clock reading. *)
Theorem preference_scores_stay_in_unit
    (h : ListeningHistory) (t : Track) (dp : option Z) (now tp : Z) :
  scores_in_unit fresh_history
  /\ (scores_in_unit h ->
      scores_in_unit (record_play h t dp now)
      /\ scores_in_unit (record_skip h t tp)).
Proof.
  split; [apply fresh_history_in_unit |].
  intros Hh. split; [apply record_play_in_unit | apply record_skip_in_unit]; exact Hh.
Qed.

Lemma preference_scores_stay_in_unit_witness :
  scores_in_unit (record_skip (record_play fresh_history demo_track (Some 30%Z) 1000)
                    demo_track 5).
Proof.
  apply (preference_scores_stay_in_unit
           (record_play fresh_history demo_track (Some 30%Z) 1000) demo_track None 0 5).
  apply (preference_scores_stay_in_unit fresh_history demo_track (Some 30%Z) 1000 0).
  apply fresh_history_in_unit.
Defined.

(** *** What a play and a skip leave alone *)

Lemma record_play_other_track (h : ListeningHistory) (t : Track) (dp : option Z)
    (now : Z) (j : string) :
  id t <> Some j -> tracks (record_play h t dp now) !! j = tracks h !! j.
Proof.
  intros Hj. unfold record_play.
  destruct (id t) as [i |]; [| reflexivity].
  destruct (negb (truthy i)); [reflexivity |].
  assert (i <> j) by congruence.
  destruct (truthy _); simpl; apply lookup_insert_ne; assumption.
Qed.

Lemma record_skip_other_track (h : ListeningHistory) (t : Track) (tp : Z) (j : string) :
  id t <> Some j -> tracks (record_skip h t tp) !! j = tracks h !! j.
Proof.
  intros Hj. unfold record_skip.
  destruct (id t) as [i |]; [| reflexivity].
  destruct (negb (truthy i)); [reflexivity |].
  assert (i <> j) by congruence.
  destruct (tracks h !! i); [| reflexivity].
  destruct (known_artist t); simpl; [| apply lookup_insert_ne; assumption].
  destruct (artists h !! _); [| simpl; apply lookup_insert_ne; assumption].
  destruct (Qltb _ _); simpl; apply lookup_insert_ne; assumption.
Qed.

Lemma known_artist_spec (t : Track) (b : string) :
  known_artist t <> Some b ->
  forall m, metadata t = Some m -> truthy (artist m) = true -> artist m <> b.
Proof.
  intros H m Hm Ht E. apply H. unfold known_artist. rewrite Hm, Ht. congruence.
Qed.

Lemma record_play_other_artist (h : ListeningHistory) (t : Track) (dp : option Z)
    (now : Z) (b : string) :
  known_artist t <> Some b -> artists (record_play h t dp now) !! b = artists h !! b.
Proof.
  intros Hb. unfold record_play.
  destruct (id t) as [i |]; [| reflexivity].
  destruct (negb (truthy i)); [reflexivity |].
  destruct (metadata t) as [m |] eqn:Em; simpl; [| reflexivity].
  destruct (truthy (artist m)) eqn:Et; simpl; [| reflexivity].
  apply lookup_insert_ne. apply (known_artist_spec t b Hb m Em Et).
Qed.

Lemma record_skip_other_artist (h : ListeningHistory) (t : Track) (tp : Z) (b : string) :
  known_artist t <> Some b -> artists (record_skip h t tp) !! b = artists h !! b.
Proof.
  intros Hb. unfold record_skip.
  destruct (id t) as [i |]; [| reflexivity].
  destruct (negb (truthy i)); [reflexivity |].
  destruct (tracks h !! i); [| reflexivity].
  destruct (known_artist t) as [a |]; simpl; [| reflexivity].
  destruct (artists h !! a); [| reflexivity].
  destruct (Qltb _ _); simpl; [| reflexivity].
  apply lookup_insert_ne. congruence.
Qed.

Lemma record_skip_domains (h : ListeningHistory) (t : Track) (tp : Z) :
  dom (tracks (record_skip h t tp)) = dom (tracks h)
  /\ dom (artists (record_skip h t tp)) = dom (artists h).
Proof.
  unfold record_skip.
  destruct (id t) as [i |]; [| split; reflexivity].
  destruct (negb (truthy i)); [split; reflexivity |].
  destruct (tracks h !! i) as [d |] eqn:Ed; [| split; reflexivity].
  assert (Hi : i ∈ dom (tracks h)) by (apply elem_of_dom; eauto).
  assert (Ht : forall d', dom (<[i := d']> (tracks h)) = dom (tracks h))
    by (intros d'; rewrite dom_insert_L; set_solver).
  destruct (known_artist t) as [a |]; simpl; [| split; [apply Ht | reflexivity]].
  destruct (artists h !! a) as [e |] eqn:Ee; [| split; [apply Ht | reflexivity]].
  destruct (Qltb _ _); simpl; (split; [apply Ht |]); [| reflexivity].
  assert (Ha : a ∈ dom (artists h)) by (apply elem_of_dom; eauto).
  rewrite dom_insert_L. set_solver.
Qed.

(** X6: a play or a skip of one track leaves the statistics of every other
    track and the entry of every other artist as they were; a skip never
    creates an entry (the recorded tracks and artists are the same before
    and after); and for a track without an identifier, or with an empty
    one, both calls leave the history unchanged. *)
Theorem history_updates_are_local
    (h : ListeningHistory) (t : Track) (dp : option Z) (now tp : Z) (j b : string) :
  (id t <> Some j ->
   tracks (record_play h t dp now) !! j = tracks h !! j
   /\ tracks (record_skip h t tp) !! j = tracks h !! j)
  /\ (known_artist t <> Some b ->
      artists (record_play h t dp now) !! b = artists h !! b
      /\ artists (record_skip h t tp) !! b = artists h !! b)
  /\ dom (tracks (record_skip h t tp)) = dom (tracks h)
  /\ dom (artists (record_skip h t tp)) = dom (artists h)
  /\ (has_id t = false ->
      record_play h t dp now = h /\ record_skip h t tp = h).
Proof.
  split.
  { intros H. split; [apply record_play_other_track | apply record_skip_other_track];
      exact H. }
  split.
  { intros H. split; [apply record_play_other_artist | apply record_skip_other_artist];
      exact H. }
  split; [apply record_skip_domains |]. split; [apply record_skip_domains |].
  intros H. unfold has_id in H. unfold record_play, record_skip.
  destruct (id t) as [i |]; [| split; reflexivity].
  rewrite H. split; reflexivity.
Qed.

Lemma history_updates_are_local_witness :
  tracks (record_play (demo_history 0.5) demo_track None 2000) !! "other"
  = tracks (demo_history 0.5) !! "other".
Proof.
  apply (history_updates_are_local (demo_history 0.5) demo_track None 2000 0 "other" "x").
  discriminate.
Defined.

(** *** Counting plays *)

(** [n] calls of [record_play] for the same track in a row. *)
Fixpoint plays (n : nat) (h : ListeningHistory) (t : Track) (dp : option Z) (now : Z)
    : ListeningHistory :=
  match n with
  | O => h
  | S n' => plays n' (record_play h t dp now) t dp now
  end.

(** The statistics of a track, or the ones a first play starts from. *)
Definition stats_or_new (h : ListeningHistory) (t : Track) (i : string) : TrackStats :=
  match tracks h !! i with
  | Some d => d
  | None =>
      mkTrackStats 0 0 0 0 (title t)
        (match metadata t with Some m => artist m | None => "" end)
  end.

Lemma record_play_stats (h : ListeningHistory) (t : Track) (i : string)
    (dp : option Z) (now : Z) :
  id t = Some i -> i <> "" ->
  tracks (record_play h t dp now) !! i
  = Some {| play_count := play_count (stats_or_new h t i) + 1;
            skip_count := skip_count (stats_or_new h t i);
            last_played := now;
            total_duration_played :=
              total_duration_played (stats_or_new h t i) + played_seconds dp;
            ts_title := ts_title (stats_or_new h t i);
            ts_artist := ts_artist (stats_or_new h t i) |}.
Proof.
  intros Hi Hne. apply truthy_true in Hne.
  unfold record_play, stats_or_new. rewrite Hi, Hne. simpl.
  destruct (truthy (match metadata t with Some m => artist m | None => "" end));
    simpl; rewrite lookup_insert_eq; reflexivity.
Qed.

(** X7: [n >= 1] plays in a row of a track with a non-empty identifier add
    [n] to its play count and [n] times the played seconds to its total,
    leave its skip count alone, set its last-played time to the clock
    reading, and keep the title and artist stored by the first play ever
    recorded for that identifier. *)
Theorem repeated_plays_count (n : nat) (h : ListeningHistory) (t : Track) (i : string)
    (dp : option Z) (now : Z) :
  id t = Some i -> i <> "" ->
  exists st,
    tracks (plays (S n) h t dp now) !! i = Some st
    /\ play_count st = (play_count (stats_or_new h t i) + Z.of_nat (S n))%Z
    /\ total_duration_played st
       = (total_duration_played (stats_or_new h t i)
          + Z.of_nat (S n) * played_seconds dp)%Z
    /\ skip_count st = skip_count (stats_or_new h t i)
    /\ last_played st = now
    /\ ts_title st = ts_title (stats_or_new h t i)
    /\ ts_artist st = ts_artist (stats_or_new h t i).
Proof.
  intros Hi Hne. revert h.
  induction n as [| n IH]; intros h.
  - simpl plays. rewrite (record_play_stats h t i dp now Hi Hne).
    eexists. split; [reflexivity |]. simpl. repeat split; lia.
  - change (plays (S (S n)) h t dp now) with (plays (S n) (record_play h t dp now) t dp now).
    destruct (IH (record_play h t dp now)) as [st [E [Hp [Ht [Hs [Hl [Hti Ha]]]]]]].
    exists st. split; [exact E |].
    assert (Hnew : stats_or_new (record_play h t dp now) t i
                   = {| play_count := play_count (stats_or_new h t i) + 1;
                        skip_count := skip_count (stats_or_new h t i);
                        last_played := now;
                        total_duration_played :=
                          total_duration_played (stats_or_new h t i) + played_seconds dp;
                        ts_title := ts_title (stats_or_new h t i);
                        ts_artist := ts_artist (stats_or_new h t i) |}).
    { unfold stats_or_new at 1. rewrite (record_play_stats h t i dp now Hi Hne). reflexivity. }
    rewrite Hnew in Hp, Ht, Hs, Hti, Ha. simpl in *.
    repeat split; try assumption; lia.
Qed.

Lemma repeated_plays_count_witness :
  exists st,
    tracks (plays 3 fresh_history demo_track (Some 100%Z) 5000) !! "v1" = Some st
    /\ play_count st = 3%Z.
Proof.
  destruct (repeated_plays_count 2 fresh_history demo_track "v1" (Some 100%Z) 5000)
    as [st [E [Hp _]]]; [reflexivity | discriminate |].
  exists st. split; [exact E | exact Hp].
Defined.

End HistoryFacts.

(** ** smart_queue.py: more on SmartQueue *)

Module QueueFacts.

Import History.
Import Queue.

(** [n] calls of [get_next_track] in a row, with what each returned. *)
Fixpoint pull_many (n : nat) (q : SmartQueue) (now : Q)
    : Rand (list (option Track) * SmartQueue) :=
  match n with
  | O => ret ([], q)
  | S n' =>
      let* (r, q1) := get_next_track q now in
      let* (rs, q2) := pull_many n' q1 now in
      ret (r :: rs, q2)
  end.

(** [add_track]; [random.randint(0, n)] is an integer in [range(n + 1)]. *)
Definition add_track (q : SmartQueue) (track : Track) (priority : bool)
    (position : string) : Rand SmartQueue :=
  if priority then
    if String.eqb position "next"
    then _reorganize_queue (set_priority_queue q (track :: priority_queue q))
    else _reorganize_queue (set_priority_queue q (priority_queue q ++ [track]))
  else
    if String.eqb position "next"
    then _reorganize_queue (set_main_queue q (insert_at 0 track (main_queue q)))
    else if String.eqb position "random" then
      let* pos := randbelow (length (main_queue q) + 1) in
      _reorganize_queue (set_main_queue q (insert_at pos track (main_queue q)))
    else _reorganize_queue (set_main_queue q (main_queue q ++ [track])).

(** *** The priority tier is served first, in order *)

Lemma pull_from_priority (q : SmartQueue) (now : Q) (tape : Tape) (t : Track)
    (rest : list Track) :
  priority_queue q = t :: rest ->
  get_next_track q now tape
  = (Some t, _mark_as_played (set_priority_queue q rest) t, tape).
Proof. intros E. unfold get_next_track. rewrite E. reflexivity. Qed.

Lemma priority_drain (p : list Track) (q : SmartQueue) (now : Q) (tape : Tape) :
  priority_queue q = p ->
  exists q',
    pull_many (length p) q now tape = (map Some p, q', tape)
    /\ priority_queue q' = []
    /\ main_queue q' = main_queue q
    /\ current_index q' = current_index q
    /\ shuffle_mode q' = shuffle_mode q
    /\ last_played_track q' = last_played_track q
    /\ played_tracks q ⊆ played_tracks q'.
Proof.
  revert q. induction p as [| t rest IH]; intros q Hp; simpl.
  - exists q. repeat split; [exact Hp | reflexivity].
  - unfold bind. rewrite (pull_from_priority q now tape t rest Hp).
    set (q1 := _mark_as_played (set_priority_queue q rest) t).
    destruct (mark_as_played_fields (set_priority_queue q rest) t)
      as [_ [Hc [Hmode [Hprio [Hmain Hlast]]]]].
    destruct (IH q1) as [q' [E [H1 [H2 [H3 [H4 [H5 H6]]]]]]]; [exact Hprio |].
    rewrite E. exists q'.
    split; [reflexivity |]. split; [exact H1 |].
    split; [rewrite H2; exact Hmain |]. split; [rewrite H3; exact Hc |].
    split; [rewrite H4; exact Hmode |]. split; [rewrite H5; exact Hlast |].
    etransitivity; [| exact H6].
    apply (mark_as_played_grows (set_priority_queue q rest) t).
Qed.

(** X8: whatever the shuffle mode and the random source, the first pulls
    return the priority tier in its order, one track per pull, without
    drawing a random number and without touching the main tier, the cursor
    or [last_played_track]; the main tier is consulted only after that. *)
Theorem priority_tier_is_served_first_in_order (q : SmartQueue) (now : Q) (tape : Tape) :
  exists q',
    pull_many (length (priority_queue q)) q now tape
    = (map Some (priority_queue q), q', tape)
    /\ priority_queue q' = []
    /\ main_queue q' = main_queue q
    /\ current_index q' = current_index q
    /\ last_played_track q' = last_played_track q.
Proof.
  destruct (priority_drain (priority_queue q) q now tape eq_refl)
    as [q' [E [H1 [H2 [H3 [_ [H5 _]]]]]]].
  exists q'. tauto.
Qed.

(** *** Sequential mode *)

Lemma pull_sequential (q : SmartQueue) (now : Q) (tape : Tape) :
  priority_queue q = [] -> shuffle_mode q = "sequential" ->
  get_next_track q now tape = (_get_next_sequential q, tape).
Proof. intros Hp Hm. unfold get_next_track. rewrite Hp, Hm. reflexivity. Qed.

Lemma sequential_drain (rest : list Track) (q : SmartQueue) (now : Q) (tape : Tape) :
  priority_queue q = [] -> shuffle_mode q = "sequential" ->
  drop (current_index q) (main_queue q) = rest ->
  exists q',
    pull_many (length rest) q now tape = (map Some rest, q', tape)
    /\ priority_queue q' = [] /\ shuffle_mode q' = "sequential"
    /\ main_queue q' = main_queue q
    /\ current_index q' = current_index q + length rest.
Proof.
  revert q. induction rest as [| t rest IH]; intros q Hp Hm Hd; simpl.
  - exists q. repeat split; try assumption. lia.
  - assert (Ht : main_queue q !! current_index q = Some t).
    { rewrite <- (Nat.add_0_r (current_index q)), <- lookup_drop, Hd. reflexivity. }
    unfold bind. rewrite (pull_sequential q now tape Hp Hm).
    unfold _get_next_sequential. rewrite Ht.
    set (q0 := set_current_index q (current_index q + 1)).
    destruct (mark_as_played_fields q0 t) as [_ [Hc [Hmode [Hprio [Hmain _]]]]].
    destruct (IH (_mark_as_played q0 t)) as [q' [E [H1 [H2 [H3 H4]]]]].
    + rewrite Hprio. exact Hp.
    + rewrite Hmode. exact Hm.
    + rewrite Hc, Hmain. simpl.
      replace (current_index q + 1) with (S (current_index q)) by lia.
      rewrite (drop_S _ _ _ Ht) in Hd. injection Hd as Hd. exact Hd.
    + rewrite E. exists q'. split; [reflexivity |].
      split; [exact H1 |]. split; [exact H2 |].
      split; [rewrite H3; exact Hmain |].
      rewrite H4, Hc. simpl. lia.
Qed.

(** X9: in sequential mode with an empty priority tier, pulling as many
    times as there are entries from the cursor on returns exactly those
    entries in the order of the main tier, the main tier itself stays as it
    is, and the next pull returns empty. *)
Theorem sequential_mode_exhausts_in_order (q : SmartQueue) (now : Q) (tape : Tape) :
  priority_queue q = [] -> shuffle_mode q = "sequential" ->
  let rest := drop (current_index q) (main_queue q) in
  exists q',
    pull_many (length rest) q now tape = (map Some rest, q', tape)
    /\ main_queue q' = main_queue q
    /\ get_next_track q' now tape = (None, q', tape).
Proof.
  intros Hp Hm rest.
  destruct (sequential_drain rest q now tape Hp Hm eq_refl) as [q' [E [H1 [H2 [H3 H4]]]]].
  exists q'. split; [exact E |]. split; [exact H3 |].
  rewrite (pull_sequential q' now tape H1 H2).
  unfold _get_next_sequential.
  assert (Hnone : main_queue q' !! current_index q' = None).
  { apply lookup_ge_None. rewrite H3, H4. unfold rest. rewrite length_drop. lia. }
  rewrite Hnone. reflexivity.
Qed.

Lemma sequential_mode_exhausts_in_order_witness :
  exists q',
    pull_many 2
      (sample_queue "sequential" [] [sample_track "a" "A"; sample_track "b" "B"] 0) 0 []
    = ([Some (sample_track "a" "A"); Some (sample_track "b" "B")], q', [])
    /\ get_next_track q' 0 [] = (None, q', []).
Proof.
  destruct (sequential_mode_exhausts_in_order
              (sample_queue "sequential" [] [sample_track "a" "A"; sample_track "b" "B"] 0)
              0 [] eq_refl eq_refl) as [q' [E [_ H]]].
  exists q'. split; [exact E | exact H].
Defined.

(** *** Random, smart and mood mode do not repeat a track *)

Lemma not_played_mono (s s' : gset string) (t : Track) :
  s ⊆ s' -> not_played s' t = true -> not_played s t = true.
Proof.
  intros Hs. unfold not_played. destruct (id t) as [i |]; [| reflexivity].
  rewrite !bool_decide_eq_true. set_solver.
Qed.

Lemma filter_length_le {A : Type} (f g : A -> bool) (l : list A) :
  (forall y, f y = true -> g y = true) ->
  length (List.filter f l) <= length (List.filter g l).
Proof.
  intros H. induction l as [| y l IH]; simpl; [lia |].
  destruct (f y) eqn:Ef.
  - rewrite (H y Ef). simpl. lia.
  - destruct (g y); simpl; lia.
Qed.

Lemma filter_length_lt {A : Type} (f g : A -> bool) (l : list A) (x : A) :
  (forall y, f y = true -> g y = true) ->
  x ∈ l -> g x = true -> f x = false ->
  length (List.filter f l) < length (List.filter g l).
Proof.
  intros H Hx Hg Hf. induction l as [| y l IH]; [inversion Hx |].
  apply elem_of_cons in Hx. simpl. destruct Hx as [<- | Hx].
  - rewrite Hf, Hg. simpl. pose proof (filter_length_le f g l H). lia.
  - specialize (IH Hx). destruct (f y) eqn:Ef.
    + rewrite (H y Ef). simpl. lia.
    + destruct (g y); simpl; lia.
Qed.

Lemma available_elem (q : SmartQueue) (t : Track) :
  t ∈ available q <-> t ∈ main_queue q /\ not_played (played_tracks q) t = true.
Proof.
  unfold available. rewrite !list_elem_of_In, filter_In. reflexivity.
Qed.

(** Marking a track with an identifier takes it out of the available ones. *)
Lemma available_after_mark (q q' : SmartQueue) (t : Track) :
  main_queue q' = main_queue q ->
  played_tracks q' = played_tracks (_mark_as_played q t) ->
  t ∈ available q ->
  has_id t = true ->
  not_played (played_tracks q') t = false
  /\ length (available q') < length (available q).
Proof.
  intros Hmain Hplayed Hin Hid.
  apply available_elem in Hin. destruct Hin as [Hin Hnp].
  destruct (mark_as_played_grows q t) as [Hsub Hmem].
  rewrite <- Hplayed in Hsub, Hmem.
  assert (Hnow : not_played (played_tracks q') t = false).
  { unfold has_id in Hid. unfold not_played.
    destruct (id t) as [i |] eqn:Ei; [| discriminate].
    apply bool_decide_eq_false. intros Hni. apply Hni.
    apply (Hmem i eq_refl). apply truthy_true. exact Hid. }
  split; [exact Hnow |].
  unfold available. rewrite Hmain.
  apply (filter_length_lt _ _ _ t); try assumption.
  intros y. apply not_played_mono. exact Hsub.
Qed.

(** X10: with an empty priority tier, a pull in random, smart or mood mode
    returns a track of the main tier whose identifier is not in the played
    set, and leaves the main tier as it is; when the track has a non-empty
    identifier it is not available afterwards, so the number of available
    tracks has gone down. *)
Theorem shuffled_pull_does_not_repeat
    (q q' : SmartQueue) (now : Q) (tape tape' : Tape) (t : Track) :
  priority_queue q = [] ->
  shuffle_mode q = "random" \/ shuffle_mode q = "smart" \/ shuffle_mode q = "mood" ->
  get_next_track q now tape = (Some t, q', tape') ->
  t ∈ main_queue q
  /\ not_played (played_tracks q) t = true
  /\ main_queue q' = main_queue q
  /\ (has_id t = true ->
      not_played (played_tracks q') t = false
      /\ length (available q') < length (available q)).
Proof.
  intros Hp Hmode Hpull.
  assert (Hcore : t ∈ available q
                  /\ main_queue q' = main_queue q
                  /\ played_tracks q' = played_tracks (_mark_as_played q t)).
  { unfold get_next_track in Hpull. rewrite Hp in Hpull.
    destruct Hmode as [Hm | [Hm | Hm]]; rewrite Hm in Hpull; simpl in Hpull.
    - pose proof (next_random_spec q tape) as H. rewrite Hpull in H. simpl in H.
      destruct H as [Hin ->]. split; [exact Hin |].
      split; [apply mark_as_played_fields | reflexivity].
    - pose proof (next_smart_spec q now tape) as H. rewrite Hpull in H. simpl in H.
      destruct H as [Hin ->]. split; [exact Hin |].
      split; [apply mark_as_played_fields | reflexivity].
    - rewrite next_mood_is_smart in Hpull.
      pose proof (next_smart_spec q now tape) as H. rewrite Hpull in H. simpl in H.
      destruct H as [Hin ->]. split; [exact Hin |].
      split; [apply mark_as_played_fields | reflexivity]. }
  destruct Hcore as [Hin [Hmain Hplayed]].
  pose proof (proj1 (available_elem q t) Hin) as [Hm Hnp].
  split; [exact Hm |]. split; [exact Hnp |]. split; [exact Hmain |].
  intros Hid. apply (available_after_mark q q' t); assumption.
Qed.

Lemma shuffled_pull_does_not_repeat_witness :
  let q := sample_queue "random" [] [sample_track "a" "A"; sample_track "b" "B"] 0 in
  let q' := snd (fst (get_next_track q 0 [1])) in
  length (available q') < length (available q).
Proof.
  cbv zeta.
  apply (shuffled_pull_does_not_repeat
           (sample_queue "random" [] [sample_track "a" "A"; sample_track "b" "B"] 0)
           _ 0 [1] [] (sample_track "b" "B")); try reflexivity.
  left. reflexivity.
Defined.

(** *** Session reset *)

Lemma filter_all {A : Type} (f : A -> bool) (l : list A) :
  (forall x, f x = true) -> List.filter f l = l.
Proof.
  intros H. induction l as [| x l IH]; simpl; [reflexivity |].
  rewrite H, IH. reflexivity.
Qed.

(** X11: [clear_played_history] empties the played set and puts the cursor
    back to 0, so every track of the main tier is available again; it
    leaves both tiers, the mode and [last_played_track] as they are. *)
Theorem clear_played_history_makes_all_available (q : SmartQueue) :
  let q' := clear_played_history q in
  played_tracks q' = ∅
  /\ current_index q' = 0
  /\ available q' = main_queue q
  /\ priority_queue q' = priority_queue q
  /\ main_queue q' = main_queue q
  /\ shuffle_mode q' = shuffle_mode q
  /\ last_played_track q' = last_played_track q.
Proof.
  cbv zeta. repeat split.
  unfold available. simpl. apply filter_all.
  intros t. unfold not_played. destruct (id t); [| reflexivity].
  apply bool_decide_eq_true. set_solver.
Qed.

(** *** Removing and moving *)

Lemma find_index_None (track_id : string) (l : list Track) :
  find_index track_id l = None <-> forall t, t ∈ l -> id t <> Some track_id.
Proof.
  induction l as [| t l IH]; simpl.
  - split; [intros _ t Ht; inversion Ht | reflexivity].
  - unfold id_is at 1. split.
    + intros H u Hu. apply elem_of_cons in Hu.
      destruct (id t) as [i |] eqn:Ei.
      * destruct (String.eqb_spec i track_id) as [-> | Hne]; [discriminate |].
        destruct (find_index track_id l) eqn:Ef; [discriminate |].
        destruct Hu as [-> | Hu]; [congruence | apply IH; [reflexivity | exact Hu]].
      * destruct (find_index track_id l) eqn:Ef; [discriminate |].
        destruct Hu as [-> | Hu]; [congruence | apply IH; [reflexivity | exact Hu]].
    + intros H.
      assert (Ht : id t <> Some track_id) by (apply H; apply list_elem_of_here).
      assert (Hl : find_index track_id l = None).
      { apply IH. intros u Hu. apply H. apply list_elem_of_further. exact Hu. }
      rewrite Hl. destruct (id t) as [i |]; [| reflexivity].
      destruct (String.eqb_spec i track_id); [congruence | reflexivity].
Qed.

Lemma find_index_lookup (track_id : string) (l : list Track) (i : nat) :
  find_index track_id l = Some i ->
  exists t, l !! i = Some t /\ id t = Some track_id.
Proof.
  intros H. destruct (find_index_Some _ _ _ H) as [t [Ht Hid]].
  exists t. split; [exact Ht |]. unfold id_is in Hid.
  destruct (id t) as [j |]; [| discriminate].
  apply String.eqb_eq in Hid. congruence.
Qed.

Lemma length_delete_found {A : Type} (l : list A) (i : nat) (x : A) :
  l !! i = Some x -> S (length (delete i l)) = length l.
Proof.
  intros H. rewrite length_delete by eauto.
  apply lookup_lt_Some in H. lia.
Qed.

(** X12: [remove_track] returns [True] exactly when some track of the
    priority or the main tier carries the identifier; then the two tiers
    together hold one track less, and an identifier found in the priority
    tier leaves the main tier and the cursor alone. When it returns
    [False] the queue is unchanged. The played set is never touched. *)
Theorem remove_track_outcome (q : SmartQueue) (track_id : string) :
  let q' := snd (remove_track q track_id) in
  (fst (remove_track q track_id) = true
   <-> exists t, t ∈ priority_queue q ++ main_queue q /\ id t = Some track_id)
  /\ (fst (remove_track q track_id) = true -> S (total_tracks q') = total_tracks q)
  /\ (fst (remove_track q track_id) = false -> q' = q)
  /\ ((exists t, t ∈ priority_queue q /\ id t = Some track_id) ->
      main_queue q' = main_queue q /\ current_index q' = current_index q)
  /\ played_tracks q' = played_tracks q.
Proof.
  cbv zeta. unfold remove_track, total_tracks.
  destruct (find_index track_id (priority_queue q)) as [i |] eqn:Ep.
  - destruct (find_index_lookup _ _ _ Ep) as [t [Ht Hid]]. simpl.
    split.
    { split; [| reflexivity]. intros _. exists t. split; [| exact Hid].
      apply elem_of_app. left. apply (list_elem_of_lookup_2 _ i). exact Ht. }
    split; [intros _; rewrite <- (length_delete_found _ _ _ Ht); lia |].
    split; [discriminate |]. split; [split; reflexivity | reflexivity].
  - pose proof (proj1 (find_index_None _ _) Ep) as Hnp.
    destruct (find_index track_id (main_queue q)) as [i |] eqn:Em.
    + destruct (find_index_lookup _ _ _ Em) as [t [Ht Hid]].
      split.
      { split; [| reflexivity]. intros _. exists t. split; [| exact Hid].
        apply elem_of_app. right. apply (list_elem_of_lookup_2 _ i). exact Ht. }
      split.
      { intros _. destruct (Nat.ltb i _); simpl;
          rewrite <- (length_delete_found _ _ _ Ht); lia. }
      split; [discriminate |].
      split; [intros [u [Hu Hidu]]; exfalso; exact (Hnp u Hu Hidu) |].
      destruct (Nat.ltb i _); reflexivity.
    + pose proof (proj1 (find_index_None _ _) Em) as Hnm. simpl.
      split.
      { split; [discriminate |]. intros [t [Hin Hid]]. exfalso.
        apply elem_of_app in Hin. destruct Hin as [Hin | Hin];
          [exact (Hnp t Hin Hid) | exact (Hnm t Hin Hid)]. }
      split; [discriminate |]. split; [reflexivity |].
      split; [split; reflexivity | reflexivity].
Qed.

Lemma insert_at_perm {A : Type} (i : nat) (x : A) (l : list A) :
  insert_at i x l ≡ₚ x :: l.
Proof.
  unfold insert_at. rewrite <- Permutation_middle, take_drop. reflexivity.
Qed.

Lemma insert_at_lookup {A : Type} (i : nat) (x : A) (l : list A) :
  i <= length l -> insert_at i x l !! i = Some x.
Proof.
  intros H. unfold insert_at.
  rewrite lookup_app_r by (rewrite length_take; lia).
  rewrite length_take, Nat.min_l by exact H.
  rewrite Nat.sub_diag. reflexivity.
Qed.

(** X13: [move_track] looks in the main tier only. When the identifier is
    not there it returns [False] and changes nothing; when it is, the
    main tier afterwards is a permutation of what it was, with the moved
    track at the target index clamped between 0 and the last index, and
    the priority tier and the played set are untouched. *)
Theorem move_track_outcome (q : SmartQueue) (track_id : string) (new_position : Z) :
  let q' := snd (move_track q track_id new_position) in
  (find_index track_id (main_queue q) = None ->
   move_track q track_id new_position = (false, q))
  /\ (forall i, find_index track_id (main_queue q) = Some i ->
      exists t,
        main_queue q !! i = Some t
        /\ fst (move_track q track_id new_position) = true
        /\ main_queue q' ≡ₚ main_queue q
        /\ main_queue q'
             !! Z.to_nat (Z.max 0 (Z.min new_position
                                     (Z.of_nat (length (main_queue q)) - 1)))
           = Some t
        /\ priority_queue q' = priority_queue q
        /\ played_tracks q' = played_tracks q).
Proof.
  cbv zeta. split.
  - intros H. unfold move_track. rewrite H. reflexivity.
  - intros i Hi. destruct (find_index_Some _ _ _ Hi) as [t [Ht _]].
    exists t. split; [exact Ht |].
    pose proof (length_delete_found _ _ _ Ht) as Hlen.
    unfold move_track. rewrite Hi, Ht.
    set (l1 := delete i (main_queue q)) in *.
    assert (Hfields :
      forall qa : SmartQueue,
        main_queue qa = l1 -> priority_queue qa = priority_queue q ->
        played_tracks qa = played_tracks q ->
        let p := Z.to_nat (Z.max 0 (Z.min new_position (Z.of_nat (length (main_queue qa))))) in
        let qb := set_main_queue qa (insert_at p t (main_queue qa)) in
        let qc := if Nat.leb p (current_index qb)
                  then set_current_index qb (current_index qb + 1) else qb in
        main_queue qc ≡ₚ main_queue q
        /\ main_queue qc
             !! Z.to_nat (Z.max 0 (Z.min new_position
                                     (Z.of_nat (length (main_queue q)) - 1)))
           = Some t
        /\ priority_queue qc = priority_queue q
        /\ played_tracks qc = played_tracks q).
    { intros qa Hm Hpq Hpl p qb qc.
      assert (Hp : p = Z.to_nat (Z.max 0 (Z.min new_position
                                            (Z.of_nat (length (main_queue q)) - 1)))).
      { unfold p. rewrite Hm. f_equal. lia. }
      assert (Hple : p <= length l1) by (unfold p; rewrite Hm; lia).
      assert (Hmc : main_queue qc = insert_at p t l1).
      { unfold qc, qb. rewrite Hm. destruct (Nat.leb _ _); reflexivity. }
      rewrite Hmc, <- Hp.
      split; [rewrite insert_at_perm; symmetry; apply delete_Permutation; exact Ht |].
      split; [apply insert_at_lookup; exact Hple |].
      unfold qc, qb. destruct (Nat.leb _ _); simpl; split; assumption. }
    split.
    { repeat match goal with |- context [if ?b then _ else _] => destruct b end;
        reflexivity. }
    simpl snd.
    match goal with |- context [Nat.ltb i ?c] => destruct (Nat.ltb i c) end;
      apply Hfields; reflexivity.
Qed.

Lemma move_track_outcome_witness :
  move_track (sample_queue "smart" [sample_track "p" "P"] [sample_track "a" "A"] 0) "p" 0
  = (false, sample_queue "smart" [sample_track "p" "P"] [sample_track "a" "A"] 0).
Proof.
  apply (move_track_outcome
           (sample_queue "smart" [sample_track "p" "P"] [sample_track "a" "A"] 0) "p" 0).
  reflexivity.
Defined.

(** *** Insertion and mode changes *)

Lemma set_main_queue_same (q : SmartQueue) : set_main_queue q (main_queue q) = q.
Proof. destruct q. reflexivity. Qed.

Lemma reorganize_spec (q : SmartQueue) (tape : Tape) :
  exists l tape',
    _reorganize_queue q tape = (set_main_queue q l, tape')
    /\ l ≡ₚ main_queue q
    /\ (shuffle_mode q <> "smart" \/ length (main_queue q) < 3 ->
        l = main_queue q /\ tape' = tape).
Proof.
  unfold _reorganize_queue.
  destruct (String.eqb_spec (shuffle_mode q) "smart") as [E | E].
  - destruct (smart_shuffle_spec q tape) as [l [tape' [Es P]]].
    destruct (Nat.ltb_spec (length (main_queue q)) 3) as [Hlt | Hge].
    + exists (main_queue q), tape.
      unfold _smart_shuffle. apply Nat.ltb_lt in Hlt. rewrite Hlt.
      rewrite set_main_queue_same. repeat split; reflexivity.
    + exists l, tape'. split; [exact Es |]. split; [exact P |].
      intros [H | H]; [congruence | lia].
  - exists (main_queue q), tape. rewrite set_main_queue_same.
    repeat split; reflexivity.
Qed.

(** X14: [add_tracks] appends the new tracks to the chosen tier. The
    priority tier always receives them at its end, in order; the main tier
    afterwards is a permutation of its tracks (followed by the new ones
    when they went there), and outside smart mode, or with fewer than three
    tracks in it, it is in exactly that order and no random number is
    drawn. Played set, cursor and mode are untouched. *)
Theorem add_tracks_outcome
    (q : SmartQueue) (new_tracks : list Track) (priority : bool) (tape : Tape) :
  let q' := fst (add_tracks q new_tracks priority tape) in
  let main_in := if priority then main_queue q else main_queue q ++ new_tracks in
  priority_queue q'
  = (if priority then priority_queue q ++ new_tracks else priority_queue q)
  /\ main_queue q' ≡ₚ main_in
  /\ (shuffle_mode q <> "smart" \/ length main_in < 3 ->
      main_queue q' = main_in /\ snd (add_tracks q new_tracks priority tape) = tape)
  /\ played_tracks q' = played_tracks q
  /\ current_index q' = current_index q
  /\ shuffle_mode q' = shuffle_mode q.
Proof.
  cbv zeta. unfold add_tracks.
  destruct priority.
  - destruct (reorganize_spec (set_priority_queue q (priority_queue q ++ new_tracks)) tape)
      as [l [tape' [E [P H]]]].
    rewrite E. simpl in *. split; [reflexivity |]. split; [exact P |].
    split; [| repeat split]. intros Hc. destruct (H Hc) as [-> ->]. split; reflexivity.
  - destruct (reorganize_spec (set_main_queue q (main_queue q ++ new_tracks)) tape)
      as [l [tape' [E [P H]]]].
    rewrite E. simpl in *. split; [reflexivity |]. split; [exact P |].
    split; [| repeat split]. intros Hc. destruct (H Hc) as [-> ->]. split; reflexivity.
Qed.

(** X15: [add_track] with [priority] and position ["next"] puts the track
    at the head of the priority tier, so the next pull returns it, in
    every mode; any other position puts it at the end of that tier.
    Without [priority] the main tier afterwards is a permutation of the
    track and the old main tier, for each of the three positions. *)
Theorem add_track_outcome
    (q : SmartQueue) (track : Track) (position : string) (now : Q) (tape : Tape) :
  (let r := add_track q track true position tape in
   priority_queue (fst r)
   = (if String.eqb position "next" then track :: priority_queue q
      else priority_queue q ++ [track])
   /\ main_queue (fst r) ≡ₚ main_queue q
   /\ (position = "next" ->
       fst (fst (get_next_track (fst r) now (snd r))) = Some track))
  /\ (let r := add_track q track false position tape in
      priority_queue (fst r) = priority_queue q
      /\ main_queue (fst r) ≡ₚ track :: main_queue q).
Proof.
  cbv zeta. unfold add_track. split.
  - destruct (String.eqb_spec position "next") as [E | E].
    + destruct (reorganize_spec (set_priority_queue q (track :: priority_queue q)) tape)
        as [l [tape' [Er [P _]]]].
      rewrite Er. simpl. split; [reflexivity |]. split; [exact P |].
      intros _. reflexivity.
    + destruct (reorganize_spec (set_priority_queue q (priority_queue q ++ [track])) tape)
        as [l [tape' [Er [P _]]]].
      rewrite Er. simpl. split; [reflexivity |]. split; [exact P |].
      intros H. congruence.
  - destruct (String.eqb position "next").
    + destruct (reorganize_spec (set_main_queue q (insert_at 0 track (main_queue q))) tape)
        as [l [tape' [Er [P _]]]].
      rewrite Er. simpl in *. split; [reflexivity |]. rewrite P. apply insert_at_perm.
    + destruct (String.eqb position "random").
      * unfold bind. destruct (randbelow (length (main_queue q) + 1) tape) as [pos t1].
        destruct (reorganize_spec (set_main_queue q (insert_at pos track (main_queue q))) t1)
          as [l [tape' [Er [P _]]]].
        rewrite Er. simpl in *. split; [reflexivity |]. rewrite P. apply insert_at_perm.
      * destruct (reorganize_spec (set_main_queue q (main_queue q ++ [track])) tape)
          as [l [tape' [Er [P _]]]].
        rewrite Er. simpl in *. split; [reflexivity |]. rewrite P.
        symmetry. apply Permutation_cons_append.
Qed.

Lemma add_track_outcome_witness :
  let r := add_track (sample_queue "smart" [sample_track "p" "P"]
                        [sample_track "a" "A"; sample_track "b" "B"; sample_track "c" "C"] 0)
             (sample_track "n" "N") true "next" [3; 1] in
  fst (fst (get_next_track (fst r) 0 (snd r))) = Some (sample_track "n" "N").
Proof.
  apply (add_track_outcome
           (sample_queue "smart" [sample_track "p" "P"]
              [sample_track "a" "A"; sample_track "b" "B"; sample_track "c" "C"] 0)
           (sample_track "n" "N") "next" 0 [3; 1]).
  reflexivity.
Defined.

(** X16: [set_shuffle_mode] with one of the four modes returns normally and
    makes it the active mode; the main tier afterwards is a permutation of
    what it was, and for every mode but smart the queue is otherwise
    exactly as before (the cursor is not reset) and no random number is
    drawn. Priority tier, played set and cursor are never touched. *)
Theorem set_shuffle_mode_valid (q : SmartQueue) (mode : string) (tape : Tape) :
  valid_mode mode = true ->
  let r := set_shuffle_mode q mode tape in
  let q' := snd (fst r) in
  fst (fst r) = Returned tt
  /\ shuffle_mode q' = mode
  /\ main_queue q' ≡ₚ main_queue q
  /\ priority_queue q' = priority_queue q
  /\ played_tracks q' = played_tracks q
  /\ current_index q' = current_index q
  /\ (mode <> "smart" -> r = (Returned tt, set_mode q mode, tape)).
Proof.
  intros Hv. cbv zeta. unfold set_shuffle_mode. rewrite Hv.
  destruct (String.eqb mode "smart" || String.eqb mode "random") eqn:Es.
  - unfold bind.
    destruct (reorganize_spec (set_mode q mode) tape) as [l [tape' [E [P H]]]].
    rewrite E. simpl in *.
    split; [reflexivity |]. split; [reflexivity |]. split; [exact P |].
    split; [reflexivity |]. split; [reflexivity |]. split; [reflexivity |].
    intros Hne. destruct (H (or_introl Hne)) as [-> ->].
    destruct q. reflexivity.
  - simpl. repeat split; reflexivity.
Qed.

Lemma set_shuffle_mode_valid_witness :
  set_shuffle_mode
    (sample_queue "smart" [] [sample_track "a" "A"; sample_track "b" "B"] 1)
    "sequential" [7]
  = (Returned tt,
     set_mode (sample_queue "smart" [] [sample_track "a" "A"; sample_track "b" "B"] 1)
       "sequential",
     [7]).
Proof.
  apply (set_shuffle_mode_valid
           (sample_queue "smart" [] [sample_track "a" "A"; sample_track "b" "B"] 1)
           "sequential" [7]).
  - reflexivity.
  - discriminate.
Defined.

(** *** The smart ranking *)

(** Every element is at least as high as all that follow it. *)
Inductive descending {A : Type} (key : A -> Q) : list A -> Prop :=
| descending_nil : descending key []
| descending_cons (x : A) (l : list A) :
    Forall (fun y => (key y <= key x)%Q) l -> descending key l ->
    descending key (x :: l).

Lemma insert_desc_descending {A : Type} (key : A -> Q) (x : A) (l : list A) :
  descending key l -> descending key (insert_desc key x l).
Proof.
  induction 1 as [| y l Hy Hl IH]; simpl.
  - constructor; constructor.
  - unfold Qltb. destruct (Qlt_le_dec (key x) (key y)) as [Hlt | Hge].
    + constructor; [| exact IH].
      rewrite insert_desc_perm. constructor; [lra | exact Hy].
    + constructor; [| constructor; assumption].
      constructor; [exact Hge |].
      eapply Forall_impl; [exact Hy |]. intros z Hz. simpl in Hz. lra.
Qed.

Lemma sort_desc_descending {A : Type} (key : A -> Q) (l : list A) :
  descending key (sort_desc key l).
Proof.
  induction l as [| x l IH]; simpl; [constructor |].
  apply insert_desc_descending. exact IH.
Qed.

Lemma descending_app {A : Type} (key : A -> Q) (l1 l2 : list A) :
  descending key (l1 ++ l2) ->
  forall x y, x ∈ l1 -> y ∈ l2 -> (key y <= key x)%Q.
Proof.
  induction l1 as [| a l1 IH]; intros H x y Hx Hy; [inversion Hx |].
  simpl in H. inversion H as [| ? ? Ha Hrest]; subst.
  apply elem_of_cons in Hx. destruct Hx as [-> | Hx].
  - rewrite Forall_forall in Ha. apply Ha. apply elem_of_app. right. exact Hy.
  - apply (IH Hrest x y Hx Hy).
Qed.

(** [scored_tracks] after the sort. *)
Definition ranking (q : SmartQueue) (now : Q) : list (Track * Q) :=
  sort_desc snd (map (score_for q now) (available q)).

Lemma ranking_length (q : SmartQueue) (now : Q) :
  length (ranking q now) = length (available q).
Proof. unfold ranking. rewrite sort_desc_perm, length_map. reflexivity. Qed.

Lemma smart_pick_in_top (q q' : SmartQueue) (now : Q) (tape tape' : Tape) (t : Track) :
  _get_next_smart q now tape = (Some t, q', tape') ->
  t ∈ map fst (top_tracks q now).
Proof.
  unfold _get_next_smart.
  destruct (available q) as [| a l] eqn:E; [discriminate |].
  rewrite <- E. fold (top_tracks q now). unfold bind.
  destruct (Qltb 0 (Qsum (map snd (top_tracks q now)))).
  - unfold random_choices.
    destruct (random_choice (map fst (top_tracks q now)) tape) as [c t1] eqn:Ec.
    intros H. destruct c as [t0 |]; [| discriminate].
    injection H as <- _ _.
    apply (random_choice_elem _ _ tape). rewrite Ec. reflexivity.
  - unfold ret. destruct (map fst (top_tracks q now)) as [| t0 rest]; [discriminate |].
    simpl. intros H. injection H as <- _ _. apply list_elem_of_here.
Qed.

(** X17: when the smart algorithm serves a pull (empty priority tier, mode
    smart or mood), the returned track is one of the first
    [max(1, n // 3)] entries of the descending ranking of the [n] available
    tracks, and no entry outside that top part has a higher score than it;
    with fewer than six available tracks the returned track has the
    highest score of all. *)
Theorem smart_pull_is_from_the_top
    (q q' : SmartQueue) (now : Q) (tape tape' : Tape) (t : Track) :
  priority_queue q = [] ->
  shuffle_mode q = "smart" \/ shuffle_mode q = "mood" ->
  get_next_track q now tape = (Some t, q', tape') ->
  let k := Nat.max 1 (length (available q) / 3) in
  exists s,
    (t, s) ∈ take k (ranking q now)
    /\ (forall e, e ∈ drop k (ranking q now) -> (snd e <= s)%Q)
    /\ (length (available q) < 6 ->
        forall u, u ∈ available q -> (snd (score_for q now u) <= s)%Q).
Proof.
  intros Hp Hmode Hpull k.
  assert (Hsmart : _get_next_smart q now tape = (Some t, q', tape')).
  { unfold get_next_track in Hpull. rewrite Hp in Hpull.
    destruct Hmode as [Hm | Hm]; rewrite Hm in Hpull; simpl in Hpull;
      [exact Hpull | rewrite next_mood_is_smart in Hpull; exact Hpull]. }
  pose proof (smart_pick_in_top _ _ _ _ _ _ Hsmart) as Hin.
  assert (Htop : top_tracks q now = take k (ranking q now)).
  { unfold top_tracks, k. fold (ranking q now). rewrite ranking_length. reflexivity. }
  rewrite Htop in Hin.
  apply list_elem_of_In, in_map_iff in Hin. destruct Hin as [[t0 s] [Et He]].
  simpl in Et. subst t0. apply list_elem_of_In in He.
  pose proof (sort_desc_descending snd (map (score_for q now) (available q))) as Hd.
  fold (ranking q now) in Hd.
  rewrite <- (take_drop k (ranking q now)) in Hd.
  exists s. split; [exact He |]. split.
  - intros e Hout. apply (descending_app snd _ _ Hd (t, s) e He Hout).
  - intros Hsmall u Hu.
    assert (Hk : k = 1).
    { unfold k. assert (length (available q) / 3 < 2); [| lia].
      apply Nat.Div0.div_lt_upper_bound. lia. }
    assert (Hur : score_for q now u ∈ ranking q now).
    { unfold ranking. rewrite sort_desc_perm.
      apply list_elem_of_In, in_map, list_elem_of_In. exact Hu. }
    rewrite <- (take_drop k (ranking q now)) in Hur.
    apply elem_of_app in Hur. destruct Hur as [Hur | Hur].
    + rewrite Hk in Hur, He.
      destruct (ranking q now) as [| e0 r]; [inversion He |].
      simpl in Hur, He. rewrite take_0 in Hur, He.
      apply list_elem_of_singleton in Hur. apply list_elem_of_singleton in He.
      rewrite Hur, <- He. simpl. lra.
    + apply (descending_app snd _ _ Hd (t, s) _ He Hur).
Qed.

Lemma smart_pull_is_from_the_top_witness :
  let q := sample_queue "smart" []
             [sample_track "a" "A"; anonymous_track; sample_track "b" "B"] 0 in
  exists s,
    (anonymous_track, s) ∈ take 1 (ranking q 0)
    /\ forall u, u ∈ available q -> (snd (score_for q 0 u) <= s)%Q.
Proof.
  cbv zeta.
  destruct (smart_pull_is_from_the_top
              (sample_queue "smart" []
                 [sample_track "a" "A"; anonymous_track; sample_track "b" "B"] 0)
              (set_last_played_track
                 (_mark_as_played
                    (sample_queue "smart" []
                       [sample_track "a" "A"; anonymous_track; sample_track "b" "B"] 0)
                    anonymous_track)
                 (Some anonymous_track))
              0 [4] [] anonymous_track eq_refl (or_introl eq_refl) eq_refl)
    as [s [H1 [_ H3]]].
  exists s. split; [exact H1 |]. apply H3. vm_compute. lia.
Defined.

(** *** Recommendations *)

(** The artists collected by [get_recommendations_for_queue]. *)
Definition queue_artists (l : list Track) : gset string :=
  list_to_set (flat_map (fun t => match known_artist t with
                                  | Some a => [a]
                                  | None => []
                                  end) l).

(** [get_recommendations_for_queue] *)
Definition get_recommendations_for_queue (q : SmartQueue) : list string :=
  match main_queue q with
  | [] => ["Add some tracks to get started!"]
  | _ :: _ =>
      let n := length (main_queue q) in
      let artist_diversity :=
        (inject_Z (Z.of_nat (size (queue_artists (main_queue q))))
         / inject_Z (Z.of_nat n))%Q in
      let r1 :=
        if Qltb artist_diversity 0.3
        then ["Consider adding more variety - many tracks are from the same artists"]
        else [] in
      let r2 :=
        if Nat.ltb n 10 then ["Queue is running low - consider adding more tracks"]
        else if Nat.ltb 100 n then ["Queue is very long - consider trimming some tracks"]
        else [] in
      let avg_quality :=
        (Qsum (map (fun t => match quality_score t with Some s => s | None => 0.5%Q end)
                 (main_queue q))
         / inject_Z (Z.of_nat n))%Q in
      let r3 :=
        if Qltb avg_quality 0.4
        then ["Queue contains many low-quality tracks - consider filtering"]
        else [] in
      match r1 ++ r2 ++ r3 with
      | [] => ["Queue looks good!"]
      | recommendations => recommendations
      end
  end.

(** X18: [get_recommendations_for_queue] returns between one and three
    lines; an empty main tier gets the single line that asks for tracks,
    and the line that says the queue looks good comes alone and only for a
    main tier of 10 to 100 tracks. *)
Theorem recommendations_shape (q : SmartQueue) :
  let r := get_recommendations_for_queue q in
  1 <= length r <= 3
  /\ (main_queue q = [] -> r = ["Add some tracks to get started!"])
  /\ ("Queue looks good!" ∈ r ->
      r = ["Queue looks good!"] /\ 10 <= length (main_queue q) <= 100).
Proof.
  cbv zeta. unfold get_recommendations_for_queue.
  destruct (main_queue q) as [| t l] eqn:E.
  - split; [simpl; lia |]. split; [reflexivity |].
    intros H. apply list_elem_of_singleton in H. discriminate.
  - assert (Hne : main_queue q <> []) by congruence.
    rewrite <- E. clear E.
    destruct (Qltb _ 0.3);
      destruct (Nat.ltb_spec (length (main_queue q)) 10);
      destruct (Nat.ltb_spec 100 (length (main_queue q)));
      destruct (Qltb _ 0.4); simpl;
      (split; [lia |]); (split; [intros Hq; contradiction |]);
      intros Hgood;
      repeat match goal with
             | H : _ ∈ _ :: _ |- _ =>
                 apply elem_of_cons in H; destruct H as [? | ?]; [try discriminate |]
             | H : _ ∈ [] |- _ => inversion H
             end;
      split; [reflexivity | lia].
Qed.

End QueueFacts.

(** ** auto_discovery.py: more on BackgroundDiscovery *)

Module SchedulerFacts.

Import History.
Import Queue.
Import Scheduler.

(** *** The seed window *)

Lemma add_seed_track_seeds (w : World) (track : Track) (now : Q) :
  seed_tracks (discovery (add_seed_track w track now))
  = seed_append (seed_tracks (discovery w)) track.
Proof.
  unfold add_seed_track.
  destruct (known_artist track); [| reflexivity].
  destruct (Nat.ltb _ 5); simpl; [| reflexivity].
  unfold _trigger_discovery. destruct (Qltb _ _); [reflexivity |]. simpl.
  destruct (Nat.ltb _ 3); reflexivity.
Qed.

(** X19: the seed window never grows beyond 5 tracks: a reported track
    becomes its last entry, and when the window already holds 5 the oldest
    entry leaves. *)
Theorem seed_window_is_bounded (w : World) (track : Track) (now : Q) :
  length (seed_tracks (discovery w)) <= 5 ->
  let seeds := seed_tracks (discovery w) in
  let seeds' := seed_tracks (discovery (add_seed_track w track now)) in
  length seeds' <= 5
  /\ last seeds' = Some track
  /\ (length seeds < 5 -> seeds' = seeds ++ [track])
  /\ (length seeds = 5 -> seeds' = drop 1 seeds ++ [track]).
Proof.
  intros Hlen. cbv zeta. rewrite add_seed_track_seeds. unfold seed_append.
  rewrite length_app. simpl.
  destruct (Nat.ltb_spec 5 (length (seed_tracks (discovery w)) + 1)) as [Hfull | Hroom].
  - assert (Hd : drop 1 (seed_tracks (discovery w) ++ [track])
                 = drop 1 (seed_tracks (discovery w)) ++ [track]).
    { destruct (seed_tracks (discovery w)); [simpl in Hfull; lia | reflexivity]. }
    rewrite Hd. split; [rewrite length_app, length_drop; simpl; lia |].
    split; [apply last_snoc |]. split; [lia | reflexivity].
  - split; [rewrite length_app; simpl; lia |].
    split; [apply last_snoc |]. split; [reflexivity | lia].
Qed.

Lemma seed_window_is_bounded_witness :
  let w := mkWorld (new_queue fresh_history)
             (set_context new_discovery
                [sample_track "1" "A"; sample_track "2" "A"; sample_track "3" "A";
                 sample_track "4" "A"; sample_track "5" "A"] ∅ []) in
  seed_tracks (discovery (add_seed_track w (sample_track "6" "B") 50))
  = [sample_track "2" "A"; sample_track "3" "A"; sample_track "4" "A";
     sample_track "5" "A"; sample_track "6" "B"].
Proof.
  cbv zeta.
  apply (seed_window_is_bounded
           (mkWorld (new_queue fresh_history)
              (set_context new_discovery
                 [sample_track "1" "A"; sample_track "2" "A"; sample_track "3" "A";
                  sample_track "4" "A"; sample_track "5" "A"] ∅ []))
           (sample_track "6" "B") 50).
  - simpl. lia.
  - reflexivity.
Defined.

(** *** The channel and the thresholds *)

Lemma trigger_channel_bound (bd : BackgroundDiscovery) (reason : string) (now : Q) :
  length (discovery_queue bd) <= 3 ->
  length (discovery_queue (_trigger_discovery bd reason now)) <= 3.
Proof.
  intros H. unfold _trigger_discovery.
  destruct (Qltb _ _); [exact H |]. simpl.
  destruct (Nat.ltb_spec (length (discovery_queue bd)) 3); simpl; [| exact H].
  rewrite length_app. simpl. lia.
Qed.

(** X20: the trigger channel never holds more than 3 reasons: a trigger, a
    reported seed track and a health check all keep a channel of at most 3
    within that bound, and a context reset empties it. A seed track is
    reported without any trigger when the two tiers hold 5 tracks or more
    or when the track has no known artist, and the health check enqueues
    nothing when they hold 3 or more; these thresholds do not depend on
    the configured rate. *)
Theorem channel_capacity_and_thresholds
    (w : World) (bd : BackgroundDiscovery) (reason : string) (track : Track) (now : Q) :
  (length (discovery_queue bd) <= 3 ->
   length (discovery_queue (_trigger_discovery bd reason now)) <= 3)
  /\ (length (discovery_queue (discovery w)) <= 3 ->
      length (discovery_queue (discovery (add_seed_track w track now))) <= 3
      /\ length (discovery_queue (discovery (_check_queue_health w now))) <= 3)
  /\ discovery_queue (reset_context bd) = []
  /\ (5 <= total_tracks (queue w) \/ known_artist track = None ->
      discovery_queue (discovery (add_seed_track w track now))
      = discovery_queue (discovery w))
  /\ (3 <= total_tracks (queue w) ->
      discovery_queue (discovery (_check_queue_health w now))
      = discovery_queue (discovery w)).
Proof.
  split; [apply trigger_channel_bound |].
  split.
  { intros H. split.
    - unfold add_seed_track. destruct (known_artist track); [| exact H].
      destruct (Nat.ltb _ 5); simpl; [| exact H].
      apply trigger_channel_bound. exact H.
    - unfold _check_queue_health. simpl.
      destruct (Nat.ltb _ 3).
      + pose proof (trigger_channel_bound (discovery w) "periodic_check" now H) as Ht.
        destruct (Nat.ltb 50 _); exact Ht.
      + destruct (Nat.ltb 50 _); exact H. }
  split; [reflexivity |].
  split.
  - intros [H | H]; unfold add_seed_track.
    + destruct (known_artist track); [| reflexivity].
      destruct (Nat.ltb_spec (total_tracks (queue w)) 5); [lia | reflexivity].
    + rewrite H. reflexivity.
  - intros H. unfold _check_queue_health. simpl.
    destruct (Nat.ltb_spec (total_tracks (queue w)) 3); [lia |].
    destruct (Nat.ltb 50 _); reflexivity.
Qed.

Lemma channel_capacity_and_thresholds_witness :
  length (discovery_queue
            (_trigger_discovery
               (set_discovery_queue new_discovery ["a"; "b"; "c"]) "d" 1000)) <= 3.
Proof.
  apply (channel_capacity_and_thresholds started_world
           (set_discovery_queue new_discovery ["a"; "b"; "c"]) "d" anonymous_track 1000).
  simpl. lia.
Defined.

(** *** Reset and rate *)

(** X21: [reset_context] empties the seed window, the discovered artists,
    the exploration depths and the channel, and keeps the rate settings,
    the running flag and the time of the last trigger: the strategy chosen
    right after it is the context-free one, and a trigger that comes before
    the minimum interval has passed is still dropped. *)
Theorem reset_context_outcome (bd : BackgroundDiscovery) (reason : string) (now : Q) :
  let bd' := reset_context bd in
  seed_tracks bd' = []
  /\ discovered_artists bd' = ∅
  /\ artist_exploration_depth bd' = []
  /\ discovery_queue bd' = []
  /\ last_discovery_time bd' = last_discovery_time bd
  /\ min_discovery_interval bd' = min_discovery_interval bd
  /\ is_running bd' = is_running bd
  /\ _choose_discovery_strategy bd' = "mixed"
  /\ ((now - last_discovery_time bd < min_discovery_interval bd)%Q ->
      _trigger_discovery bd' reason now = bd').
Proof.
  cbv zeta. repeat split.
  intros H. apply trigger_rate_limited. exact H.
Qed.

(** X22: each of the three rate levels sets the target size, the batch size
    and the minimum interval together (15/3/15, 30/5/10, 50/8/5), and
    changes nothing else; the target size and the batch size have no part
    in the decision to trigger, which reads only the interval. *)
Theorem rate_levels_and_triggering
    (bd : BackgroundDiscovery) (q : SmartQueue) (track : Track) (now : Q)
    (target batch : Z) :
  snd (adjust_discovery_rate bd "conservative") = set_rate bd 15 3 15
  /\ snd (adjust_discovery_rate bd "moderate") = set_rate bd 30 5 10
  /\ snd (adjust_discovery_rate bd "aggressive") = set_rate bd 50 8 5
  /\ discovery_queue
      (discovery (add_seed_track
                    (mkWorld q (set_rate bd target batch (min_discovery_interval bd)))
                    track now))
    = discovery_queue (discovery (add_seed_track (mkWorld q bd) track now))
  /\ discovery_queue
      (discovery (_check_queue_health
                    (mkWorld q (set_rate bd target batch (min_discovery_interval bd))) now))
    = discovery_queue (discovery (_check_queue_health (mkWorld q bd) now)).
Proof.
  split; [reflexivity |]. split; [reflexivity |]. split; [reflexivity |].
  split.
  - unfold add_seed_track. simpl.
    destruct (known_artist track); [| reflexivity].
    destruct (Nat.ltb _ 5); simpl; [| reflexivity].
    unfold _trigger_discovery. simpl.
    destruct (Qltb _ _); [reflexivity |]. simpl.
    destruct (Nat.ltb _ 3); reflexivity.
  - unfold _check_queue_health. simpl.
    destruct (Nat.ltb _ 3).
    + unfold _trigger_discovery. simpl.
      destruct (Qltb _ _); simpl.
      * destruct (Nat.ltb 50 _); reflexivity.
      * destruct (Nat.ltb _ 3); simpl; destruct (Nat.ltb 50 _); reflexivity.
    + destruct (Nat.ltb 50 _); reflexivity.
Qed.

(** *** Exploration depth *)

(** [d.get(k, 0)] *)
Definition depth_of (k : string) (d : list (string * Z)) : Z :=
  match dict_get k d with Some v => v | None => 0%Z end.

Lemma dict_get_set_eq {V : Type} (k : string) (v : V) (d : list (string * V)) :
  dict_get k (dict_set k v d) = Some v.
Proof.
  induction d as [| [k' v'] d IH]; simpl.
  - rewrite String.eqb_refl. reflexivity.
  - destruct (String.eqb k k') eqn:E; simpl; rewrite E; [reflexivity | exact IH].
Qed.

Lemma dict_get_set_ne {V : Type} (k j : string) (v : V) (d : list (string * V)) :
  k <> j -> dict_get j (dict_set k v d) = dict_get j d.
Proof.
  intros Hne. induction d as [| [k' v'] d IH]; simpl.
  - destruct (String.eqb_spec j k); [congruence | reflexivity].
  - destruct (String.eqb_spec k k') as [-> | Hk]; simpl.
    + destruct (String.eqb_spec j k'); [congruence | reflexivity].
    + destruct (String.eqb j k'); [reflexivity | exact IH].
Qed.

(** The loop of the artist strategy over the recent tracks. *)
Definition artist_round (recent : list Track) (depth : list (string * Z))
    : list string * list (string * Z) :=
  fold_left
    (fun acc t =>
       match known_artist t with
       | Some a =>
           (fst acc ++ [a],
            dict_set a
              (match dict_get a (snd acc) with Some d => d | None => 0 end + 1)%Z
              (snd acc))
       | None => acc
       end)
    recent ([], depth).

Lemma artist_step_mono (acc : list string * list (string * Z)) (t : Track) (k : string) :
  (depth_of k (snd acc)
   <= depth_of k (snd match known_artist t with
                      | Some a =>
                          (fst acc ++ [a],
                           dict_set a
                             (match dict_get a (snd acc) with Some d => d | None => 0 end + 1)%Z
                             (snd acc))
                      | None => acc
                      end))%Z.
Proof.
  destruct (known_artist t) as [a |]; simpl; [| lia].
  unfold depth_of. destruct (String.eqb_spec a k) as [-> | Hne].
  - rewrite dict_get_set_eq. destruct (dict_get k (snd acc)); lia.
  - rewrite dict_get_set_ne by exact Hne. lia.
Qed.

Lemma artist_fold_mono (recent : list Track) (acc : list string * list (string * Z))
    (k : string) :
  (depth_of k (snd acc)
   <= depth_of k
        (snd (fold_left
                (fun acc t =>
                   match known_artist t with
                   | Some a =>
                       (fst acc ++ [a],
                        dict_set a
                          (match dict_get a (snd acc) with Some d => d | None => 0 end + 1)%Z
                          (snd acc))
                   | None => acc
                   end)
                recent acc)))%Z.
Proof.
  revert acc. induction recent as [| t recent IH]; intros acc; simpl; [lia |].
  etransitivity; [apply (artist_step_mono acc t k) |]. apply IH.
Qed.

Lemma artist_round_last (recent : list Track) (t : Track) (a : string)
    (depth : list (string * Z)) :
  known_artist t = Some a ->
  (depth_of a depth + 1 <= depth_of a (snd (artist_round (recent ++ [t]) depth)))%Z
  /\ a ∈ fst (artist_round (recent ++ [t]) depth).
Proof.
  intros Ha. unfold artist_round. rewrite fold_left_app. simpl. rewrite Ha. simpl.
  split.
  - unfold depth_of at 2. rewrite dict_get_set_eq.
    pose proof (artist_fold_mono recent ([], depth) a) as H. simpl in H.
    unfold depth_of at 2 in H.
    match goal with |- context [dict_get a ?d] => destruct (dict_get a d) end; lia.
  - apply elem_of_app. right. apply list_elem_of_here.
Qed.

Lemma last_three_snoc {A : Type} (l : list A) (x : A) :
  exists l0, last_three (l ++ [x]) = l0 ++ [x].
Proof.
  unfold last_three. rewrite length_app. simpl.
  exists (drop (length l + 1 - 3) l).
  rewrite drop_app_le by lia. reflexivity.
Qed.

Lemma generate_artist_queries (bd : BackgroundDiscovery) (tape : Tape) :
  seed_tracks bd <> [] ->
  exists shuffled tape',
    _generate_discovery_queries bd "artist" tape
    = (take 5 shuffled,
       set_context bd (seed_tracks bd) (discovered_artists bd)
         (snd (artist_round (last_three (seed_tracks bd)) (artist_exploration_depth bd))),
       tape')
    /\ shuffled
       ≡ₚ fst (artist_round (last_three (seed_tracks bd)) (artist_exploration_depth bd)).
Proof.
  intros Hne. unfold _generate_discovery_queries.
  destruct (seed_tracks bd) as [| s0 ss] eqn:Es; [congruence |].
  rewrite <- Es.
  change (String.eqb "artist" "artist") with true. cbv iota.
  fold (artist_round (last_three (seed_tracks bd)) (artist_exploration_depth bd)).
  destruct (artist_round (last_three (seed_tracks bd)) (artist_exploration_depth bd))
    as [queries depth] eqn:Er.
  unfold bind.
  destruct (random_shuffle queries tape) as [shuffled t1] eqn:Esh.
  exists shuffled, t1. split; [reflexivity |].
  apply (random_shuffle_perm _ _ _ _ Esh).
Qed.

Lemma artist_round_length (recent : list Track) (acc : list string * list (string * Z)) :
  length (fst (fold_left
                 (fun acc t =>
                    match known_artist t with
                    | Some a =>
                        (fst acc ++ [a],
                         dict_set a
                           (match dict_get a (snd acc) with Some d => d | None => 0 end + 1)%Z
                           (snd acc))
                    | None => acc
                    end)
                 recent acc))
  <= length (fst acc) + length recent.
Proof.
  revert acc. induction recent as [| t recent IH]; intros acc; simpl; [lia |].
  etransitivity; [apply IH |].
  destruct (known_artist t); simpl; [rewrite length_app; simpl |]; lia.
Qed.

(** X23: a round of the artist strategy raises the exploration depth of the
    most recent seed's artist by at least one, lowers no depth, and
    dispatches that artist's name among its queries; so once the depth has
    reached 2, the strategy chosen after the round is no longer the artist
    strategy. Seed window and discovered artists are left as they are. *)
Theorem artist_rounds_are_bounded
    (bd : BackgroundDiscovery) (tape : Tape) (recent : Track) (a : string) :
  last (seed_tracks bd) = Some recent ->
  known_artist recent = Some a ->
  let r := fst (_generate_discovery_queries bd "artist" tape) in
  let depth := artist_exploration_depth bd in
  let depth' := artist_exploration_depth (snd r) in
  (depth_of a depth + 1 <= depth_of a depth')%Z
  /\ (forall k, depth_of k depth <= depth_of k depth')%Z
  /\ a ∈ fst r
  /\ seed_tracks (snd r) = seed_tracks bd
  /\ discovered_artists (snd r) = discovered_artists bd
  /\ ((2 <= depth_of a depth)%Z -> _choose_discovery_strategy (snd r) <> "artist").
Proof.
  intros Hlast Ha. cbv zeta.
  apply last_Some in Hlast. destruct Hlast as [l0 Hl].
  assert (Hne : seed_tracks bd <> []) by (rewrite Hl; destruct l0; discriminate).
  destruct (generate_artist_queries bd tape Hne) as [shuffled [tape' [E P]]].
  rewrite E. simpl.
  destruct (last_three_snoc l0 recent) as [l1 Hl3].
  rewrite Hl in P |- *. rewrite Hl3 in P |- *.
  destruct (artist_round_last l1 recent a (artist_exploration_depth bd) Ha) as [Hd Hin].
  split; [exact Hd |].
  split; [intros k; apply (artist_fold_mono (l1 ++ [recent]) ([], _) k) |].
  split.
  { assert (Hlen : length shuffled <= 3).
    { rewrite P. unfold artist_round.
      etransitivity; [apply artist_round_length |]. simpl.
      rewrite <- Hl3. unfold last_three. rewrite length_drop. lia. }
    rewrite take_ge by lia. rewrite P. exact Hin. }
  split; [reflexivity |]. split; [reflexivity |].
  intros H2. unfold _choose_discovery_strategy. simpl.
  rewrite last_snoc, Ha.
  fold (depth_of a (snd (artist_round (l1 ++ [recent]) (artist_exploration_depth bd)))).
  destruct (Z.ltb_spec
              (depth_of a (snd (artist_round (l1 ++ [recent]) (artist_exploration_depth bd))))
              3) as [Hlt | _]; [lia |].
  destruct (Nat.ltb _ 10); discriminate.
Qed.

Lemma artist_rounds_are_bounded_witness :
  let bd := set_context new_discovery [sample_track "s" "Band"] {[ "Band" ]}
              [("Band", 2%Z)] in
  _choose_discovery_strategy bd = "artist"
  /\ _choose_discovery_strategy
       (snd (fst (_generate_discovery_queries bd "artist" [])))
     <> "artist".
Proof.
  cbv zeta. split; [reflexivity |].
  apply (artist_rounds_are_bounded
           (set_context new_discovery [sample_track "s" "Band"] {[ "Band" ]}
              [("Band", 2%Z)])
           [] (sample_track "s" "Band") "Band"); try reflexivity.
Defined.

(** *** Pruning the exploration depths *)

(** X24: when the exploration-depth map holds more than 50 artists the
    health check keeps exactly 20 of them, taken from the map itself, and
    no artist it drops has a greater depth than one it keeps; a map of 50
    or fewer is left as it is. *)
Theorem health_check_prunes_to_top_twenty (w : World) (now : Q) :
  let depth := artist_exploration_depth (discovery w) in
  let depth' := artist_exploration_depth (discovery (_check_queue_health w now)) in
  (length depth <= 50 -> depth' = depth)
  /\ (50 < length depth ->
      length depth' = 20
      /\ exists dropped,
           depth' ++ dropped ≡ₚ depth
           /\ forall kept gone, kept ∈ depth' -> gone ∈ dropped ->
                (snd gone <= snd kept)%Z).
Proof.
  cbv zeta.
  assert (Hd : forall bd1,
             artist_exploration_depth bd1 = artist_exploration_depth (discovery w) ->
             artist_exploration_depth
               (if Nat.ltb 50 (length (artist_exploration_depth bd1))
                then set_context bd1 (seed_tracks bd1) (discovered_artists bd1)
                       (take 20 (sort_desc (fun e => inject_Z (snd e))
                                   (artist_exploration_depth bd1)))
                else bd1)
             = if Nat.ltb 50 (length (artist_exploration_depth (discovery w)))
               then take 20 (sort_desc (fun e => inject_Z (snd e))
                               (artist_exploration_depth (discovery w)))
               else artist_exploration_depth (discovery w)).
  { intros bd1 E. rewrite E. destruct (Nat.ltb 50 _); [reflexivity | exact E]. }
  assert (Htrig : forall r t,
             artist_exploration_depth (_trigger_discovery (discovery w) r t)
             = artist_exploration_depth (discovery w)).
  { intros r t. unfold _trigger_discovery. destruct (Qltb _ _); [reflexivity |].
    simpl. destruct (Nat.ltb _ 3); reflexivity. }
  assert (E : artist_exploration_depth (discovery (_check_queue_health w now))
              = if Nat.ltb 50 (length (artist_exploration_depth (discovery w)))
                then take 20 (sort_desc (fun e => inject_Z (snd e))
                                (artist_exploration_depth (discovery w)))
                else artist_exploration_depth (discovery w)).
  { unfold _check_queue_health. simpl.
    destruct (Nat.ltb (total_tracks (queue w)) 3); apply Hd; [apply Htrig | reflexivity]. }
  rewrite E. clear E Hd Htrig.
  set (depth := artist_exploration_depth (discovery w)).
  split.
  - intros H. destruct (Nat.ltb_spec 50 (length depth)); [lia | reflexivity].
  - intros H. destruct (Nat.ltb_spec 50 (length depth)); [| lia].
    set (sorted := sort_desc (fun e : string * Z => inject_Z (snd e)) depth).
    assert (Hperm : sorted ≡ₚ depth) by apply sort_desc_perm.
    split; [rewrite length_take, Hperm; lia |].
    exists (drop 20 sorted). split; [rewrite take_drop; exact Hperm |].
    intros kept gone Hk Hg.
    pose proof (QueueFacts.sort_desc_descending
                  (fun e : string * Z => inject_Z (snd e)) depth) as Hdesc.
    fold sorted in Hdesc. rewrite <- (take_drop 20 sorted) in Hdesc.
    pose proof (QueueFacts.descending_app _ _ _ Hdesc kept gone Hk Hg) as Hle.
    simpl in Hle. rewrite Zle_Qle. exact Hle.
Qed.

(** *** Genres *)

Definition genre_names : list string :=
  ["rock"; "jazz"; "electronic"; "folk"; "classical"; "hip hop"; "indie"; "alternative"].

Lemma genre_of_known (m : MusicMetadata) : genre_of m ∈ genre_names.
Proof.
  unfold genre_of, genre_names.
  repeat match goal with
         | |- context [if ?b then _ else _] => destruct b
         end;
    repeat first [apply list_elem_of_here | apply list_elem_of_further].
Qed.

Lemma dict_set_keys {V : Type} (k : string) (v : V) (d : list (string * V)) :
  NoDup (map fst d) ->
  NoDup (map fst (dict_set k v d))
  /\ forall j, j ∈ map fst (dict_set k v d) -> j = k \/ j ∈ map fst d.
Proof.
  induction d as [| [k' v'] d IH]; intros Hnd; simpl.
  - split; [constructor; [intros H; inversion H | constructor] |].
    intros j Hj. apply list_elem_of_singleton in Hj. left. exact Hj.
  - apply NoDup_cons in Hnd. destruct Hnd as [Hk' Hnd].
    destruct (String.eqb_spec k k') as [-> | Hne]; simpl.
    + split; [apply NoDup_cons; split; assumption |].
      intros j Hj. right. exact Hj.
    + destruct (IH Hnd) as [H1 H2]. split.
      * apply NoDup_cons. split; [| exact H1].
        intros Hin. destruct (H2 _ Hin) as [-> | Hin']; [congruence | contradiction].
      * intros j Hj. apply elem_of_cons in Hj. destruct Hj as [-> | Hj].
        -- right. apply list_elem_of_here.
        -- destruct (H2 _ Hj) as [-> | Hj']; [left; reflexivity |].
           right. apply list_elem_of_further. exact Hj'.
Qed.

Lemma count_genres_keys (genres : list string) (counts : list (string * Z)) :
  NoDup (map fst counts) ->
  NoDup (map fst (fold_left count_genre genres counts))
  /\ forall j, j ∈ map fst (fold_left count_genre genres counts) ->
       j ∈ genres \/ j ∈ map fst counts.
Proof.
  revert counts. induction genres as [| g genres IH]; intros counts Hnd; simpl.
  - split; [exact Hnd |]. intros j Hj. right. exact Hj.
  - unfold count_genre at 2 4.
    destruct (dict_set_keys g
                (match dict_get g counts with Some n => n + 1 | None => 1 end)%Z
                counts Hnd) as [H1 H2].
    destruct (IH _ H1) as [H3 H4]. split; [exact H3 |].
    intros j Hj. destruct (H4 _ Hj) as [Hin | Hin].
    + left. apply list_elem_of_further. exact Hin.
    + destruct (H2 _ Hin) as [-> | Hin']; [left; apply list_elem_of_here | right; exact Hin'].
Qed.

Lemma count_genres_nonempty (genres : list string) (counts : list (string * Z)) :
  counts <> [] -> fold_left count_genre genres counts <> [].
Proof.
  revert counts. induction genres as [| g genres IH]; intros counts H; simpl; [exact H |].
  apply IH. unfold count_genre. destruct counts as [| [k v] d]; [congruence |].
  simpl. destruct (String.eqb g k); discriminate.
Qed.

(** X25: [_infer_genres_from_tracks] returns at most three genres, all
    different, each one of the eight names the keyword buckets can give;
    it returns none exactly when no track has metadata. *)
Theorem inferred_genres_shape (l : list Track) :
  let genres := _infer_genres_from_tracks l in
  length genres <= 3
  /\ NoDup genres
  /\ (forall g, g ∈ genres -> g ∈ genre_names)
  /\ (genres = [] <-> forall t, t ∈ l -> metadata t = None).
Proof.
  cbv zeta. unfold _infer_genres_from_tracks.
  set (gs := flat_map (fun t => match metadata t with
                               | Some m => [genre_of m]
                               | None => []
                               end) l).
  set (counts := fold_left count_genre gs []).
  set (sorted := sort_desc (fun e : string * Z => inject_Z (snd e)) counts).
  assert (Hperm : map fst sorted ≡ₚ map fst counts).
  { apply Permutation_map. apply sort_desc_perm. }
  destruct (count_genres_keys gs [] (NoDup_nil_2)) as [Hnd Hkeys]. fold counts in Hnd, Hkeys.
  assert (Hgs : forall g, g ∈ gs -> g ∈ genre_names).
  { intros g Hg. unfold gs in Hg. apply list_elem_of_In, in_flat_map in Hg.
    destruct Hg as [t [_ Hg]]. destruct (metadata t) as [m |]; [| inversion Hg].
    destruct Hg as [<- | []]. apply genre_of_known. }
  split; [rewrite length_take; lia |].
  split.
  { eapply sublist_NoDup; [| apply sublist_take].
    rewrite Hperm. exact Hnd. }
  split.
  { intros g Hg. apply subseteq_take in Hg. rewrite Hperm in Hg.
    destruct (Hkeys g Hg) as [H | H]; [apply Hgs; exact H | inversion H]. }
  split.
  - intros Hempty t Ht. destruct (metadata t) as [m |] eqn:Em; [| reflexivity].
    exfalso.
    assert (Hg : genre_of m ∈ gs).
    { unfold gs. apply list_elem_of_In, in_flat_map. exists t.
      split; [apply list_elem_of_In; exact Ht |]. rewrite Em. left. reflexivity. }
    assert (Hc : counts <> []).
    { unfold counts. destruct gs as [| g0 gs0]; [inversion Hg |]. simpl.
      apply count_genres_nonempty. discriminate. }
    assert (Hs : sorted <> []).
    { intros Hs. apply Hc. apply Permutation_nil_r. rewrite <- Hs.
      symmetry. apply sort_desc_perm. }
    destruct sorted as [| e sorted']; [congruence |]. discriminate Hempty.
  - intros Hnone.
    assert (Egs : gs = []).
    { unfold gs. clear -Hnone. induction l as [| t l IH]; [reflexivity |]. simpl.
      rewrite (Hnone t) by apply list_elem_of_here. simpl.
      apply IH. intros u Hu. apply Hnone. apply list_elem_of_further. exact Hu. }
    unfold sorted, counts. rewrite Egs. reflexivity.
Qed.

(** *** Query generation *)

Lemma generate_queries_frame (bd : BackgroundDiscovery) (strategy : string) (tape : Tape) :
  exists queries depth tape',
    _generate_discovery_queries bd strategy tape
    = (queries, set_context bd (seed_tracks bd) (discovered_artists bd) depth, tape')
    /\ length queries <= 5.
Proof.
  unfold _generate_discovery_queries.
  destruct (seed_tracks bd) as [| s0 ss] eqn:Es.
  - exists ["popular music"; "indie songs"; "alternative rock"],
      (artist_exploration_depth bd), tape.
    split; [| simpl; lia]. unfold ret. f_equal. f_equal.
    destruct bd; simpl in *; subst; reflexivity.
  - match goal with
    | |- context [let '(queries, depth) := ?e in _] => destruct e as [queries depth]
    end.
    unfold bind. destruct (random_shuffle queries tape) as [shuffled t1].
    exists (take 5 shuffled), depth, t1. split; [reflexivity |].
    rewrite length_take. lia.
Qed.

(** X26: [_generate_discovery_queries] returns at most 5 queries and
    changes nothing of the scheduler state but the exploration depths.
    Without any seed it returns its three fixed queries, draws no random
    number and changes nothing at all; with seeds and a strategy other
    than artist, related and genre it returns no query. *)
Theorem query_generation_shape (bd : BackgroundDiscovery) (strategy : string) (tape : Tape) :
  let r := _generate_discovery_queries bd strategy tape in
  length (fst (fst r)) <= 5
  /\ (exists depth,
        snd (fst r) = set_context bd (seed_tracks bd) (discovered_artists bd) depth)
  /\ (seed_tracks bd = [] ->
      r = (["popular music"; "indie songs"; "alternative rock"], bd, tape))
  /\ (seed_tracks bd <> [] ->
      strategy <> "artist" -> strategy <> "related" -> strategy <> "genre" ->
      fst (fst r) = []).
Proof.
  cbv zeta.
  destruct (generate_queries_frame bd strategy tape) as [queries [depth [tape' [E Hlen]]]].
  split; [rewrite E; exact Hlen |].
  split; [exists depth; rewrite E; reflexivity |].
  split.
  - intros Hs. unfold _generate_discovery_queries. rewrite Hs. reflexivity.
  - intros Hs Ha Hr Hg. unfold _generate_discovery_queries.
    destruct (seed_tracks bd) as [| s0 ss]; [congruence |].
    apply String.eqb_neq in Ha, Hr, Hg. rewrite Ha, Hr, Hg. reflexivity.
Qed.

Lemma query_generation_shape_witness :
  _generate_discovery_queries new_discovery "genre" [9; 9]
  = (["popular music"; "indie songs"; "alternative rock"], new_discovery, [9; 9]).
Proof.
  apply (query_generation_shape new_discovery "genre" [9; 9]). reflexivity.
Defined.

(** *** Filtering, discovery rounds and the worker *)

Section Rounds.

Variable search_with_strategy : string -> string -> nat -> list Track.
Variable enhance_track_info : Track -> option Track.

Lemma filter_loop_fields (l : list Track) (existing : gset (option string)) :
  length (filter_loop enhance_track_info l existing) <= length l
  /\ forall o, o ∈ filter_loop enhance_track_info l existing ->
       is_Some (duration o) /\ is_Some (quality_score o).
Proof.
  revert existing. induction l as [| t l IH]; intros existing; simpl.
  - split; [lia |]. intros o Ho. inversion Ho.
  - destruct (bool_decide _ || Qltb _ 0.4).
    + destruct (IH existing) as [H1 H2]. split; [lia | exact H2].
    + destruct (enhance_track_info t) as [e |].
      * destruct (IH ({[ id t ]} ∪ existing)) as [H1 H2]. split; [simpl; lia |].
        intros o Ho. apply elem_of_cons in Ho. destruct Ho as [-> | Ho].
        -- simpl. split; eauto.
        -- apply H2. exact Ho.
      * destruct (IH existing) as [H1 H2]. split; [lia | exact H2].
Qed.

Lemma filter_loop_rejects (l : list Track) (existing : gset (option string)) :
  (forall t, t ∈ l ->
     id t ∈ existing
     \/ (match quality_score t with Some s => s | None => 0%Q end < 0.4)%Q
     \/ enhance_track_info t = None) ->
  filter_loop enhance_track_info l existing = [].
Proof.
  revert existing. induction l as [| t l IH]; intros existing H; simpl; [reflexivity |].
  assert (Hrest : forall u, u ∈ l ->
            id u ∈ existing
            \/ (match quality_score u with Some s => s | None => 0%Q end < 0.4)%Q
            \/ enhance_track_info u = None).
  { intros u Hu. apply H. apply list_elem_of_further. exact Hu. }
  destruct (H t (list_elem_of_here _ _)) as [Hin | [Hq | He]].
  - rewrite (bool_decide_eq_true_2 _ Hin). simpl. apply IH. exact Hrest.
  - apply Qltb_true in Hq. rewrite Hq, orb_true_r. apply IH. exact Hrest.
  - rewrite He. destruct (bool_decide _ || Qltb _ 0.4); apply IH; exact Hrest.
Qed.

Lemma filter_loop_fresh (l : list Track) (existing : gset (option string)) :
  (forall t e, enhance_track_info t = Some e -> id e = id t) ->
  NoDup (map id (filter_loop enhance_track_info l existing))
  /\ forall o, o ∈ filter_loop enhance_track_info l existing -> id o ∉ existing.
Proof.
  intros Hid. revert existing. induction l as [| t l IH]; intros existing; simpl.
  - split; [constructor |]. intros o Ho. inversion Ho.
  - destruct (bool_decide (id t ∈ existing)) eqn:Ein; simpl; [apply IH |].
    destruct (Qltb _ 0.4); [apply IH |].
    destruct (enhance_track_info t) as [e |] eqn:Ee; [| apply IH].
    apply bool_decide_eq_false in Ein.
    destruct (IH ({[ id t ]} ∪ existing)) as [H1 H2].
    split.
    + simpl. apply NoDup_cons. split; [| exact H1].
      rewrite (Hid t e Ee). intros Hin.
      apply list_elem_of_In, in_map_iff in Hin. destruct Hin as [o [Eo Hin]].
      apply list_elem_of_In in Hin. apply (H2 o Hin). rewrite Eo. set_solver.
    + intros o Ho. apply elem_of_cons in Ho. destruct Ho as [-> | Ho].
      * simpl. rewrite (Hid t e Ee). exact Ein.
      * intros Hin. apply (H2 o Ho). set_solver.
Qed.

Lemma ids_of_elem (l : list Track) (x : Track) :
  x ∈ l -> has_id x = true -> id x ∈ ids_of l.
Proof.
  intros Hx Hid. unfold ids_of. apply elem_of_list_to_set.
  apply list_elem_of_In, in_map, filter_In.
  split; [apply list_elem_of_In; exact Hx | exact Hid].
Qed.

(** X27: [_filter_discovered_tracks] accepts no more tracks than it is
    given, fills in duration and quality score on every accepted track, and
    accepts nothing when every candidate is already in the queue or the
    seed window, scores below 0.4, or gets no audio URL. When enhancing a
    track keeps its identifier, the accepted tracks have identifiers that
    differ from one another and from those of every identified track of
    the two tiers and the seed window. *)
Theorem filter_discovered_tracks_guarantees (w : World) (l : list Track) :
  let out := _filter_discovered_tracks enhance_track_info w l in
  let held := main_queue (queue w) ++ priority_queue (queue w)
              ++ seed_tracks (discovery w) in
  length out <= length l
  /\ (forall o, o ∈ out -> is_Some (duration o) /\ is_Some (quality_score o))
  /\ ((forall t, t ∈ l ->
         (exists x, x ∈ held /\ has_id x = true /\ id x = id t)
         \/ (match quality_score t with Some s => s | None => 0%Q end < 0.4)%Q
         \/ enhance_track_info t = None) ->
      out = [])
  /\ ((forall t e, enhance_track_info t = Some e -> id e = id t) ->
      NoDup (map id out)
      /\ forall o x, o ∈ out -> x ∈ held -> has_id x = true -> id x <> id o).
Proof.
  cbv zeta. unfold _filter_discovered_tracks.
  set (existing := ids_of (main_queue (queue w) ++ priority_queue (queue w))
                   ∪ ids_of (seed_tracks (discovery w))).
  assert (Hheld : forall x,
            x ∈ main_queue (queue w) ++ priority_queue (queue w)
                ++ seed_tracks (discovery w) ->
            has_id x = true -> id x ∈ existing).
  { intros x Hx Hid. unfold existing. rewrite app_assoc in Hx.
    apply elem_of_app in Hx. destruct Hx as [Hx | Hx].
    - apply elem_of_union_l. apply ids_of_elem; assumption.
    - apply elem_of_union_r. apply ids_of_elem; assumption. }
  split; [apply filter_loop_fields |].
  split; [apply filter_loop_fields |].
  split.
  - intros H. apply filter_loop_rejects. intros t Ht.
    destruct (H t Ht) as [[x [Hx [Hid Heq]]] | Hother]; [| right; exact Hother].
    left. rewrite <- Heq. apply Hheld; assumption.
  - intros Hid. destruct (filter_loop_fresh l existing Hid) as [H1 H2].
    split; [exact H1 |].
    intros o x Ho Hx Hx_id Heq. apply (H2 o Ho). rewrite <- Heq.
    apply Hheld; assumption.
Qed.

Lemma accept_tracks_spec (w : World) (new_tracks : list Track) (tape : Tape) :
  exists added l tape',
    accept_tracks enhance_track_info w new_tracks tape
    = (mkWorld (set_main_queue (queue w) l) (discovery w), tape')
    /\ l ≡ₚ main_queue (queue w) ++ added.
Proof.
  unfold accept_tracks.
  assert (Hsame : exists added l tape',
            (w, tape) = (mkWorld (set_main_queue (queue w) l) (discovery w), tape')
            /\ l ≡ₚ main_queue (queue w) ++ added).
  { exists [], (main_queue (queue w)), tape.
    rewrite QueueFacts.set_main_queue_same, app_nil_r.
    split; [destruct w; reflexivity | reflexivity]. }
  destruct new_tracks as [| t0 rest]; [exact Hsame |].
  destruct (_filter_discovered_tracks enhance_track_info w (t0 :: rest))
    as [| f0 filtered] eqn:Ef; [exact Hsame |].
  unfold bind, add_tracks.
  destruct (QueueFacts.reorganize_spec
              (set_main_queue (queue w) (main_queue (queue w) ++ f0 :: filtered)) tape)
    as [l [tape' [E [P _]]]].
  rewrite E. exists (f0 :: filtered), l, tape'.
  split; [destruct (queue w); reflexivity | exact P].
Qed.

Lemma perform_discovery_spec (w : World) (reason : string) (tape : Tape) :
  exists added l depth tape',
    _perform_discovery search_with_strategy enhance_track_info w reason tape
    = (mkWorld (set_main_queue (queue w) l)
         (set_context (discovery w) (seed_tracks (discovery w))
            (discovered_artists (discovery w)) depth),
       tape')
    /\ l ≡ₚ main_queue (queue w) ++ added.
Proof.
  unfold _perform_discovery.
  destruct (seed_tracks (discovery w)) as [| s0 ss] eqn:Es.
  - unfold _discover_without_context.
    match goal with |- context [accept_tracks _ w ?n tape] =>
      destruct (accept_tracks_spec w n tape) as [added [l [tape' [E P]]]] end.
    exists added, l, (artist_exploration_depth (discovery w)), tape'.
    rewrite E. split; [| exact P]. f_equal. f_equal.
    destruct (discovery w); simpl in *; subst; reflexivity.
  - rewrite <- Es. unfold bind.
    destruct (generate_queries_frame (discovery w)
                (_choose_discovery_strategy (discovery w)) tape)
      as [queries [depth [t1 [E _]]]].
    rewrite E.
    match goal with |- context [accept_tracks _ ?w1 ?n t1] =>
      destruct (accept_tracks_spec w1 n t1) as [added [l [tape' [Ea P]]]] end.
    rewrite Ea. simpl in *. exists added, l, depth, tape'.
    split; [reflexivity | exact P].
Qed.



Lemma worker_pass_spec (w : World) (tape : Tape) :
  is_running (discovery w) = true ->
  let w' := fst (worker_pass search_with_strategy enhance_track_info w tape) in
  discovery_queue (discovery w') = tail (discovery_queue (discovery w))
  /\ is_running (discovery w') = true
  /\ priority_queue (queue w') = priority_queue (queue w)
  /\ (forall t, t ∈ main_queue (queue w) -> t ∈ main_queue (queue w')).
Proof.
  intros Hrun. cbv zeta. unfold worker_pass.
  destruct (discovery_queue (discovery w)) as [| reason rest] eqn:Eq.
  - simpl. rewrite Eq. repeat split; [exact Hrun | tauto].
  - simpl. rewrite Hrun. simpl.
    match goal with |- context [_perform_discovery _ _ ?w1 reason tape] =>
      destruct (perform_discovery_spec w1 reason tape)
        as [added [l [depth [tape' [E P]]]]] end.
    rewrite E. simpl in *. split; [reflexivity |]. split; [exact Hrun |].
    split; [reflexivity |].
    intros t Ht. rewrite P. apply elem_of_app. left. exact Ht.
Qed.

Lemma worker_drain (n : nat) (w : World) (tape : Tape) :
  is_running (discovery w) = true ->
  length (discovery_queue (discovery w)) <= n ->
  let w' := fst (_discovery_worker search_with_strategy enhance_track_info n w tape) in
  discovery_queue (discovery w') = []
  /\ is_running (discovery w') = true
  /\ priority_queue (queue w') = priority_queue (queue w)
  /\ (forall t, t ∈ main_queue (queue w) -> t ∈ main_queue (queue w')).
Proof.
  revert w tape. induction n as [| n IH]; intros w tape Hrun Hlen; cbv zeta.
  - simpl. destruct (discovery_queue (discovery w)); [| simpl in Hlen; lia].
    repeat split; [exact Hrun | tauto].
  - simpl. rewrite Hrun. unfold bind.
    pose proof (worker_pass_spec w tape Hrun) as Hpass. cbv zeta in Hpass.
    destruct (worker_pass search_with_strategy enhance_track_info w tape) as [w1 t1].
    simpl in Hpass. destruct Hpass as [Hq [Hr [Hp Hm]]].
    assert (Hlen1 : length (discovery_queue (discovery w1)) <= n).
    { rewrite Hq. destruct (discovery_queue (discovery w)); simpl in *; lia. }
    pose proof (IH w1 t1 Hr Hlen1) as H. cbv zeta in H.
    destruct H as [H1 [H2 [H3 H4]]].
    split; [exact H1 |]. split; [exact H2 |]. split; [rewrite H3; exact Hp |].
    intros t Ht. apply H4, Hm. exact Ht.
Qed.

(** X29: while the running flag is set, the worker takes one pending
    reason per pass and a discovery round never enqueues one, so after at
    least as many passes as there were pending reasons the channel is
    empty; no track leaves the main tier on the way and the priority tier
    is untouched. With the running flag cleared the worker does nothing,
    whatever is pending. *)
Theorem worker_drains_the_channel (n : nat) (w : World) (tape : Tape) :
  (is_running (discovery w) = true ->
   length (discovery_queue (discovery w)) <= n ->
   let w' := fst (_discovery_worker search_with_strategy enhance_track_info n w tape) in
   discovery_queue (discovery w') = []
   /\ priority_queue (queue w') = priority_queue (queue w)
   /\ (forall t, t ∈ main_queue (queue w) -> t ∈ main_queue (queue w')))
  /\ (is_running (discovery w) = false ->
      _discovery_worker search_with_strategy enhance_track_info n w tape = (w, tape)).
Proof.
  split.
  - intros Hrun Hlen. pose proof (worker_drain n w tape Hrun Hlen) as H.
    cbv zeta in *. tauto.
  - intros Hstop. destruct n; simpl; [reflexivity |]. rewrite Hstop. reflexivity.
Qed.

End Rounds.

Lemma filter_discovered_tracks_guarantees_witness :
  NoDup (map id
           (_filter_discovered_tracks Some
              (mkWorld (sample_queue "smart" [] [sample_track "a" "A"] 0) new_discovery)
              [sample_track "a" "A"; sample_track "b" "B"; sample_track "b" "B"])).
Proof.
  apply (filter_discovered_tracks_guarantees Some
           (mkWorld (sample_queue "smart" [] [sample_track "a" "A"] 0) new_discovery)
           [sample_track "a" "A"; sample_track "b" "B"; sample_track "b" "B"]).
  intros t e H. injection H as <-. reflexivity.
Defined.

Lemma worker_drains_the_channel_witness :
  discovery_queue
    (discovery
       (fst (_discovery_worker (fun _ _ _ => [sample_track "n" "N"]) Some 2
               (mkWorld (new_queue fresh_history)
                  (set_discovery_queue (set_is_running new_discovery true)
                     ["low_queue"; "periodic_check"]))
               [])))
  = [].
Proof.
  apply (worker_drains_the_channel (fun _ _ _ => [sample_track "n" "N"]) Some 2
           (mkWorld (new_queue fresh_history)
              (set_discovery_queue (set_is_running new_discovery true)
                 ["low_queue"; "periodic_check"]))
           []).
  - reflexivity.
  - simpl. lia.
Defined.

End SchedulerFacts.

(** ** smart_queue.py: the track score over time *)

Module ScoreFacts.

Import History.

(** The last block of [get_track_score]: the penalty for a recent play. *)
Definition recency_step (h : ListeningHistory) (now : Q) (track : Track) (score : Q) : Q :=
  match id track with
  | Some track_id =>
      if truthy track_id then
        match tracks h !! track_id with
        | Some st =>
            let hours_since := ((now - inject_Z (last_played st)) / 3600)%Q in
            if Qltb hours_since 2 then (score - 0.3)%Q
            else if Qltb hours_since 24 then (score - 0.1)%Q
            else score
        | None => score
        end
      else score
  | None => score
  end.

Lemma recency_step_mono (h : ListeningHistory) (now1 now2 : Q) (track : Track) (score : Q) :
  (now1 <= now2)%Q ->
  (recency_step h now1 track score <= recency_step h now2 track score)%Q
  /\ (score - 0.3 <= recency_step h now1 track score)%Q
  /\ (recency_step h now1 track score <= score)%Q.
Proof.
  intros Hle. unfold recency_step.
  destruct (id track) as [i |]; [| repeat split; lra].
  destruct (truthy i); [| repeat split; lra].
  destruct (tracks h !! i) as [st |]; [| repeat split; lra].
  assert (Hh : ((now1 - inject_Z (last_played st)) / 3600
                <= (now2 - inject_Z (last_played st)) / 3600)%Q).
  { unfold Qdiv. apply Qmult_le_compat_r; [lra |]. unfold Qle. simpl. lia. }
  unfold Qltb.
  repeat match goal with |- context [Qlt_le_dec ?a ?b] => destruct (Qlt_le_dec a b) end;
    repeat split; lra.
Qed.

Lemma get_track_score_unfold (h : ListeningHistory) (now : Q) (track : Track) :
  exists base, forall t, get_track_score h t track = clamp01 (recency_step h t track base).
Proof.
  unfold get_track_score, recency_step. eexists. intros t. reflexivity.
Qed.

(** X30: [get_track_score] lies between 0 and 1, and for a given history
    and track it never goes down as the clock advances: the penalty for a
    recent play (0.3 within 2 hours, 0.1 within 24) only fades. A track
    that the history does not record, or that has no identifier, scores
    the same at every time. *)
Theorem track_score_recovers_with_time
    (h : ListeningHistory) (track : Track) (now1 now2 : Q) :
  (0 <= get_track_score h now1 track)%Q /\ (get_track_score h now1 track <= 1)%Q
  /\ ((now1 <= now2)%Q ->
      (get_track_score h now1 track <= get_track_score h now2 track)%Q)
  /\ ((forall i, id track = Some i -> tracks h !! i = None) ->
      get_track_score h now1 track = get_track_score h now2 track).
Proof.
  split; [apply clamp01_bounds |]. split; [apply clamp01_bounds |].
  destruct (get_track_score_unfold h now1 track) as [base E].
  split.
  - intros Hle. rewrite !E. apply Quality.clamp01_mono.
    apply recency_step_mono. exact Hle.
  - intros Hnone. rewrite !E. unfold recency_step.
    destruct (id track) as [i |]; [| reflexivity].
    rewrite (Hnone i eq_refl). destruct (truthy i); reflexivity.
Qed.

Lemma track_score_recovers_with_time_witness :
  (get_track_score (demo_history 0.5) 1000 demo_track
   <= get_track_score (demo_history 0.5) 100000 demo_track)%Q.
Proof.
  apply (track_score_recovers_with_time (demo_history 0.5) demo_track 1000 100000).
  unfold Qle. simpl. lia.
Defined.

End ScoreFacts.

(** ** Concrete instances *)

Module Instances.

Import History.
Import Queue.
Import Scheduler.

Lemma remove_track_outcome_witness :
  let q := sample_queue "smart" [sample_track "p" "P"]
             [sample_track "a" "A"; sample_track "b" "B"] 1 in
  S (total_tracks (snd (remove_track q "a"))) = total_tracks q.
Proof.
  cbv zeta.
  apply (QueueFacts.remove_track_outcome
           (sample_queue "smart" [sample_track "p" "P"]
              [sample_track "a" "A"; sample_track "b" "B"] 1) "a").
  reflexivity.
Defined.

Lemma add_tracks_outcome_witness :
  let q := sample_queue "random" [] [sample_track "a" "A"; sample_track "b" "B"] 0 in
  main_queue (fst (add_tracks q [sample_track "c" "C"; sample_track "d" "D"] false [5]))
  = [sample_track "a" "A"; sample_track "b" "B"; sample_track "c" "C"; sample_track "d" "D"].
Proof.
  cbv zeta.
  apply (QueueFacts.add_tracks_outcome
           (sample_queue "random" [] [sample_track "a" "A"; sample_track "b" "B"] 0)
           [sample_track "c" "C"; sample_track "d" "D"] false [5]).
  left. discriminate.
Defined.

Lemma recommendations_shape_witness :
  QueueFacts.get_recommendations_for_queue (new_queue fresh_history)
  = ["Add some tracks to get started!"].
Proof.
  apply (QueueFacts.recommendations_shape (new_queue fresh_history)). reflexivity.
Defined.

Lemma reset_context_outcome_witness :
  let bd := set_last_discovery_time new_discovery 100 in
  _trigger_discovery (reset_context bd) "low_queue" 105 = reset_context bd.
Proof.
  cbv zeta.
  apply (SchedulerFacts.reset_context_outcome
           (set_last_discovery_time new_discovery 100) "low_queue" 105).
  reflexivity.
Defined.

Lemma health_check_prunes_to_top_twenty_witness :
  let w := mkWorld (new_queue fresh_history)
             (set_context new_discovery [] ∅ (repeat ("artist", 1%Z) 51)) in
  length (artist_exploration_depth (discovery (_check_queue_health w 0))) = 20.
Proof.
  cbv zeta.
  apply (SchedulerFacts.health_check_prunes_to_top_twenty
           (mkWorld (new_queue fresh_history)
              (set_context new_discovery [] ∅ (repeat ("artist", 1%Z) 51))) 0).
  simpl. lia.
Defined.


End Instances.
